(** * Reconciliation logic of the Infinibox Ansible modules

    A shallow embedding of the six modules under [storage/infinidat]
    ([infini_pool], [infini_vol], [infini_fs], [infini_export],
    [infini_export_client], [infini_host]) and the properties their
    behavioural description states about them.

    The modules talk to two collaborators that are not part of the
    repository: the [capacity] package (capacity values) and [infinisdk]
    (the storage array).  Both are modelled below, the former from its
    description, the latter as a plain store whose few free choices are
    the fields of [Firmware].  A run starts where [get_system] has
    returned the session: the import check, the credentials and the
    login are not part of the model. *)

From Stdlib Require Import ZArith Lia Ascii.
From stdpp Require Import base gmap sets list strings.

Open Scope Z_scope.

(* ===================================================================== *)
(** * Capacity values *)
(* ===================================================================== *)

Module Capacity.

(** Modelled from the spec: the unit constants of the [capacity] package,
    which is not part of the repository, as byte counts: the binary
    units are powers of 1024, the decimal ones powers of 1000. *)
Definition byte : Z := 1.
Definition KiB : Z := 1024.
Definition MiB : Z := 1024 * KiB.
Definition GiB : Z := 1024 * MiB.
Definition TiB : Z := 1024 * GiB.
Definition PiB : Z := 1024 * TiB.
Definition KB : Z := 1000.
Definition MB : Z := 1000 * KB.
Definition GB : Z := 1000 * MB.
Definition TB : Z := 1000 * GB.
Definition PB : Z := 1000 * TB.

Definition digit_of (c : ascii) : option Z :=
  let n := Z.of_N (N_of_ascii c) in
  if (48 <=? n) && (n <=? 57) then Some (n - 48) else None.

Definition lower (c : ascii) : ascii :=
  let n := N_of_ascii c in
  if ((65 <=? n) && (n <=? 90))%N then ascii_of_N (n + 32) else c.

Fixpoint lowercase (s : string) : string :=
  match s with
  | EmptyString => EmptyString
  | String c rest => String (lower c) (lowercase rest)
  end.

(** Leading decimal digits of [s]; [None] when there is none. *)
Fixpoint parse_number (acc : Z) (seen : bool) (s : string) : option (Z * string) :=
  match s with
  | EmptyString => if seen then Some (acc, s) else None
  | String c rest =>
      match digit_of c with
      | Some d => parse_number (10 * acc + d) true rest
      | None => if seen then Some (acc, s) else None
      end
  end.

Definition units : list (string * Z) :=
  [ ("b", byte);
    ("kb", KB); ("kib", KiB);
    ("mb", MB); ("mib", MiB);
    ("gb", GB); ("gib", GiB);
    ("tb", TB); ("tib", TiB);
    ("pb", PB); ("pib", PiB) ]%string.

Fixpoint unit_bytes (table : list (string * Z)) (u : string) : option Z :=
  match table with
  | [] => None
  | (n, b) :: table' => if bool_decide (n = u) then Some b else unit_bytes table' u
  end.

(** Modelled from the spec: the constructor [Capacity(text)] of the
    [capacity] package, which is not part of the repository.  A text is
    accepted when it is a decimal number followed by one of the units
    B, KB, KiB, MB, MiB, GB, GiB, TB, TiB, PB, PiB in any letter case;
    the value is the byte count.  [None] stands for the exception the
    constructor raises on any other text. *)
Definition parse (text : string) : option Z :=
  match parse_number 0 false text with
  | Some (n, u) =>
      match unit_bytes units (lowercase u) with
      | Some b => Some (n * b)
      | None => None
      end
  | None => None
  end.

(** [ceil (x / a)] on integers, through [ceil y = - floor (- y)]. *)
Definition ceil_div (x a : Z) : Z := - ((- x) / a).

(** Modelled from the spec: the method [roundup] of the [capacity]
    package, which is not part of the repository:
    [ceil (bytes / alignment) * alignment], alignment greater than 0. *)
Definition roundup (bytes alignment : Z) : Z := ceil_div bytes alignment * alignment.

End Capacity.

(* ===================================================================== *)
(** * The storage array *)
(* ===================================================================== *)

(** One entry of an export's permission list: the SDK hands them out as
    [Munch] objects with the attributes [client], [access] and
    [no_root_squash]. *)
Module Munch.

Record t := {
  client : string;
  access : string;
  no_root_squash : bool
}.

End Munch.

Abbreviation Permission := Munch.t.

Record Pool := {
  physical_capacity : Z;
  virtual_capacity : Z;
  ssd_enabled : bool
}.

(** Volumes and filesystems carry the same two attributes. *)
Record Dataset := {
  dataset_pool : string;
  dataset_size : Z
}.

Record Export := {
  export_path : string;
  export_filesystem : string;
  permissions : list Permission
}.

Record Host := {
  host_name : string;
  fc_ports : list string;
  mapped_volumes : list string
}.

(** What the array decides on its own when it executes a call.  The
    modules leave these choices to the array, so they are parameters of
    the model:
    - [pool_capacity c]: the capacity the array records for a pool when it
      is asked for [c] (the comment in [update_pool] says the array rounds
      capacities up);
    - [new_dataset_size]: the size of a volume or filesystem created
      without one;
    - [new_export_permissions]: the permission list of an export created
      without one. *)
Record Firmware := {
  pool_capacity : Z → Z;
  new_dataset_size : Z;
  new_export_permissions : list Permission
}.

(** The array: pools, volumes and filesystems are found by name
    ([system.pools.get(name=...)]), exports and hosts are listed
    ([to_list()]) and searched by the modules themselves. *)
Record InfiniBox := {
  firmware : Firmware;
  pools : gmap string Pool;
  volumes : gmap string Dataset;
  filesystems : gmap string Dataset;
  exports : list Export;
  hosts : list Host
}.

(** The calls that change the array.  A pool, volume or filesystem object
    is named by its name, an export or host object by its position in the
    array's listing. *)
Inductive call :=
| pools_create (name : string) (physical virtual : Z)
| pool_update_physical_capacity (name : string) (c : Z)
| pool_update_virtual_capacity (name : string) (c : Z)
| pool_update_ssd_enabled (name : string) (b : bool)
| pool_delete (name : string)
| volumes_create (name pool : string)
| volume_update_size (name : string) (size : Z)
| volume_delete (name : string)
| filesystems_create (name pool : string)
| filesystem_update_size (name : string) (size : Z)
| filesystem_delete (name : string)
| exports_create (path filesystem : string)
| export_update_permissions (index : nat) (perms : list Permission)
| export_delete (index : nat)
| hosts_create (name : string)
| host_add_fc_port (index : nat) (port : string)
| host_map_volume (index : nat) (volume : string)
| host_delete (index : nat).

(** Effect of one call on the array.  Every call is accepted: the errors
    an array may answer with (they end a module through [fail_json], see
    [api_wrapper]) are outside the model.  A new pool has its SSD cache
    on, as the comment in [create_pool] says. *)
Definition apply_call (c : call) (box : InfiniBox) : InfiniBox :=
  let fw := firmware box in
  match c with
  | pools_create n p v =>
      {| firmware := fw;
         pools := <[n := {| physical_capacity := pool_capacity fw p;
                            virtual_capacity := pool_capacity fw v;
                            ssd_enabled := true |}]> (pools box);
         volumes := volumes box; filesystems := filesystems box;
         exports := exports box; hosts := hosts box |}
  | pool_update_physical_capacity n c =>
      {| firmware := fw;
         pools := alter (λ p, {| physical_capacity := pool_capacity fw c;
                                 virtual_capacity := virtual_capacity p;
                                 ssd_enabled := ssd_enabled p |}) n (pools box);
         volumes := volumes box; filesystems := filesystems box;
         exports := exports box; hosts := hosts box |}
  | pool_update_virtual_capacity n c =>
      {| firmware := fw;
         pools := alter (λ p, {| physical_capacity := physical_capacity p;
                                 virtual_capacity := pool_capacity fw c;
                                 ssd_enabled := ssd_enabled p |}) n (pools box);
         volumes := volumes box; filesystems := filesystems box;
         exports := exports box; hosts := hosts box |}
  | pool_update_ssd_enabled n b =>
      {| firmware := fw;
         pools := alter (λ p, {| physical_capacity := physical_capacity p;
                                 virtual_capacity := virtual_capacity p;
                                 ssd_enabled := b |}) n (pools box);
         volumes := volumes box; filesystems := filesystems box;
         exports := exports box; hosts := hosts box |}
  | pool_delete n =>
      {| firmware := fw; pools := delete n (pools box);
         volumes := volumes box; filesystems := filesystems box;
         exports := exports box; hosts := hosts box |}
  | volumes_create n p =>
      {| firmware := fw; pools := pools box;
         volumes := <[n := {| dataset_pool := p;
                              dataset_size := new_dataset_size fw |}]> (volumes box);
         filesystems := filesystems box;
         exports := exports box; hosts := hosts box |}
  | volume_update_size n s =>
      {| firmware := fw; pools := pools box;
         volumes := alter (λ d, {| dataset_pool := dataset_pool d;
                                   dataset_size := s |}) n (volumes box);
         filesystems := filesystems box;
         exports := exports box; hosts := hosts box |}
  | volume_delete n =>
      {| firmware := fw; pools := pools box;
         volumes := delete n (volumes box);
         filesystems := filesystems box;
         exports := exports box; hosts := hosts box |}
  | filesystems_create n p =>
      {| firmware := fw; pools := pools box; volumes := volumes box;
         filesystems := <[n := {| dataset_pool := p;
                                  dataset_size := new_dataset_size fw |}]> (filesystems box);
         exports := exports box; hosts := hosts box |}
  | filesystem_update_size n s =>
      {| firmware := fw; pools := pools box; volumes := volumes box;
         filesystems := alter (λ d, {| dataset_pool := dataset_pool d;
                                       dataset_size := s |}) n (filesystems box);
         exports := exports box; hosts := hosts box |}
  | filesystem_delete n =>
      {| firmware := fw; pools := pools box; volumes := volumes box;
         filesystems := delete n (filesystems box);
         exports := exports box; hosts := hosts box |}
  | exports_create path fs =>
      {| firmware := fw; pools := pools box; volumes := volumes box;
         filesystems := filesystems box;
         exports := exports box ++
                    [ {| export_path := path; export_filesystem := fs;
                         permissions := new_export_permissions fw |} ];
         hosts := hosts box |}
  | export_update_permissions i perms =>
      {| firmware := fw; pools := pools box; volumes := volumes box;
         filesystems := filesystems box;
         exports := alter (λ e, {| export_path := export_path e;
                                   export_filesystem := export_filesystem e;
                                   permissions := perms |}) i (exports box);
         hosts := hosts box |}
  | export_delete i =>
      {| firmware := fw; pools := pools box; volumes := volumes box;
         filesystems := filesystems box;
         exports := delete i (exports box); hosts := hosts box |}
  | hosts_create n =>
      {| firmware := fw; pools := pools box; volumes := volumes box;
         filesystems := filesystems box; exports := exports box;
         hosts := hosts box ++
                  [ {| host_name := n; fc_ports := []; mapped_volumes := [] |} ] |}
  | host_add_fc_port i port =>
      {| firmware := fw; pools := pools box; volumes := volumes box;
         filesystems := filesystems box; exports := exports box;
         hosts := alter (λ h, {| host_name := host_name h;
                                 fc_ports := fc_ports h ++ [port];
                                 mapped_volumes := mapped_volumes h |}) i (hosts box) |}
  | host_map_volume i v =>
      {| firmware := fw; pools := pools box; volumes := volumes box;
         filesystems := filesystems box; exports := exports box;
         hosts := alter (λ h, {| host_name := host_name h;
                                 fc_ports := fc_ports h;
                                 mapped_volumes := mapped_volumes h ++ [v] |}) i (hosts box) |}
  | host_delete i =>
      {| firmware := fw; pools := pools box; volumes := volumes box;
         filesystems := filesystems box; exports := exports box;
         hosts := delete i (hosts box) |}
  end.

(* ===================================================================== *)
(** * Module runs *)
(* ===================================================================== *)

(** The [state] option of every module. *)
Inductive State := present | absent.

(** How a module run ends: [module.exit_json(changed=...)],
    [module.fail_json(msg=...)], or an exception nothing catches. *)
Inductive outcome :=
| Changed (changed : bool)
| Failed (msg : string)
| Uncaught (exc : string).

(** The array together with the changing calls issued so far. *)
Record World := {
  box : InfiniBox;
  calls : list call
}.

Inductive result (A : Type) :=
| Return (a : A)
| Stop (o : outcome).
Arguments Return {A} a.
Arguments Stop {A} o.

(** Module code: it reads and changes the array and either goes on with
    a value or stops the process ([exit_json] and [fail_json] do not
    return). *)
Definition M (A : Type) : Type := World → result A * World.

Global Instance M_ret : MRet M := λ A a w, (Return a, w).

Global Instance M_bind : MBind M := λ A B f m w,
  match m w with
  | (Return a, w') => f a w'
  | (Stop o, w') => (Stop o, w')
  end.

Definition system : M InfiniBox := λ w, (Return (box w), w).

Definition remote (c : call) : M unit := λ w,
  (Return (), {| box := apply_call c (box w); calls := calls w ++ [c] |}).

Definition exit_json {A} (changed : bool) : M A := λ w, (Stop (Changed changed), w).
Definition fail_json {A} (msg : string) : M A := λ w, (Stop (Failed msg), w).
Definition raise {A} (exc : string) : M A := λ w, (Stop (Uncaught exc), w).

Fixpoint for_each {A} (l : list A) (body : A → M unit) : M unit :=
  match l with
  | [] => mret ()
  | x :: l' => body x ;; for_each l' body
  end.

(** A whole run of a module against an array: how it ended ([None] if
    [main] returned without reporting), the array afterwards and the
    changing calls, in order. *)
Record Run := {
  ended : option outcome;
  array : InfiniBox;
  issued : list call
}.

Definition run (main : M unit) (b : InfiniBox) : Run :=
  match main {| box := b; calls := [] |} with
  | (Return _, w) => {| ended := None; array := box w; issued := calls w |}
  | (Stop o, w) => {| ended := Some o; array := box w; issued := calls w |}
  end.

(** Python truth of an optional text or list parameter: [None], the empty
    text and the empty list are false. *)
Definition truthy (o : option string) : bool :=
  match o with
  | Some s => negb (bool_decide (s = ""%string))
  | None => false
  end.

Definition truthy_list {A} (o : option (list A)) : bool :=
  match o with
  | Some (_ :: _) => true
  | _ => false
  end.

Definition text (o : option string) : string := default ""%string o.

(** [Capacity(text)] inside module code; the constructor's exception is
    not one [api_wrapper] catches. *)
Definition Capacity (s : string) : M Z :=
  match Capacity.parse s with
  | Some c => mret c
  | None => raise "ValueError"
  end.

(** The [try: Capacity(...) except: module.fail_json(...)] check at the
    start of [main] in the pool, volume and filesystem modules. *)
Definition check_capacity (o : option string) (msg : string) : M unit :=
  if truthy o then
    match Capacity.parse (text o) with
    | Some _ => mret ()
    | None => fail_json msg
    end
  else mret ().

(* ===================================================================== *)
(** * infini_pool *)
(* ===================================================================== *)

Module InfiniPool.

Record Params := {
  name : string;
  state : State;
  size : option string;
  vsize : option string;
  ssd_cache : bool
}.

(** A pool object is the name of the pool it stands for. *)
Definition get_pool (p : Params) : M (option string) :=
  b ← system;
  match pools b !! name p with
  | Some _ => mret (Some (name p))
  | None => mret None
  end.

Definition pool_fields (pool : string) : M Pool :=
  b ← system;
  match pools b !! pool with
  | Some q => mret q
  | None => raise "ObjectNotFound"
  end.

Definition create_pool (p : Params) : M unit :=
  let name := name p in
  let size := size p in
  let vsize := vsize p in
  let ssd_cache := ssd_cache p in
  (if negb (truthy size) && negb (truthy vsize) then
     physical ← Capacity "1TB"; virtual ← Capacity "1TB";
     remote (pools_create name physical virtual)
   else if truthy size && negb (truthy vsize) then
     physical ← Capacity (text size); virtual ← Capacity (text size);
     remote (pools_create name physical virtual)
   else if negb (truthy size) && truthy vsize then
     physical ← Capacity "1TB"; virtual ← Capacity (text vsize);
     remote (pools_create name physical virtual)
   else
     physical ← Capacity (text size); virtual ← Capacity (text vsize);
     remote (pools_create name physical virtual)) ;;
  (if negb ssd_cache then remote (pool_update_ssd_enabled name ssd_cache)
   else mret ()) ;;
  exit_json true.

(** The boundary [6 * 64 * KiB] of [update_pool]. *)
Definition boundary : Z := 6 * 64 * Capacity.KiB.

Definition update_pool (p : Params) (pool : string) : M unit :=
  let changed := false in
  let size := size p in
  let vsize := vsize p in
  let ssd_cache := ssd_cache p in
  changed ← (if truthy size then
               c ← Capacity (text size);
               let physical_capacity' := Capacity.roundup c boundary in
               q ← pool_fields pool;
               if bool_decide (physical_capacity q ≠ physical_capacity') then
                 remote (pool_update_physical_capacity pool physical_capacity') ;;
                 mret true
               else mret changed
             else mret changed);
  changed ← (if truthy vsize then
               c ← Capacity (text vsize);
               let virtual_capacity' := Capacity.roundup c boundary in
               q ← pool_fields pool;
               if bool_decide (virtual_capacity q ≠ virtual_capacity') then
                 remote (pool_update_virtual_capacity pool virtual_capacity') ;;
                 mret true
               else mret changed
             else mret changed);
  q ← pool_fields pool;
  changed ← (if bool_decide (ssd_enabled q ≠ ssd_cache) then
               remote (pool_update_ssd_enabled pool ssd_cache) ;;
               mret true
             else mret changed);
  exit_json changed.

Definition delete_pool (pool : string) : M unit :=
  remote (pool_delete pool) ;;
  exit_json true.

Definition main (p : Params) : M unit :=
  check_capacity (size p)
    "size (Physical Capacity) should be define in MB, GB, TB or PB units" ;;
  check_capacity (vsize p)
    "vsize (Virtual Capacity) should be define in MB, GB, TB or PB units" ;;
  let state := state p in
  pool ← get_pool p;
  match state, pool with
  | present, None => create_pool p
  | present, Some pool => update_pool p pool
  | absent, Some pool => delete_pool pool
  | absent, None => exit_json false
  end.

End InfiniPool.

(* ===================================================================== *)
(** * infini_vol *)
(* ===================================================================== *)

Module InfiniVol.

Record Params := {
  name : string;
  state : State;
  pool : string;
  size : option string
}.

Definition get_pool (p : Params) : M (option string) :=
  b ← system;
  match pools b !! pool p with
  | Some _ => mret (Some (pool p))
  | None => mret None
  end.

Definition get_volume (p : Params) : M (option string) :=
  b ← system;
  match volumes b !! name p with
  | Some _ => mret (Some (name p))
  | None => mret None
  end.

Definition get_size (volume : string) : M Z :=
  b ← system;
  match volumes b !! volume with
  | Some d => mret (dataset_size d)
  | None => raise "ObjectNotFound"
  end.

(** [main] calls [create_volume] only after it has found the pool; the
    SDK's refusal of [pool=None] is the [None] branch. *)
Definition create_volume (p : Params) : M unit :=
  pool ← get_pool p;
  match pool with
  | Some pool => remote (volumes_create (name p) pool)
  | None => raise "TypeError"
  end ;;
  (if truthy (size p) then
     c ← Capacity (text (size p));
     let size := Capacity.roundup c (64 * Capacity.KiB) in
     remote (volume_update_size (name p) size)
   else mret ()) ;;
  exit_json true.

Definition update_volume (p : Params) (volume : string) : M unit :=
  let changed := false in
  changed ← (if truthy (size p) then
               c ← Capacity (text (size p));
               let size := Capacity.roundup c (64 * Capacity.KiB) in
               current ← get_size volume;
               if bool_decide (current ≠ size) then
                 remote (volume_update_size volume size) ;;
                 mret true
               else mret changed
             else mret changed);
  exit_json changed.

Definition delete_volume (volume : string) : M unit :=
  remote (volume_delete volume) ;;
  exit_json true.

Definition main (p : Params) : M unit :=
  check_capacity (size p)
    "size (Physical Capacity) should be defined in MB, GB, TB or PB units" ;;
  let state := state p in
  pool ← get_pool p;
  volume ← get_volume p;
  match pool with
  | None => fail_json ("Pool " +:+ InfiniVol.pool p +:+ " not found")
  | Some _ => mret ()
  end ;;
  match state, volume with
  | present, None => create_volume p
  | present, Some volume => update_volume p volume
  | absent, Some volume => delete_volume volume
  | absent, None => exit_json false
  end.

End InfiniVol.

(* ===================================================================== *)
(** * infini_fs *)
(* ===================================================================== *)

Module InfiniFs.

Record Params := {
  name : string;
  state : State;
  pool : string;
  size : option string
}.

Definition get_pool (p : Params) : M (option string) :=
  b ← system;
  match pools b !! pool p with
  | Some _ => mret (Some (pool p))
  | None => mret None
  end.

Definition get_filesystem (p : Params) : M (option string) :=
  b ← system;
  match filesystems b !! name p with
  | Some _ => mret (Some (name p))
  | None => mret None
  end.

Definition get_size (filesystem : string) : M Z :=
  b ← system;
  match filesystems b !! filesystem with
  | Some d => mret (dataset_size d)
  | None => raise "ObjectNotFound"
  end.

Definition create_filesystem (p : Params) : M unit :=
  pool ← get_pool p;
  match pool with
  | Some pool => remote (filesystems_create (name p) pool)
  | None => raise "TypeError"
  end ;;
  (if truthy (size p) then
     c ← Capacity (text (size p));
     let size := Capacity.roundup c (64 * Capacity.KiB) in
     remote (filesystem_update_size (name p) size)
   else mret ()) ;;
  exit_json true.

Definition update_filesystem (p : Params) (filesystem : string) : M unit :=
  let changed := false in
  changed ← (if truthy (size p) then
               c ← Capacity (text (size p));
               let size := Capacity.roundup c (64 * Capacity.KiB) in
               current ← get_size filesystem;
               if bool_decide (current ≠ size) then
                 remote (filesystem_update_size filesystem size) ;;
                 mret true
               else mret changed
             else mret changed);
  exit_json changed.

Definition delete_filesystem (filesystem : string) : M unit :=
  remote (filesystem_delete filesystem) ;;
  exit_json true.

Definition main (p : Params) : M unit :=
  check_capacity (size p)
    "size (Physical Capacity) should be defined in MB, GB, TB or PB units" ;;
  let state := state p in
  pool ← get_pool p;
  filesystem ← get_filesystem p;
  match pool with
  | None => fail_json ("Pool " +:+ InfiniFs.pool p +:+ " not found")
  | Some _ => mret ()
  end ;;
  match state, filesystem with
  | present, None => create_filesystem p
  | present, Some filesystem => update_filesystem p filesystem
  | absent, Some filesystem => delete_filesystem filesystem
  | absent, None => exit_json false
  end.

End InfiniFs.

(* ===================================================================== *)
(** * infini_export *)
(* ===================================================================== *)

(** A value of a permission dictionary. *)
Inductive value :=
| Str (s : string)
| Bool (b : bool).

Global Instance value_eq_dec : EqDecision value.
Proof. solve_decision. Defined.

Global Instance value_countable : Countable value :=
  inj_countable'
    (λ v, match v with Str s => inl s | Bool b => inr b end)
    (λ x, match x with inl s => Str s | inr b => Bool b end)
    (λ v, match v with Str s => eq_refl | Bool b => eq_refl end).

Module InfiniExport.

Record Params := {
  name : string;
  state : State;
  filesystem : string;
  client_list : option (list Permission)
}.

(** [d.items()] of a permission dictionary. *)
Definition items (d : Permission) : list (string * value) :=
  [ ("client"%string, Str (Munch.client d));
    ("access"%string, Str (Munch.access d));
    ("no_root_squash"%string, Bool (Munch.no_root_squash d)) ].

Definition transform (d : Permission) : gset (string * value) :=
  list_to_set (items d).

(** [set(map(transform, l))]. *)
Definition permission_set (l : list Permission) : gset (gset (string * value)) :=
  list_to_set (transform <$> l).

Definition get_filesystem (p : Params) : M (option string) :=
  b ← system;
  match filesystems b !! filesystem p with
  | Some _ => mret (Some (filesystem p))
  | None => mret None
  end.

(** The first export of the listing with the wanted path. *)
Definition get_export (p : Params) : M (option nat) :=
  b ← system;
  mret (fst <$> list_find (λ e, export_path e = name p) (exports b)).

Definition get_permissions (export : nat) : M (list Permission) :=
  b ← system;
  match exports b !! export with
  | Some e => mret (permissions e)
  | None => raise "ObjectNotFound"
  end.

(** [system.exports.create]: the new export object is the last of the
    listing. *)
Definition create (path filesystem : string) : M nat :=
  b ← system;
  remote (exports_create path filesystem) ;;
  mret (length (exports b)).

Definition update_export (p : Params) (export : option nat) (filesystem : string) : M unit :=
  let changed := false in
  let name := name p in
  let client_list := client_list p in
  changed ← match export with
            | None =>
                export ← create name filesystem;
                (if truthy_list client_list then
                   remote (export_update_permissions export (default [] client_list))
                 else mret ()) ;;
                mret true
            | Some export =>
                if truthy_list client_list then
                  current ← get_permissions export;
                  if bool_decide (permission_set current
                                  ≠ permission_set (default [] client_list)) then
                    remote (export_update_permissions export (default [] client_list)) ;;
                    mret true
                  else mret changed
                else mret changed
            end;
  exit_json changed.

Definition delete_export (export : nat) : M unit :=
  remote (export_delete export) ;;
  exit_json true.

Definition main (p : Params) : M unit :=
  let state := state p in
  filesystem ← get_filesystem p;
  export ← get_export p;
  match filesystem with
  | None => fail_json ("Filesystem " +:+ InfiniExport.filesystem p +:+ " not found")
  | Some filesystem =>
      match state, export with
      | present, _ => update_export p export filesystem
      | absent, Some export => delete_export export
      | absent, None => exit_json false
      end
  end.

End InfiniExport.

(* ===================================================================== *)
(** * infini_export_client *)
(* ===================================================================== *)

Module InfiniExportClient.

Record Params := {
  client : string;
  access_mode : string;
  no_root_squash : bool;
  state : State;
  export : string
}.

(** [system.exports.get(export_path=...)] answers with the export when
    exactly one has the path and raises otherwise; [get_export] turns the
    exception into [fail_json]. *)
Definition get_export (p : Params) : M nat :=
  b ← system;
  match list_find (λ e, export_path e = export p) (exports b) with
  | Some (i, _) =>
      if bool_decide (length (filter (λ e, export_path e = export p) (exports b)) = 1%nat)
      then mret i
      else fail_json ("Export with export path " +:+ export p +:+ " not found")
  | None => fail_json ("Export with export path " +:+ export p +:+ " not found")
  end.

Definition get_permissions (export : nat) : M (list Permission) :=
  b ← system;
  match exports b !! export with
  | Some e => mret (permissions e)
  | None => raise "ObjectNotFound"
  end.

(** The body of the loop of [update_client] on one item: the item as the
    body leaves it, and the variables [changed] and [client_not_in_list]. *)
Definition update_item (p : Params) (item : Permission) (changed client_not_in_list : bool)
  : Permission * bool * bool :=
  if bool_decide (Munch.client item = client p) then
    let client_not_in_list := false in
    let '(item, changed) :=
      if bool_decide (Munch.access item ≠ access_mode p) then
        ({| Munch.client := Munch.client item;
            Munch.access := access_mode p;
            Munch.no_root_squash := Munch.no_root_squash item |}, true)
      else (item, changed) in
    let '(item, changed) :=
      if bool_decide (Munch.no_root_squash item ≠ no_root_squash p) then
        ({| Munch.client := Munch.client item;
            Munch.access := Munch.access item;
            Munch.no_root_squash := no_root_squash p |}, true)
      else (item, changed) in
    (item, changed, client_not_in_list)
  else (item, changed, client_not_in_list).

(** The first loop of [update_client]: it rewrites items in place and
    never changes the length of the list. *)
Fixpoint update_items (p : Params) (client_list : list Permission)
    (changed client_not_in_list : bool) : list Permission * bool * bool :=
  match client_list with
  | [] => ([], changed, client_not_in_list)
  | item :: rest =>
      let '(item, changed, client_not_in_list) :=
        update_item p item changed client_not_in_list in
      let '(rest, changed, client_not_in_list) :=
        update_items p rest changed client_not_in_list in
      (item :: rest, changed, client_not_in_list)
  end.

Definition update_client (p : Params) (export : nat) : M unit :=
  let changed := false in
  client_list ← get_permissions export;
  let client_not_in_list := true in
  let '(client_list, changed, client_not_in_list) :=
    update_items p client_list changed client_not_in_list in
  let '(client_list, changed) :=
    if client_not_in_list then
      (client_list ++ [ {| Munch.client := client p;
                           Munch.access := access_mode p;
                           Munch.no_root_squash := no_root_squash p |} ], true)
    else (client_list, changed) in
  (if changed then remote (export_update_permissions export client_list)
   else mret ()) ;;
  exit_json changed.

(** The loop of [delete_client],
    [for index, item in enumerate(client_list): ... del client_list[index]],
    step by step: the list iterator keeps a position, yields the item at
    that position of the list as it is now, and stops when the position
    is past the end; [enumerate] counts the yielded items, so [index] is
    that position.  [fuel] bounds the number of iterations. *)
Fixpoint delete_loop (fuel : nat) (client : string) (index : nat)
    (client_list : list Permission) (changed : bool) : list Permission * bool :=
  match fuel with
  | O => (client_list, changed)
  | S fuel =>
      match client_list !! index with
      | None => (client_list, changed)
      | Some item =>
          if bool_decide (Munch.client item = client) then
            delete_loop fuel client (S index) (delete index client_list) true
          else
            delete_loop fuel client (S index) client_list changed
      end
  end.

Definition delete_client (p : Params) (export : nat) : M unit :=
  let changed := false in
  let client := client p in
  client_list ← get_permissions export;
  let '(client_list, changed) :=
    delete_loop (length client_list) client 0 client_list changed in
  (if changed then remote (export_update_permissions export client_list)
   else mret ()) ;;
  exit_json changed.

Definition main (p : Params) : M unit :=
  export ← get_export p;
  match state p with
  | present => update_client p export
  | absent => delete_client p export
  end.

End InfiniExportClient.

(* ===================================================================== *)
(** * infini_host *)
(* ===================================================================== *)

Module InfiniHost.

Record Params := {
  name : string;
  state : State;
  wwns : option (list string);
  volume : option string
}.

(** The first host of the listing with the wanted name. *)
Definition get_host (p : Params) : M (option nat) :=
  b ← system;
  mret (fst <$> list_find (λ h, host_name h = name p) (hosts b)).

(** [system.volumes.get(name=...)], which raises when there is no such
    volume. *)
Definition volumes_get (name : string) : M string :=
  b ← system;
  match volumes b !! name with
  | Some _ => mret name
  | None => raise "ObjectNotFound"
  end.

Definition create (name : string) : M nat :=
  b ← system;
  remote (hosts_create name) ;;
  mret (length (hosts b)).

Definition create_host (p : Params) : M unit :=
  let changed := true in
  host ← create (name p);
  (if truthy_list (wwns p) then
     for_each (default [] (wwns p)) (λ port, remote (host_add_fc_port host port))
   else mret ()) ;;
  (if truthy (volume p) then
     v ← volumes_get (text (volume p));
     remote (host_map_volume host v)
   else mret ()) ;;
  exit_json changed.

Definition update_host (p : Params) (host : nat) : M unit :=
  let changed := false in
  let name := name p in
  exit_json changed.

Definition delete_host (host : nat) : M unit :=
  let changed := true in
  remote (host_delete host) ;;
  exit_json changed.

Definition main (p : Params) : M unit :=
  let state := state p in
  host ← get_host p;
  (if truthy (volume p) then
     b ← system;
     match volumes b !! text (volume p) with
     | Some _ => mret ()
     | None => fail_json ("Volume " +:+ text (volume p) +:+ " not found")
     end
   else mret ()) ;;
  match host, state with
  | Some host, present => update_host p host
  | Some host, absent => delete_host host
  | None, absent => exit_json false
  | None, present => create_host p
  end.

End InfiniHost.

(* ===================================================================== *)
(** * Invocations *)
(* ===================================================================== *)

(** An invocation of one of the modules that manage a whole resource. *)
Inductive invocation :=
| infini_pool (p : InfiniPool.Params)
| infini_vol (p : InfiniVol.Params)
| infini_fs (p : InfiniFs.Params)
| infini_export (p : InfiniExport.Params)
| infini_host (p : InfiniHost.Params).

Definition main_of (i : invocation) : M unit :=
  match i with
  | infini_pool p => InfiniPool.main p
  | infini_vol p => InfiniVol.main p
  | infini_fs p => InfiniFs.main p
  | infini_export p => InfiniExport.main p
  | infini_host p => InfiniHost.main p
  end.

Definition state_of (i : invocation) : State :=
  match i with
  | infini_pool p => InfiniPool.state p
  | infini_vol p => InfiniVol.state p
  | infini_fs p => InfiniFs.state p
  | infini_export p => InfiniExport.state p
  | infini_host p => InfiniHost.state p
  end.

(** The array has the resource the invocation names. *)
Definition exists_on (b : InfiniBox) (i : invocation) : Prop :=
  match i with
  | infini_pool p => is_Some (pools b !! InfiniPool.name p)
  | infini_vol p => is_Some (volumes b !! InfiniVol.name p)
  | infini_fs p => is_Some (filesystems b !! InfiniFs.name p)
  | infini_export p => Exists (λ e, export_path e = InfiniExport.name p) (exports b)
  | infini_host p => Exists (λ h, host_name h = InfiniHost.name p) (hosts b)
  end.

(** A capacity option that passes the check at the start of [main]. *)
Definition acceptable (o : option string) : Prop :=
  truthy o = true → is_Some (Capacity.parse (text o)).

(** What an invocation needs besides the resource itself: well-formed
    capacities, and the pool, filesystem or volume it refers to. *)
Definition preconditions (b : InfiniBox) (i : invocation) : Prop :=
  match i with
  | infini_pool p => acceptable (InfiniPool.size p) ∧ acceptable (InfiniPool.vsize p)
  | infini_vol p => acceptable (InfiniVol.size p) ∧ is_Some (pools b !! InfiniVol.pool p)
  | infini_fs p => acceptable (InfiniFs.size p) ∧ is_Some (pools b !! InfiniFs.pool p)
  | infini_export p => is_Some (filesystems b !! InfiniExport.filesystem p)
  | infini_host p =>
      truthy (InfiniHost.volume p) = true →
      is_Some (volumes b !! text (InfiniHost.volume p))
  end.

(** The run that reports [changed=false] and leaves the array alone. *)
Definition noop (b : InfiniBox) : Run :=
  {| ended := Some (Changed false); array := b; issued := [] |}.

(** The run that fails with [msg] and leaves the array alone. *)
Definition failure (b : InfiniBox) (msg : string) : Run :=
  {| ended := Some (Failed msg); array := b; issued := [] |}.

(** ** Arrays to run the modules against *)

(** An array that records pool capacities rounded up to the boundary of
    [update_pool], creates 1 GiB volumes and opens new exports to every
    client. *)
Definition rounding : Firmware :=
  {| pool_capacity := λ c, Capacity.roundup c InfiniPool.boundary;
     new_dataset_size := Capacity.GiB;
     new_export_permissions :=
       [ {| Munch.client := "*"; Munch.access := "RW"; Munch.no_root_squash := true |} ] |}.

(** An array that records what it is given and nothing else. *)
Definition verbatim : Firmware :=
  {| pool_capacity := λ c, c;
     new_dataset_size := 0;
     new_export_permissions := [] |}.

Definition empty_box (fw : Firmware) : InfiniBox :=
  {| firmware := fw; pools := ∅; volumes := ∅; filesystems := ∅;
     exports := []; hosts := [] |}.

(** An array with the pool [bar] and, in it, the filesystem [fs01]
    exported as [/data01]. *)
Definition small_box (fw : Firmware) : InfiniBox :=
  {| firmware := fw;
     pools := {[ "bar"%string := {| physical_capacity := Capacity.TB;
                                    virtual_capacity := Capacity.TB;
                                    ssd_enabled := true |} ]};
     volumes := ∅;
     filesystems := {[ "fs01"%string := {| dataset_pool := "bar";
                                           dataset_size := Capacity.GiB |} ]};
     exports := [ {| export_path := "/data01"; export_filesystem := "fs01";
                     permissions := new_export_permissions fw |} ];
     hosts := [] |}.

(** ** The loops of infini_export_client, by recursion on the list *)

(** What the loop of [delete_client] leaves of a list: a matching item
    goes, and the item that moves into its place is stepped over. *)
Fixpoint delete_skipping (client : string) (l : list Permission) : list Permission :=
  match l with
  | [] => []
  | item :: rest =>
      if bool_decide (Munch.client item = client) then
        match rest with
        | [] => []
        | next :: rest' => next :: delete_skipping client rest'
        end
      else item :: delete_skipping client rest
  end.

(** Some item of the list has the client. *)
Definition has_client (client : string) (l : list Permission) : bool :=
  existsb (λ item, bool_decide (Munch.client item = client)) l.

(** Two neighbours of the list both have the client. *)
Fixpoint neighbours (client : string) (l : list Permission) : bool :=
  match l with
  | [] => false
  | item :: rest =>
      (bool_decide (Munch.client item = client)
       && match rest with
          | [] => false
          | next :: _ => bool_decide (Munch.client next = client)
          end)
      || neighbours client rest
  end.

(** What the loop of [update_client] makes of one item. *)
Definition upsert (p : InfiniExportClient.Params) (item : Permission) : Permission :=
  if bool_decide (Munch.client item = InfiniExportClient.client p) then
    {| Munch.client := Munch.client item;
       Munch.access := InfiniExportClient.access_mode p;
       Munch.no_root_squash := InfiniExportClient.no_root_squash p |}
  else item.

(** The item has the client of the invocation and differs from what is
    asked in its access mode or in its squash flag. *)
Definition stale (p : InfiniExportClient.Params) (item : Permission) : bool :=
  bool_decide (Munch.client item = InfiniExportClient.client p)
  && (bool_decide (Munch.access item ≠ InfiniExportClient.access_mode p)
      || bool_decide (Munch.no_root_squash item ≠ InfiniExportClient.no_root_squash p)).

(** An array with one export, [/data], and the permission list [l]. *)
Definition export_box (l : list Permission) : InfiniBox :=
  {| firmware := verbatim; pools := ∅; volumes := ∅;
     filesystems := {[ "fs01"%string := {| dataset_pool := "bar";
                                           dataset_size := Capacity.GiB |} ]};
     exports := [ {| export_path := "/data"; export_filesystem := "fs01";
                     permissions := l |} ];
     hosts := [] |}.

Definition entry (c a : string) (s : bool) : Permission :=
  {| Munch.client := c; Munch.access := a; Munch.no_root_squash := s |}.

(** ** What update_pool compares *)

(** The capacity [update_pool] wants for an option: none when the option
    is not given, else its value rounded up to the boundary. *)
Definition wanted (o : option string) : option Z :=
  if truthy o then
    (λ c, Capacity.roundup c InfiniPool.boundary) <$> Capacity.parse (text o)
  else None.

(** The change flag of a capacity field: the option is given and the
    field is not the wanted capacity. *)
Definition differs (o : option string) (current : Z) : bool :=
  match wanted o with
  | Some c => bool_decide (current ≠ c)
  | None => false
  end.

Definition apply_calls (cs : list call) (b : InfiniBox) : InfiniBox :=
  foldl (λ b c, apply_call c b) b cs.

(** The calls of [update_pool] for the three change flags. *)
Definition pool_updates (p : InfiniPool.Params) (pool : string) (fp fv fs : bool) : list call :=
  (if fp then [pool_update_physical_capacity pool (default 0 (wanted (InfiniPool.size p)))]
   else [])
  ++ (if fv then [pool_update_virtual_capacity pool (default 0 (wanted (InfiniPool.vsize p)))]
      else [])
  ++ (if fs then [pool_update_ssd_enabled pool (InfiniPool.ssd_cache p)] else []).

(** ** What create_pool asks for *)

(** The capacities of the create call: the given ones, the physical one
    for a virtual one that is not given, 1TB for a physical one that is
    not given. *)
Definition initial_physical (p : InfiniPool.Params) : option Z :=
  if truthy (InfiniPool.size p) then Capacity.parse (text (InfiniPool.size p))
  else Capacity.parse "1TB".

Definition initial_virtual (p : InfiniPool.Params) : option Z :=
  if truthy (InfiniPool.vsize p) then Capacity.parse (text (InfiniPool.vsize p))
  else initial_physical p.

Definition pool_creation (p : InfiniPool.Params) (physical virtual : Z) : list call :=
  pools_create (InfiniPool.name p) physical virtual
  :: (if InfiniPool.ssd_cache p then []
      else [pool_update_ssd_enabled (InfiniPool.name p) false]).

(** The invocation [name=n size=10TB] of the documentation, with either
    setting of [ssd_cache]. *)
Definition size_10TB (n : string) (ssd : bool) : InfiniPool.Params :=
  {| InfiniPool.name := n; InfiniPool.state := present;
     InfiniPool.size := Some "10TB"%string; InfiniPool.vsize := None;
     InfiniPool.ssd_cache := ssd |}.

(** The invocation [name=n vsize=300TB]. *)
Definition vsize_300TB (n : string) (ssd : bool) : InfiniPool.Params :=
  {| InfiniPool.name := n; InfiniPool.state := present;
     InfiniPool.size := None; InfiniPool.vsize := Some "300TB"%string;
     InfiniPool.ssd_cache := ssd |}.

(** An array with the pool [foo] at physical = virtual = 10TB. *)
Definition pool_box (fw : Firmware) : InfiniBox :=
  {| firmware := fw;
     pools := {[ "foo"%string := {| physical_capacity := 10 * Capacity.TB;
                                    virtual_capacity := 10 * Capacity.TB;
                                    ssd_enabled := true |} ]};
     volumes := ∅; filesystems := ∅; exports := []; hosts := [] |}.

(* ===================================================================== *)
(** * Further vocabulary for the properties *)
(* ===================================================================== *)

(** The call acts on the pool [n] and on nothing else. *)
Definition pool_call (n : string) (c : call) : Prop :=
  match c with
  | pools_create n' _ _
  | pool_update_physical_capacity n' _
  | pool_update_virtual_capacity n' _
  | pool_update_ssd_enabled n' _
  | pool_delete n' => n' = n
  | _ => False
  end.

(** The size [create_volume] and [update_volume] set for an option: none
    when the option is not given, else its value rounded up to 64 KiB. *)
Definition wanted_size (o : option string) : option Z :=
  if truthy o then
    (λ c, Capacity.roundup c (64 * Capacity.KiB)) <$> Capacity.parse (text o)
  else None.

(** The call acts on the volume [n] and on nothing else, and a size it
    sets is on a 64 KiB boundary. *)
Definition volume_call (n : string) (c : call) : Prop :=
  match c with
  | volumes_create n' _ | volume_delete n' => n' = n
  | volume_update_size n' s => n' = n ∧ s mod (64 * Capacity.KiB) = 0
  | _ => False
  end.

(** The calls of [create_volume]. *)
Definition volume_creation (p : InfiniVol.Params) : list call :=
  volumes_create (InfiniVol.name p) (InfiniVol.pool p)
  :: match wanted_size (InfiniVol.size p) with
     | Some s => [volume_update_size (InfiniVol.name p) s]
     | None => []
     end.

(** The calls of [update_volume] on a volume of size [current]. *)
Definition volume_update (p : InfiniVol.Params) (current : Z) : list call :=
  match wanted_size (InfiniVol.size p) with
  | Some s => if bool_decide (current ≠ s)
              then [volume_update_size (InfiniVol.name p) s] else []
  | None => []
  end.

(** ** infini_fs beside infini_vol *)

(** The array with its volumes and its filesystems exchanged. *)
Definition mirror_box (b : InfiniBox) : InfiniBox :=
  {| firmware := firmware b; pools := pools b;
     volumes := filesystems b; filesystems := volumes b;
     exports := exports b; hosts := hosts b |}.

(** The volume call for a filesystem call and the other way round. *)
Definition mirror_call (c : call) : call :=
  match c with
  | volumes_create n p => filesystems_create n p
  | volume_update_size n s => filesystem_update_size n s
  | volume_delete n => filesystem_delete n
  | filesystems_create n p => volumes_create n p
  | filesystem_update_size n s => volume_update_size n s
  | filesystem_delete n => volume_delete n
  | c => c
  end.

Definition mirror_run (r : Run) : Run :=
  {| ended := ended r; array := mirror_box (array r);
     issued := mirror_call <$> issued r |}.

(** The options of a volume as options of a filesystem. *)
Definition as_filesystem (p : InfiniVol.Params) : InfiniFs.Params :=
  {| InfiniFs.name := InfiniVol.name p; InfiniFs.state := InfiniVol.state p;
     InfiniFs.pool := InfiniVol.pool p; InfiniFs.size := InfiniVol.size p |}.

Definition as_volume (p : InfiniFs.Params) : InfiniVol.Params :=
  {| InfiniVol.name := InfiniFs.name p; InfiniVol.state := InfiniFs.state p;
     InfiniVol.pool := InfiniFs.pool p; InfiniVol.size := InfiniFs.size p |}.

(** ** Calls of infini_export *)

(** The calls of [update_export] for an export that is not there. *)
Definition export_creation (p : InfiniExport.Params) (b : InfiniBox) : list call :=
  exports_create (InfiniExport.name p) (InfiniExport.filesystem p)
  :: (if truthy_list (InfiniExport.client_list p)
      then [export_update_permissions (length (exports b))
              (default [] (InfiniExport.client_list p))]
      else []).

(** The two lists have the same entries, whatever their order and
    however often an entry is given. *)
Definition same_entries (l1 l2 : list Permission) : Prop :=
  ∀ d, d ∈ l1 ↔ d ∈ l2.

(** ** Lists of infini_export_client *)

(** The entry [update_client] appends for a client that is not listed. *)
Definition new_entry (p : InfiniExportClient.Params) : Permission :=
  {| Munch.client := InfiniExportClient.client p;
     Munch.access := InfiniExportClient.access_mode p;
     Munch.no_root_squash := InfiniExportClient.no_root_squash p |}.

(** The list [update_client] arrives at. *)
Definition upserted (p : InfiniExportClient.Params) (l : list Permission) : list Permission :=
  (upsert p <$> l)
  ++ (if has_client (InfiniExportClient.client p) l then [] else [new_entry p]).

(** ** Calls of infini_host *)

(** The host call acts on the host at position [i] and keeps its name. *)
Definition port_or_map_call (i : nat) (c : call) : Prop :=
  match c with
  | host_add_fc_port i' _ | host_map_volume i' _ => i' = i
  | _ => False
  end.

(** The calls of [create_host] on an array with [n] hosts. *)
Definition host_creation (p : InfiniHost.Params) (n : nat) : list call :=
  hosts_create (InfiniHost.name p)
  :: (host_add_fc_port n <$> default [] (InfiniHost.wwns p))
  ++ (if truthy (InfiniHost.volume p)
      then [host_map_volume n (text (InfiniHost.volume p))] else []).

(** The host [create_host] makes. *)
Definition created_host (p : InfiniHost.Params) : Host :=
  {| host_name := InfiniHost.name p;
     fc_ports := default [] (InfiniHost.wwns p);
     mapped_volumes := if truthy (InfiniHost.volume p)
                       then [text (InfiniHost.volume p)] else [] |}.

(** The volume the invocation names, when it names one, is on the
    array. *)
Definition volume_known (p : InfiniHost.Params) (b : InfiniBox) : Prop :=
  truthy (InfiniHost.volume p) = true →
  is_Some (volumes b !! text (InfiniHost.volume p)).

(* ===================================================================== *)
(** * get_system *)
(* ===================================================================== *)

(** What [get_system] reads besides the options: the two environment
    variables and whether the configuration file of the SDK is there. *)
Record Environment := {
  INFINIBOX_USER : option string;
  INFINIBOX_PASSWORD : option string;
  infinisdk_ini : bool
}.

(** What the session is opened with: [InfiniBox(box, auth=(user, password))]
    or [InfiniBox(box)], which makes the SDK read its file. *)
Inductive credentials :=
| auth (user password : string)
| from_ini.

(** The branches of [get_system] before the login; [None] is the branch
    that fails. *)
Definition chosen_credentials (user password : option string) (env : Environment)
  : option credentials :=
  if truthy user && truthy password then
    Some (auth (text user) (text password))
  else if truthy (INFINIBOX_USER env) && truthy (INFINIBOX_PASSWORD env) then
    Some (auth (text (INFINIBOX_USER env)) (text (INFINIBOX_PASSWORD env)))
  else if infinisdk_ini env then
    Some from_ini
  else None.

(** [get_system]; [login c] tells whether [system.login()] goes through
    with the credentials [c]. *)
Definition get_system (user password : option string) (env : Environment)
    (login : credentials → bool) : outcome + credentials :=
  match chosen_credentials user password env with
  | None =>
      inl (Failed "You must set INFINIBOX_USER and INFINIBOX_PASSWORD environment variables or set username/password module arguments")
  | Some c =>
      if login c then inr c
      else inl (Failed "Infinibox authentication failed. Check your credentials")
  end.

(* ===================================================================== *)
(** * Properties *)
(* ===================================================================== *)

(** ** Capacity rounding *)

Lemma roundup_spec (x a : Z) :
  0 < a → ∃ r, 0 ≤ r < a ∧ Capacity.roundup x a = x + r ∧ (- x) / a * a = - x - r.
Proof.
  intros Ha. unfold Capacity.roundup, Capacity.ceil_div.
  exists ((- x) mod a).
  pose proof (Z.mod_pos_bound (- x) a Ha) as Hb.
  pose proof (Z.div_mod (- x) a ltac:(lia)) as Hd.
  repeat split; lia.
Qed.

Lemma roundup_multiple (k a : Z) : 0 < a → Capacity.roundup (k * a) a = k * a.
Proof.
  intros Ha. unfold Capacity.roundup, Capacity.ceil_div.
  replace (- (k * a)) with ((- k) * a) by lia.
  rewrite Z.div_mul by lia. lia.
Qed.

Lemma roundup_divisible (x a : Z) :
  0 < a → Capacity.roundup x a mod a = 0.
Proof. intros Ha. unfold Capacity.roundup. apply Z.mod_mul. lia. Qed.

(** C6.  For every capacity [x] and alignment [a > 0], [roundup x a] is a
    multiple of [a], it is the smallest multiple of [a] that is not below
    [x], and rounding it up again leaves it as it is. *)
Theorem roundup_least_multiple_idempotent (x a : Z) :
  0 < a →
  Capacity.roundup x a mod a = 0
  ∧ x ≤ Capacity.roundup x a
  ∧ (∀ m, m mod a = 0 → x ≤ m → Capacity.roundup x a ≤ m)
  ∧ Capacity.roundup (Capacity.roundup x a) a = Capacity.roundup x a.
Proof.
  intros Ha.
  assert (Hmul : Capacity.roundup x a = Capacity.ceil_div x a * a) by reflexivity.
  destruct (roundup_spec x a Ha) as (r & Hr & Hx & _).
  split; [| split; [| split]].
  - rewrite Hmul. apply Z.mod_mul. lia.
  - lia.
  - intros m Hm Hle.
    apply Z.mod_divide in Hm; [| lia]. destruct Hm as [k ->].
    rewrite Hmul in *. set (q := Capacity.ceil_div x a) in *.
    destruct (Z_lt_le_dec (k * a) (q * a)) as [Hlt | ?]; [| lia].
    assert (k < q) by nia. assert (k * a + a ≤ q * a) by nia. lia.
  - rewrite Hmul at 1. apply roundup_multiple, Ha.
Qed.

Lemma roundup_least_multiple_idempotent_witness :
  Capacity.roundup 65537 (64 * Capacity.KiB) mod (64 * Capacity.KiB) = 0
  ∧ 65537 ≤ Capacity.roundup 65537 (64 * Capacity.KiB)
  ∧ (∀ m, m mod (64 * Capacity.KiB) = 0 → 65537 ≤ m →
          Capacity.roundup 65537 (64 * Capacity.KiB) ≤ m)
  ∧ Capacity.roundup (Capacity.roundup 65537 (64 * Capacity.KiB)) (64 * Capacity.KiB)
    = Capacity.roundup 65537 (64 * Capacity.KiB).
Proof.
  apply (roundup_least_multiple_idempotent 65537 (64 * Capacity.KiB)).
  reflexivity.
Defined.

(** ** Running module code *)

Ltac unfold_run :=
  unfold run, mbind, M_bind, mret, M_ret, system, remote, exit_json, fail_json, raise.

Lemma check_capacity_acceptable o msg w :
  acceptable o → check_capacity o msg w = (Return (), w).
Proof.
  unfold acceptable, check_capacity. intros H.
  destruct (truthy o); [| reflexivity].
  destruct H as [c ->]; reflexivity.
Qed.

Lemma check_capacity_cases o msg w :
  check_capacity o msg w = (Return (), w)
  ∨ check_capacity o msg w = (Stop (Failed msg), w).
Proof.
  unfold check_capacity.
  destruct (truthy o); [| by left].
  destruct (Capacity.parse (text o)); [by left | by right].
Qed.

Lemma list_find_absent {A} (P : A → Prop) `{∀ x, Decision (P x)} (l : list A) :
  ¬ Exists P l → list_find P l = None.
Proof.
  intros Hn. apply list_find_None, Forall_forall. intros x Hx HP.
  apply Hn, Exists_exists. eauto.
Qed.

(** ** Absent and not there *)

(** C7.  For a pool, volume, filesystem, export or host invocation with
    [state=absent], when the array has no resource of that name or path
    and the other preconditions of the invocation hold, the module
    reports [changed=false], issues no changing call and leaves the array
    as it was. *)
Theorem absent_missing_noop (i : invocation) (b : InfiniBox) :
  state_of i = absent →
  ¬ exists_on b i →
  preconditions b i →
  run (main_of i) b = noop b.
Proof.
  destruct i as [p | p | p | p | p]; simpl; intros Hs Hn Hpre.
  - destruct Hpre as [Hsz Hvz].
    apply eq_None_not_Some in Hn.
    unfold InfiniPool.main, InfiniPool.get_pool. unfold_run.
    rewrite !check_capacity_acceptable by assumption. simpl.
    rewrite Hn, Hs. reflexivity.
  - destruct Hpre as [Hsz [q Hq]].
    apply eq_None_not_Some in Hn.
    unfold InfiniVol.main, InfiniVol.get_pool, InfiniVol.get_volume. unfold_run.
    rewrite !check_capacity_acceptable by assumption. simpl.
    rewrite Hq. simpl. rewrite Hn, Hs. reflexivity.
  - destruct Hpre as [Hsz [q Hq]].
    apply eq_None_not_Some in Hn.
    unfold InfiniFs.main, InfiniFs.get_pool, InfiniFs.get_filesystem. unfold_run.
    rewrite !check_capacity_acceptable by assumption. simpl.
    rewrite Hq. simpl. rewrite Hn, Hs. reflexivity.
  - destruct Hpre as [q Hq].
    unfold InfiniExport.main, InfiniExport.get_filesystem, InfiniExport.get_export.
    unfold_run. simpl.
    rewrite Hq. simpl. rewrite list_find_absent by exact Hn. rewrite Hs. reflexivity.
  - unfold InfiniHost.main, InfiniHost.get_host. unfold_run. simpl.
    rewrite list_find_absent by exact Hn. rewrite Hs. simpl.
    destruct (truthy (InfiniHost.volume p)); [| reflexivity].
    destruct Hpre as [q Hq]; [done |]. simpl. rewrite Hq. reflexivity.
Qed.

Lemma absent_missing_noop_witness :
  let b := small_box rounding in
  run (InfiniPool.main
         {| InfiniPool.name := "foo"; InfiniPool.state := absent;
            InfiniPool.size := Some "10TB"%string; InfiniPool.vsize := None;
            InfiniPool.ssd_cache := true |}) b = noop b
  ∧ run (InfiniVol.main
           {| InfiniVol.name := "foo"; InfiniVol.state := absent;
              InfiniVol.pool := "bar"; InfiniVol.size := Some "1TB"%string |}) b = noop b
  ∧ run (InfiniFs.main
           {| InfiniFs.name := "foo"; InfiniFs.state := absent;
              InfiniFs.pool := "bar"; InfiniFs.size := None |}) b = noop b
  ∧ run (InfiniExport.main
           {| InfiniExport.name := "/data02"; InfiniExport.state := absent;
              InfiniExport.filesystem := "fs01"; InfiniExport.client_list := None |}) b
    = noop b
  ∧ run (InfiniHost.main
           {| InfiniHost.name := "foo.example.com"; InfiniHost.state := absent;
              InfiniHost.wwns := None; InfiniHost.volume := None |}) b = noop b.
Proof.
  intros b. split; [| split; [| split; [| split]]].
  - apply (absent_missing_noop (infini_pool _) b); [reflexivity | |].
    + simpl. intros [q Hq]. vm_compute in Hq. discriminate Hq.
    + split; [intros _; vm_compute; eauto | intros Hf; discriminate Hf].
  - apply (absent_missing_noop (infini_vol _) b); [reflexivity | |].
    + simpl. intros [q Hq]. vm_compute in Hq. discriminate Hq.
    + split; [intros _ |]; vm_compute; eauto.
  - apply (absent_missing_noop (infini_fs _) b); [reflexivity | |].
    + simpl. intros [q Hq]. vm_compute in Hq. discriminate Hq.
    + split; [intros Hf; discriminate Hf |]; vm_compute; eauto.
  - apply (absent_missing_noop (infini_export _) b); [reflexivity | |].
    + simpl. intros Hex. apply Exists_exists in Hex as (e & He & Hp).
      apply list_elem_of_singleton in He. subst e. discriminate Hp.
    + vm_compute. eauto.
  - apply (absent_missing_noop (infini_host _) b); [reflexivity | |].
    + simpl. intros Hex. apply Exists_nil in Hex. exact Hex.
    + simpl. intros Hf. discriminate Hf.
Defined.

(** ** Missing parents *)

Lemma check_capacity_returns o msg w :
  check_capacity o msg w = (Return (), w) → acceptable o.
Proof.
  unfold check_capacity, acceptable. intros Hc Ht. rewrite Ht in Hc.
  destruct (Capacity.parse (text o)); [eauto | discriminate Hc].
Qed.

Lemma vol_missing_pool (p : InfiniVol.Params) (b : InfiniBox) :
  pools b !! InfiniVol.pool p = None →
  (∃ msg, run (InfiniVol.main p) b = failure b msg)
  ∧ (acceptable (InfiniVol.size p) →
     run (InfiniVol.main p) b
     = failure b ("Pool " +:+ InfiniVol.pool p +:+ " not found")).
Proof.
  intros Hp.
  assert (Hok : acceptable (InfiniVol.size p) →
    run (InfiniVol.main p) b
    = failure b ("Pool " +:+ InfiniVol.pool p +:+ " not found")).
  { intros Hacc.
    unfold InfiniVol.main, InfiniVol.get_pool, InfiniVol.get_volume. unfold_run.
    rewrite check_capacity_acceptable by exact Hacc.
    simpl. rewrite Hp. simpl.
    destruct (volumes b !! InfiniVol.name p); reflexivity. }
  split; [| exact Hok].
  destruct (check_capacity_cases (InfiniVol.size p)
    "size (Physical Capacity) should be defined in MB, GB, TB or PB units"
    {| box := b; calls := [] |}) as [Hc | Hc].
  - eexists. apply Hok. eapply check_capacity_returns, Hc.
  - eexists. unfold InfiniVol.main. unfold_run. rewrite Hc. reflexivity.
Qed.

Lemma fs_missing_pool (p : InfiniFs.Params) (b : InfiniBox) :
  pools b !! InfiniFs.pool p = None →
  (∃ msg, run (InfiniFs.main p) b = failure b msg)
  ∧ (acceptable (InfiniFs.size p) →
     run (InfiniFs.main p) b
     = failure b ("Pool " +:+ InfiniFs.pool p +:+ " not found")).
Proof.
  intros Hp.
  assert (Hok : acceptable (InfiniFs.size p) →
    run (InfiniFs.main p) b
    = failure b ("Pool " +:+ InfiniFs.pool p +:+ " not found")).
  { intros Hacc.
    unfold InfiniFs.main, InfiniFs.get_pool, InfiniFs.get_filesystem. unfold_run.
    rewrite check_capacity_acceptable by exact Hacc.
    simpl. rewrite Hp. simpl.
    destruct (filesystems b !! InfiniFs.name p); reflexivity. }
  split; [| exact Hok].
  destruct (check_capacity_cases (InfiniFs.size p)
    "size (Physical Capacity) should be defined in MB, GB, TB or PB units"
    {| box := b; calls := [] |}) as [Hc | Hc].
  - eexists. apply Hok. eapply check_capacity_returns, Hc.
  - eexists. unfold InfiniFs.main. unfold_run. rewrite Hc. reflexivity.
Qed.

Lemma check_capacity_rejects o msg w :
  ¬ acceptable o → check_capacity o msg w = (Stop (Failed msg), w).
Proof.
  unfold acceptable, check_capacity. intros Hn.
  destruct (truthy o); [| exfalso; apply Hn; discriminate].
  destruct (Capacity.parse (text o)); [| reflexivity].
  exfalso. apply Hn. eauto.
Qed.

Lemma vol_malformed_size (p : InfiniVol.Params) (b : InfiniBox) :
  ¬ acceptable (InfiniVol.size p) →
  run (InfiniVol.main p) b
  = failure b "size (Physical Capacity) should be defined in MB, GB, TB or PB units".
Proof.
  intros Hn. unfold InfiniVol.main. unfold_run.
  rewrite check_capacity_rejects by exact Hn. reflexivity.
Qed.

Lemma fs_malformed_size (p : InfiniFs.Params) (b : InfiniBox) :
  ¬ acceptable (InfiniFs.size p) →
  run (InfiniFs.main p) b
  = failure b "size (Physical Capacity) should be defined in MB, GB, TB or PB units".
Proof.
  intros Hn. unfold InfiniFs.main. unfold_run.
  rewrite check_capacity_rejects by exact Hn. reflexivity.
Qed.

(** C8, as amended.  A volume or filesystem invocation whose pool is not
    on the array fails without issuing any changing call, whatever the
    state asked for (present or absent); with a size that is not given
    or is well-formed the failure is the one of the missing pool,
    [Pool <name> not found]; a size that is no capacity is rejected
    first, by the check at the start of [main], with the message of the
    size. *)
Theorem missing_pool_fatal (b : InfiniBox) :
  (∀ p : InfiniVol.Params,
     pools b !! InfiniVol.pool p = None →
     (∃ msg, run (InfiniVol.main p) b = failure b msg)
     ∧ (acceptable (InfiniVol.size p) →
        run (InfiniVol.main p) b
        = failure b ("Pool " +:+ InfiniVol.pool p +:+ " not found"))
     ∧ (¬ acceptable (InfiniVol.size p) →
        run (InfiniVol.main p) b
        = failure b
            "size (Physical Capacity) should be defined in MB, GB, TB or PB units"))
  ∧ (∀ p : InfiniFs.Params,
     pools b !! InfiniFs.pool p = None →
     (∃ msg, run (InfiniFs.main p) b = failure b msg)
     ∧ (acceptable (InfiniFs.size p) →
        run (InfiniFs.main p) b
        = failure b ("Pool " +:+ InfiniFs.pool p +:+ " not found"))
     ∧ (¬ acceptable (InfiniFs.size p) →
        run (InfiniFs.main p) b
        = failure b
            "size (Physical Capacity) should be defined in MB, GB, TB or PB units")).
Proof.
  split; intros p Hp.
  - destruct (vol_missing_pool p b Hp) as [Hfails Hpool].
    split; [exact Hfails | split; [exact Hpool | apply vol_malformed_size]].
  - destruct (fs_missing_pool p b Hp) as [Hfails Hpool].
    split; [exact Hfails | split; [exact Hpool | apply fs_malformed_size]].
Qed.

Lemma missing_pool_fatal_witness :
  let b := small_box rounding in
  run (InfiniVol.main
         {| InfiniVol.name := "foo"; InfiniVol.state := present;
            InfiniVol.pool := "baz"; InfiniVol.size := Some "1TB"%string |}) b
  = failure b "Pool baz not found"
  ∧ run (InfiniVol.main
         {| InfiniVol.name := "foo"; InfiniVol.state := absent;
            InfiniVol.pool := "baz"; InfiniVol.size := Some "1TB"%string |}) b
  = failure b "Pool baz not found"
  ∧ run (InfiniFs.main
         {| InfiniFs.name := "fs01"; InfiniFs.state := present;
            InfiniFs.pool := "baz"; InfiniFs.size := None |}) b
  = failure b "Pool baz not found"
  ∧ run (InfiniFs.main
         {| InfiniFs.name := "fs01"; InfiniFs.state := absent;
            InfiniFs.pool := "baz"; InfiniFs.size := None |}) b
  = failure b "Pool baz not found"
  ∧ run (InfiniVol.main
         {| InfiniVol.name := "foo"; InfiniVol.state := absent;
            InfiniVol.pool := "baz"; InfiniVol.size := Some "large"%string |}) b
  = failure b "size (Physical Capacity) should be defined in MB, GB, TB or PB units"
  ∧ run (InfiniFs.main
         {| InfiniFs.name := "fs01"; InfiniFs.state := present;
            InfiniFs.pool := "baz"; InfiniFs.size := Some "large"%string |}) b
  = failure b "size (Physical Capacity) should be defined in MB, GB, TB or PB units".
Proof.
  intros b.
  destruct (missing_pool_fatal b) as [Hvol Hfs].
  split; [| split; [| split; [| split; [| split]]]].
  - destruct (Hvol {| InfiniVol.name := "foo"; InfiniVol.state := present;
                      InfiniVol.pool := "baz"; InfiniVol.size := Some "1TB"%string |})
      as (_ & Hpool & _).
    + vm_compute. reflexivity.
    + apply Hpool. intros _. vm_compute. eauto.
  - destruct (Hvol {| InfiniVol.name := "foo"; InfiniVol.state := absent;
                      InfiniVol.pool := "baz"; InfiniVol.size := Some "1TB"%string |})
      as (_ & Hpool & _).
    + vm_compute. reflexivity.
    + apply Hpool. intros _. vm_compute. eauto.
  - destruct (Hfs {| InfiniFs.name := "fs01"; InfiniFs.state := present;
                     InfiniFs.pool := "baz"; InfiniFs.size := None |})
      as (_ & Hpool & _).
    + vm_compute. reflexivity.
    + apply Hpool. intros Hf. discriminate Hf.
  - destruct (Hfs {| InfiniFs.name := "fs01"; InfiniFs.state := absent;
                     InfiniFs.pool := "baz"; InfiniFs.size := None |})
      as (_ & Hpool & _).
    + vm_compute. reflexivity.
    + apply Hpool. intros Hf. discriminate Hf.
  - destruct (Hvol {| InfiniVol.name := "foo"; InfiniVol.state := absent;
                      InfiniVol.pool := "baz"; InfiniVol.size := Some "large"%string |})
      as (_ & _ & Hsize).
    + vm_compute. reflexivity.
    + apply Hsize. intros Hacc. destruct (Hacc eq_refl) as [c Hc].
      vm_compute in Hc. discriminate Hc.
  - destruct (Hfs {| InfiniFs.name := "fs01"; InfiniFs.state := present;
                     InfiniFs.pool := "baz"; InfiniFs.size := Some "large"%string |})
      as (_ & _ & Hsize).
    + vm_compute. reflexivity.
    + apply Hsize. intros Hacc. destruct (Hacc eq_refl) as [c Hc].
      vm_compute in Hc. discriminate Hc.
Defined.

(** C8, where it fails: the size is checked before the pool is looked
    up, so with a size that is no capacity the failure is the one of the
    size, not the one of the missing pool. *)
Lemma malformed_size_fails_first :
  let b := small_box verbatim in
  let p := {| InfiniVol.name := "foo"; InfiniVol.state := present;
              InfiniVol.pool := "baz"; InfiniVol.size := Some "large"%string |} in
  pools b !! InfiniVol.pool p = None
  ∧ run (InfiniVol.main p) b
    = failure b "size (Physical Capacity) should be defined in MB, GB, TB or PB units"
  ∧ run (InfiniVol.main p) b ≠ failure b "Pool baz not found".
Proof.
  vm_compute. split; [reflexivity | split; [reflexivity |]].
  intros Heq. discriminate Heq.
Qed.

(** C10.  A host invocation that names, in [volume], a volume the array
    does not have fails with [Volume <name> not found] before the choice
    on [state] and on the host is made, and issues no changing call: so
    it is for [state=present] and [state=absent], for a host that exists
    and for one that does not. *)
Theorem host_missing_volume_fatal (p : InfiniHost.Params) (b : InfiniBox) (v : string) :
  InfiniHost.volume p = Some v →
  v ≠ ""%string →
  volumes b !! v = None →
  run (InfiniHost.main p) b = failure b ("Volume " +:+ v +:+ " not found").
Proof.
  intros Hv Hne Hnone.
  unfold InfiniHost.main, InfiniHost.get_host. unfold_run. simpl.
  rewrite Hv. simpl. rewrite bool_decide_eq_false_2 by exact Hne. simpl.
  rewrite Hnone. reflexivity.
Qed.

Lemma host_missing_volume_fatal_witness :
  let b := small_box rounding in
  run (InfiniHost.main
         {| InfiniHost.name := "foo.example.com"; InfiniHost.state := absent;
            InfiniHost.wwns := None; InfiniHost.volume := Some "vol9"%string |}) b
  = failure b "Volume vol9 not found".
Proof.
  intros b.
  apply (host_missing_volume_fatal
           {| InfiniHost.name := "foo.example.com"; InfiniHost.state := absent;
              InfiniHost.wwns := None; InfiniHost.volume := Some "vol9"%string |}
           b "vol9").
  - reflexivity.
  - discriminate.
  - vm_compute. reflexivity.
Defined.

(** ** Removing a client *)

Lemma delete_loop_skipping (fuel : nat) (client : string) :
  ∀ (todo passed : list Permission) (changed : bool),
    (length todo ≤ fuel)%nat →
    InfiniExportClient.delete_loop fuel client (length passed) (passed ++ todo) changed
    = (passed ++ delete_skipping client todo, changed || has_client client todo).
Proof.
  induction fuel as [| fuel IH]; intros todo passed changed Hlen.
  - destruct todo; [| simpl in Hlen; lia].
    simpl. by rewrite orb_false_r.
  - destruct todo as [| item rest].
    + simpl. rewrite app_nil_r, lookup_ge_None_2 by lia. by rewrite orb_false_r.
    + cbn [InfiniExportClient.delete_loop].
      rewrite list_lookup_middle by reflexivity.
      cbn [delete_skipping has_client existsb].
      destruct (bool_decide (Munch.client item = client)).
      * replace (delete (length passed) (passed ++ item :: rest)) with (passed ++ rest).
        2:{ clear. induction passed; simpl; [done | by f_equal]. }
        rewrite orb_true_r. destruct rest as [| next rest'].
        -- destruct fuel; simpl; rewrite ?lookup_ge_None_2; try done;
             rewrite length_app; simpl; lia.
        -- replace (S (length passed)) with (length (passed ++ [next]))
             by (rewrite length_app; simpl; lia).
           replace (passed ++ next :: rest') with ((passed ++ [next]) ++ rest')
             by (by rewrite <- app_assoc).
           rewrite IH by (simpl in Hlen; lia).
           by rewrite <- app_assoc.
      * replace (S (length passed)) with (length (passed ++ [item]))
          by (rewrite length_app; simpl; lia).
        replace (passed ++ item :: rest) with ((passed ++ [item]) ++ rest)
          by (by rewrite <- app_assoc).
        rewrite IH by (simpl in Hlen; lia).
        by rewrite <- app_assoc.
Qed.

(** The loop as [delete_client] runs it: the iterations it is given are
    enough, and more would change nothing. *)
Lemma delete_loop_whole (client : string) (l : list Permission) (extra : nat) :
  InfiniExportClient.delete_loop (length l + extra) client 0 l false
  = (delete_skipping client l, has_client client l).
Proof.
  apply (delete_loop_skipping (length l + extra) client l [] false). lia.
Qed.

(** Where no two neighbours have the client, the loop removes every item
    that has it. *)
Lemma delete_skipping_filter (client : string) (l : list Permission) :
  neighbours client l = false →
  delete_skipping client l = filter (λ item, Munch.client item ≠ client) l.
Proof.
  remember (length l) as n eqn:Hn.
  assert (Hle : (length l ≤ n)%nat) by lia. clear Hn.
  revert l Hle. induction n as [| n IH]; intros l Hle Hnb.
  - destruct l; [done | simpl in Hle; lia].
  - destruct l as [| item rest]; [done |].
    simpl in Hnb. apply orb_false_iff in Hnb as [Hhere Hrest].
    cbn [delete_skipping]. rewrite filter_cons.
    destruct (decide (Munch.client item = client)) as [Heq | Hne].
    + rewrite bool_decide_eq_true_2 by exact Heq.
      rewrite bool_decide_eq_true_2 in Hhere by exact Heq.
      rewrite decide_False by (intros Hc; apply Hc, Heq).
      destruct rest as [| next rest']; [done |].
      simpl in Hhere. apply bool_decide_eq_false in Hhere.
      simpl in Hrest. apply orb_false_iff in Hrest as [_ Hrest'].
      rewrite filter_cons, decide_True by exact Hhere.
      f_equal. apply IH; [simpl in Hle; lia | exact Hrest'].
    + rewrite bool_decide_eq_false_2 by exact Hne.
      rewrite decide_True by exact Hne.
      f_equal. apply IH; [simpl in Hle; lia | exact Hrest].
Qed.

Lemma delete_client_run (p : InfiniExportClient.Params) (i : nat) (e : Export) (b : InfiniBox) :
  exports b !! i = Some e →
  run (InfiniExportClient.delete_client p i) b
  = if has_client (InfiniExportClient.client p) (permissions e) then
      let c := export_update_permissions i
                 (delete_skipping (InfiniExportClient.client p) (permissions e)) in
      {| ended := Some (Changed true); array := apply_call c b; issued := [c] |}
    else noop b.
Proof.
  intros He.
  unfold InfiniExportClient.delete_client, InfiniExportClient.get_permissions.
  unfold_run. simpl. rewrite He.
  pose proof (delete_loop_whole (InfiniExportClient.client p) (permissions e) 0) as Hl.
  rewrite Nat.add_0_r in Hl. rewrite Hl.
  destruct (has_client _ _); reflexivity.
Qed.

(** C3, on the input where it fails.  With two neighbouring entries for
    the client, [delete_client] reports [changed=true] and sends back a
    list that still has the second of them. *)
Theorem delete_client_leaves_neighbour :
  let p := {| InfiniExportClient.client := "10.0.0.1";
              InfiniExportClient.access_mode := "RW";
              InfiniExportClient.no_root_squash := false;
              InfiniExportClient.state := absent;
              InfiniExportClient.export := "/data" |} in
  let l := [ entry "10.0.0.1" "RW" false; entry "10.0.0.1" "RO" false;
             entry "10.0.0.2" "RW" true ] in
  let r := run (InfiniExportClient.main p) (export_box l) in
  ended r = Some (Changed true)
  ∧ issued r = [ export_update_permissions 0
                   [ entry "10.0.0.1" "RO" false; entry "10.0.0.2" "RW" true ] ]
  ∧ permissions <$> exports (array r) !! 0%nat
    = Some [ entry "10.0.0.1" "RO" false; entry "10.0.0.2" "RW" true ].
Proof. vm_compute. repeat split. Qed.

(** ** Adding or changing a client *)

Lemma update_item_upsert (p : InfiniExportClient.Params) (item : Permission)
    (changed missing : bool) :
  InfiniExportClient.update_item p item changed missing
  = (upsert p item, changed || stale p item,
     missing && negb (bool_decide (Munch.client item = InfiniExportClient.client p))).
Proof.
  unfold InfiniExportClient.update_item, upsert, stale.
  destruct item as [c a s]. simpl.
  destruct (bool_decide (c = InfiniExportClient.client p)); simpl.
  - rewrite !bool_decide_not.
    destruct (bool_decide (a = InfiniExportClient.access_mode p)) eqn:Ha;
      destruct (bool_decide (s = InfiniExportClient.no_root_squash p)) eqn:Hs;
      simpl; rewrite ?bool_decide_not, ?Hs; simpl;
      rewrite ?orb_true_r, ?orb_false_r, ?andb_false_r;
      try apply bool_decide_eq_true in Ha; try apply bool_decide_eq_true in Hs;
      subst; reflexivity.
  - by rewrite orb_false_r, andb_true_r.
Qed.

Lemma update_items_upsert (p : InfiniExportClient.Params) (l : list Permission) :
  ∀ changed missing,
    InfiniExportClient.update_items p l changed missing
    = (upsert p <$> l, changed || existsb (stale p) l,
       missing && negb (has_client (InfiniExportClient.client p) l)).
Proof.
  induction l as [| item rest IH]; intros changed missing.
  - simpl. by rewrite orb_false_r, andb_true_r.
  - cbn [InfiniExportClient.update_items].
    rewrite update_item_upsert, IH. simpl.
    rewrite negb_orb, <- orb_assoc, <- andb_assoc. reflexivity.
Qed.

Lemma update_client_run (p : InfiniExportClient.Params) (i : nat) (e : Export) (b : InfiniBox) :
  exports b !! i = Some e →
  has_client (InfiniExportClient.client p) (permissions e) = true →
  run (InfiniExportClient.update_client p i) b
  = if existsb (stale p) (permissions e) then
      let c := export_update_permissions i (upsert p <$> permissions e) in
      {| ended := Some (Changed true); array := apply_call c b; issued := [c] |}
    else noop b.
Proof.
  intros He Hhas.
  unfold InfiniExportClient.update_client, InfiniExportClient.get_permissions.
  unfold_run. simpl. rewrite He.
  rewrite update_items_upsert, Hhas. simpl.
  destruct (existsb _ _); reflexivity.
Qed.

(** C5, as amended.  [update_client] for client 10.0.0.1 and access mode
    RO, on an export whose list has an entry for 10.0.0.1 with access RW,
    reports [changed=true] and sends back a list of the same length in
    which every entry for another client is as before, in its place, and
    every entry for 10.0.0.1 has access RO and the squash flag of the
    invocation. *)
Theorem update_client_changes_access (b : InfiniBox) (i : nat) (e : Export)
    (squash : bool) (path : string) :
  exports b !! i = Some e →
  (∃ item, item ∈ permissions e
           ∧ Munch.client item = "10.0.0.1"%string ∧ Munch.access item = "RW"%string) →
  let p := {| InfiniExportClient.client := "10.0.0.1";
              InfiniExportClient.access_mode := "RO";
              InfiniExportClient.no_root_squash := squash;
              InfiniExportClient.state := present;
              InfiniExportClient.export := path |} in
  ∃ l,
    run (InfiniExportClient.update_client p i) b
    = {| ended := Some (Changed true);
         array := apply_call (export_update_permissions i l) b;
         issued := [export_update_permissions i l] |}
    ∧ length l = length (permissions e)
    ∧ ∀ k item, permissions e !! k = Some item →
        l !! k = Some (if bool_decide (Munch.client item = "10.0.0.1"%string)
                       then entry "10.0.0.1" "RO" squash
                       else item).
Proof.
  intros He (item & Hin & Hc & Ha) p.
  exists (upsert p <$> permissions e).
  assert (Hstale : existsb (stale p) (permissions e) = true).
  { apply existsb_exists. exists item. split; [by apply list_elem_of_In |].
    unfold stale. simpl. rewrite Hc, Ha. reflexivity. }
  assert (Hhas : has_client "10.0.0.1" (permissions e) = true).
  { apply existsb_exists. exists item. split; [by apply list_elem_of_In |].
    by apply bool_decide_eq_true. }
  split; [| split].
  - rewrite (update_client_run p i e b He Hhas), Hstale. reflexivity.
  - apply length_fmap.
  - intros k x Hk. rewrite list_lookup_fmap, Hk. simpl. f_equal.
    unfold upsert, entry. simpl.
    destruct (decide (Munch.client x = "10.0.0.1"%string)) as [Hx | Hx].
    + rewrite !bool_decide_eq_true_2 by exact Hx. by rewrite Hx.
    + by rewrite !bool_decide_eq_false_2 by exact Hx.
Qed.

Lemma update_client_changes_access_witness :
  let l := [ entry "10.0.0.2" "RW" true; entry "10.0.0.1" "RW" false ] in
  let p := {| InfiniExportClient.client := "10.0.0.1";
              InfiniExportClient.access_mode := "RO";
              InfiniExportClient.no_root_squash := false;
              InfiniExportClient.state := present;
              InfiniExportClient.export := "/data" |} in
  ∃ l',
    run (InfiniExportClient.update_client p 0) (export_box l)
    = {| ended := Some (Changed true);
         array := apply_call (export_update_permissions 0 l') (export_box l);
         issued := [export_update_permissions 0 l'] |}
    ∧ length l' = 2%nat
    ∧ ∀ k item, l !! k = Some item →
        l' !! k = Some (if bool_decide (Munch.client item = "10.0.0.1"%string)
                        then entry "10.0.0.1" "RO" false
                        else item).
Proof.
  intros l p.
  apply (update_client_changes_access (export_box l) 0
           {| export_path := "/data"; export_filesystem := "fs01"; permissions := l |}
           false "/data").
  - reflexivity.
  - exists (entry "10.0.0.1" "RW" false). split; [| split; reflexivity].
    apply list_elem_of_In. simpl. right. left. reflexivity.
Defined.

(** C5, where it fails: the entry for 10.0.0.1 allows root
    ([no_root_squash] set) and the invocation gives only the client and
    the access mode, so that [no_root_squash] is the default [no].  The
    entry loses its [no_root_squash] along with the change of access: the
    list sent back is not the old one with that access field alone
    changed. *)
Lemma update_client_changes_squash_too :
  let l := [ entry "10.0.0.1" "RW" true; entry "10.0.0.2" "RW" true ] in
  let p := {| InfiniExportClient.client := "10.0.0.1";
              InfiniExportClient.access_mode := "RO";
              InfiniExportClient.no_root_squash := false;
              InfiniExportClient.state := present;
              InfiniExportClient.export := "/data" |} in
  let r := run (InfiniExportClient.main p) (export_box l) in
  ended r = Some (Changed true)
  ∧ issued r = [ export_update_permissions 0
                   [ entry "10.0.0.1" "RO" false; entry "10.0.0.2" "RW" true ] ]
  ∧ permissions <$> exports (array r) !! 0%nat
    ≠ Some [ entry "10.0.0.1" "RO" true; entry "10.0.0.2" "RW" true ].
Proof.
  vm_compute. split; [reflexivity | split; [reflexivity |]].
  intros Heq. discriminate Heq.
Qed.

(** ** Comparing permission lists *)

Lemma transform_inj (d1 d2 : Permission) :
  InfiniExport.transform d1 = InfiniExport.transform d2 → d1 = d2.
Proof.
  intros Heq.
  assert (Hsub : ∀ x, x ∈ InfiniExport.items d1 → x ∈ InfiniExport.items d2).
  { intros x Hx. unfold InfiniExport.transform in Heq.
    apply (elem_of_list_to_set (C := gset (string * value))).
    rewrite <- Heq. by apply elem_of_list_to_set. }
  destruct d1 as [c1 a1 s1], d2 as [c2 a2 s2].
  unfold InfiniExport.items in Hsub. simpl in Hsub.
  assert (Hc := Hsub ("client"%string, Str c1)).
  assert (Ha := Hsub ("access"%string, Str a1)).
  assert (Hs := Hsub ("no_root_squash"%string, Bool s1)).
  rewrite !elem_of_cons, !elem_of_nil in Hc, Ha, Hs.
  destruct Hc as [Hc | [Hc | [Hc | []]]]; [tauto | | discriminate Hc ..].
  destruct Ha as [Ha | [Ha | [Ha | []]]]; [tauto | discriminate Ha | | discriminate Ha].
  destruct Hs as [Hs | [Hs | [Hs | []]]]; [tauto | discriminate Hs .. |].
  congruence.
Qed.

Lemma elem_of_permission_set (d : Permission) (l : list Permission) :
  InfiniExport.transform d ∈ InfiniExport.permission_set l ↔ d ∈ l.
Proof.
  unfold InfiniExport.permission_set.
  rewrite elem_of_list_to_set, list_elem_of_fmap. split.
  - intros (d' & Heq & Hin). by rewrite (transform_inj d d' Heq).
  - intros Hin. eauto.
Qed.

(** The comparison of [update_export] is equality of the two lists as
    sets of entries. *)
Lemma permission_set_eq_iff (l1 l2 : list Permission) :
  InfiniExport.permission_set l1 = InfiniExport.permission_set l2
  ↔ ∀ d, d ∈ l1 ↔ d ∈ l2.
Proof.
  split.
  - intros Heq d. by rewrite <- !elem_of_permission_set, Heq.
  - intros Hsame. apply set_eq. intros x.
    unfold InfiniExport.permission_set.
    rewrite !elem_of_list_to_set, !list_elem_of_fmap.
    split; intros (d & -> & Hin); exists d; (split; [done |]); by apply Hsame.
Qed.

Lemma export_found (p : InfiniExport.Params) (b : InfiniBox) (i : nat) (e : Export) :
  exports b !! i = Some e →
  export_path e = InfiniExport.name p →
  (∀ j y, exports b !! j = Some y → (j < i)%nat → export_path y ≠ InfiniExport.name p) →
  list_find (λ e, export_path e = InfiniExport.name p) (exports b) = Some (i, e).
Proof. intros He Hp Hfirst. apply list_find_Some. eauto. Qed.

Lemma update_export_same_set (p : InfiniExport.Params) (i : nat)
    (e : Export) (filesystem : string) (w : World) :
  exports (box w) !! i = Some e →
  InfiniExport.permission_set (permissions e)
  = InfiniExport.permission_set (default [] (InfiniExport.client_list p)) →
  InfiniExport.update_export p (Some i) filesystem w = (Stop (Changed false), w).
Proof.
  intros He Hset.
  unfold InfiniExport.update_export, InfiniExport.get_permissions. unfold_run.
  destruct (truthy_list (InfiniExport.client_list p)); [| reflexivity].
  rewrite He. simpl.
  rewrite bool_decide_eq_false_2; [reflexivity |].
  intros Hne. apply Hne, Hset.
Qed.

(** C2.  Two permission lists that are permutations of each other make
    the same set for the comparison of [update_export], also when an
    entry is given twice in one of them; so [update_export], and with it
    an export invocation with [state=present], reports [changed=false]
    and issues no call when [client_list] is a permutation of the list
    the export has. *)
Theorem permuted_permissions_equal (l1 l2 : list Permission) :
  l1 ≡ₚ l2 →
  InfiniExport.permission_set l1 = InfiniExport.permission_set l2
  ∧ (∀ d, InfiniExport.permission_set (d :: d :: l1)
          = InfiniExport.permission_set (d :: l2))
  ∧ (∀ (p : InfiniExport.Params) (b : InfiniBox) (i : nat) (e : Export)
       (filesystem : string),
      InfiniExport.client_list p = Some l2 →
      exports b !! i = Some e →
      permissions e = l1 →
      run (InfiniExport.update_export p (Some i) filesystem) b = noop b)
  ∧ ∀ (p : InfiniExport.Params) (b : InfiniBox) (i : nat) (e : Export),
      InfiniExport.state p = present →
      InfiniExport.client_list p = Some l2 →
      is_Some (filesystems b !! InfiniExport.filesystem p) →
      exports b !! i = Some e →
      export_path e = InfiniExport.name p →
      (∀ j y, exports b !! j = Some y → (j < i)%nat →
              export_path y ≠ InfiniExport.name p) →
      permissions e = l1 →
      run (InfiniExport.main p) b = noop b.
Proof.
  intros Hperm.
  assert (Hset : InfiniExport.permission_set l1 = InfiniExport.permission_set l2).
  { apply permission_set_eq_iff. intros d. by rewrite Hperm. }
  split; [exact Hset | split; [| split]].
  - intros d. apply permission_set_eq_iff. intros x.
    rewrite !elem_of_cons, Hperm. tauto.
  - intros p b i e filesystem Hl He Hcur. unfold run.
    rewrite (update_export_same_set p i e); [reflexivity | exact He |].
    rewrite Hl, Hcur. exact Hset.
  - intros p b i e Hs Hl [f Hf] He Hpath Hfirst Hcur.
    unfold InfiniExport.main, InfiniExport.get_filesystem, InfiniExport.get_export.
    unfold_run. simpl. rewrite Hf. simpl.
    rewrite (export_found p b i e He Hpath Hfirst). simpl. rewrite Hs.
    rewrite (update_export_same_set p i e); [reflexivity | exact He |].
    rewrite Hl, Hcur. exact Hset.
Qed.

Lemma permuted_permissions_equal_witness :
  let l1 := [ entry "192.168.0.2" "RW" true; entry "192.168.0.100" "RO" false ] in
  let l2 := [ entry "192.168.0.100" "RO" false; entry "192.168.0.2" "RW" true ] in
  let p := {| InfiniExport.name := "/data"; InfiniExport.state := present;
              InfiniExport.filesystem := "fs01";
              InfiniExport.client_list := Some l2 |} in
  InfiniExport.permission_set l1 = InfiniExport.permission_set l2
  ∧ run (InfiniExport.main p) (export_box l1) = noop (export_box l1).
Proof.
  intros l1 l2 p.
  assert (Hperm : l1 ≡ₚ l2) by apply Permutation_swap.
  destruct (permuted_permissions_equal l1 l2 Hperm) as (Hset & _ & _ & Hrun).
  split; [exact Hset |].
  apply (Hrun p (export_box l1) 0%nat
           {| export_path := "/data"; export_filesystem := "fs01"; permissions := l1 |}).
  - reflexivity.
  - reflexivity.
  - vm_compute. eauto.
  - reflexivity.
  - reflexivity.
  - intros j y _ Hj. lia.
  - reflexivity.
Defined.

(** ** Creating an export *)

(** C4, as amended.  When the export is not there and no client list is
    given, [state=present] issues the create call and nothing else and
    reports [changed=true]; the permission list of the new export is the
    one the array gives to a new export. *)
Theorem export_created_without_permissions (p : InfiniExport.Params) (b : InfiniBox) :
  InfiniExport.state p = present →
  truthy_list (InfiniExport.client_list p) = false →
  is_Some (filesystems b !! InfiniExport.filesystem p) →
  ¬ Exists (λ e, export_path e = InfiniExport.name p) (exports b) →
  let c := exports_create (InfiniExport.name p) (InfiniExport.filesystem p) in
  run (InfiniExport.main p) b
  = {| ended := Some (Changed true); array := apply_call c b; issued := [c] |}
  ∧ exports (apply_call c b)
    = exports b ++ [ {| export_path := InfiniExport.name p;
                        export_filesystem := InfiniExport.filesystem p;
                        permissions := new_export_permissions (firmware b) |} ].
Proof.
  intros Hs Hl [f Hf] Hn c. split; [| reflexivity].
  unfold InfiniExport.main, InfiniExport.get_filesystem, InfiniExport.get_export.
  unfold_run. simpl. rewrite Hf. simpl.
  rewrite list_find_absent by exact Hn. simpl. rewrite Hs.
  unfold InfiniExport.update_export, InfiniExport.create. unfold_run. simpl.
  rewrite Hl. reflexivity.
Qed.

Lemma export_created_without_permissions_witness :
  let p := {| InfiniExport.name := "/data01"; InfiniExport.state := present;
              InfiniExport.filesystem := "fs01"; InfiniExport.client_list := None |} in
  let b := export_box [] in
  let c := exports_create "/data01" "fs01" in
  run (InfiniExport.main p) b
  = {| ended := Some (Changed true); array := apply_call c b; issued := [c] |}
  ∧ exports (apply_call c b)
    = exports b ++ [ {| export_path := "/data01"; export_filesystem := "fs01";
                        permissions := new_export_permissions (firmware b) |} ].
Proof.
  intros p b c.
  apply (export_created_without_permissions p b).
  - reflexivity.
  - reflexivity.
  - vm_compute. eauto.
  - intros Hex. apply Exists_exists in Hex as (e & He & Hp).
    apply list_elem_of_singleton in He. subst e. discriminate Hp.
Defined.

(** C4, where it fails: on an array that gives a new export no entry, the
    export created without a client list has none, and the create call is
    the only call issued. *)
Lemma export_created_without_default_entry :
  let p := {| InfiniExport.name := "/data01"; InfiniExport.state := present;
              InfiniExport.filesystem := "fs01"; InfiniExport.client_list := None |} in
  let r := run (InfiniExport.main p) (export_box []) in
  ended r = Some (Changed true)
  ∧ issued r = [ exports_create "/data01" "fs01" ]
  ∧ exports (array r) !! 1%nat
    = Some {| export_path := "/data01"; export_filesystem := "fs01"; permissions := [] |}
  ∧ permissions <$> exports (array r) !! 1%nat ≠ Some [ entry "*" "RW" true ].
Proof.
  vm_compute. repeat split. intros Heq. discriminate Heq.
Qed.

(** ** Updating a pool *)

Lemma update_pool_run (p : InfiniPool.Params) (pool : string) (q : Pool) (w : World) :
  pools (box w) !! pool = Some q →
  acceptable (InfiniPool.size p) →
  acceptable (InfiniPool.vsize p) →
  let fp := differs (InfiniPool.size p) (physical_capacity q) in
  let fv := differs (InfiniPool.vsize p) (virtual_capacity q) in
  let fs := bool_decide (ssd_enabled q ≠ InfiniPool.ssd_cache p) in
  InfiniPool.update_pool p pool w
  = (Stop (Changed (fp || fv || fs)),
     {| box := apply_calls (pool_updates p pool fp fv fs) (box w);
        calls := calls w ++ pool_updates p pool fp fv fs |}).
Proof.
  intros Hq Hsz Hvz. destruct w as [b cs]. simpl in Hq.
  unfold pool_updates, differs, wanted, acceptable in *.
  unfold InfiniPool.update_pool, InfiniPool.pool_fields, Capacity. unfold_run.
  destruct (truthy (InfiniPool.size p)).
  - destruct Hsz as [c Hc]; [done |]. rewrite Hc. simpl. rewrite Hq. simpl.
    destruct (bool_decide (physical_capacity q ≠ _)); simpl.
    + destruct (truthy (InfiniPool.vsize p)).
      * destruct Hvz as [v Hv]; [done |]. rewrite Hv. simpl.
        rewrite lookup_alter_eq, Hq. simpl.
        destruct (bool_decide (virtual_capacity q ≠ _)); simpl.
        -- rewrite !lookup_alter_eq, Hq. simpl.
           destruct (bool_decide (ssd_enabled q ≠ _)); simpl;
             rewrite <- ?app_assoc; reflexivity.
        -- rewrite !lookup_alter_eq, Hq. simpl.
           destruct (bool_decide (ssd_enabled q ≠ _)); simpl;
             rewrite <- ?app_assoc; reflexivity.
      * simpl. rewrite !lookup_alter_eq, Hq. simpl.
        destruct (bool_decide (ssd_enabled q ≠ _)); simpl;
          rewrite <- ?app_assoc; reflexivity.
    + destruct (truthy (InfiniPool.vsize p)).
      * destruct Hvz as [v Hv]; [done |]. rewrite Hv. simpl. rewrite Hq. simpl.
        destruct (bool_decide (virtual_capacity q ≠ _)); simpl.
        -- rewrite !lookup_alter_eq, Hq. simpl.
           destruct (bool_decide (ssd_enabled q ≠ _)); simpl;
             rewrite <- ?app_assoc, ?app_nil_r; reflexivity.
        -- rewrite Hq. simpl.
           destruct (bool_decide (ssd_enabled q ≠ _)); simpl;
             rewrite <- ?app_assoc, ?app_nil_r; reflexivity.
      * simpl. rewrite Hq. simpl.
        destruct (bool_decide (ssd_enabled q ≠ _)); simpl;
          rewrite <- ?app_assoc, ?app_nil_r; reflexivity.
  - simpl. destruct (truthy (InfiniPool.vsize p)).
    + destruct Hvz as [v Hv]; [done |]. rewrite Hv. simpl. rewrite Hq. simpl.
      destruct (bool_decide (virtual_capacity q ≠ _)); simpl.
      * rewrite !lookup_alter_eq, Hq. simpl.
        destruct (bool_decide (ssd_enabled q ≠ _)); simpl;
          rewrite <- ?app_assoc, ?app_nil_r; reflexivity.
      * rewrite Hq. simpl.
        destruct (bool_decide (ssd_enabled q ≠ _)); simpl;
          rewrite <- ?app_assoc, ?app_nil_r; reflexivity.
    + simpl. rewrite Hq. simpl.
      destruct (bool_decide (ssd_enabled q ≠ _)); simpl;
        rewrite <- ?app_assoc, ?app_nil_r; reflexivity.
Qed.

(** ** Creating a pool *)

Lemma create_pool_run (p : InfiniPool.Params) (physical virtual : Z) (w : World) :
  initial_physical p = Some physical →
  initial_virtual p = Some virtual →
  InfiniPool.create_pool p w
  = (Stop (Changed true),
     {| box := apply_calls (pool_creation p physical virtual) (box w);
        calls := calls w ++ pool_creation p physical virtual |}).
Proof.
  unfold initial_virtual, initial_physical, pool_creation.
  unfold InfiniPool.create_pool, Capacity. unfold_run.
  intros Hp Hv. destruct w as [b cs].
  destruct (truthy (InfiniPool.size p)), (truthy (InfiniPool.vsize p));
    cbn [negb andb]; try (assert (physical = virtual) as -> by congruence);
    rewrite ?Hp, ?Hv; simpl;
    destruct (InfiniPool.ssd_cache p); simpl;
    rewrite <- ?app_assoc; reflexivity.
Qed.

Lemma pool_main_present (p : InfiniPool.Params) (b : InfiniBox) :
  InfiniPool.state p = present →
  acceptable (InfiniPool.size p) →
  acceptable (InfiniPool.vsize p) →
  InfiniPool.main p {| box := b; calls := [] |}
  = match pools b !! InfiniPool.name p with
    | Some _ => InfiniPool.update_pool p (InfiniPool.name p) {| box := b; calls := [] |}
    | None => InfiniPool.create_pool p {| box := b; calls := [] |}
    end.
Proof.
  intros Hs Hsz Hvz.
  unfold InfiniPool.main, InfiniPool.get_pool. unfold_run.
  rewrite !check_capacity_acceptable by assumption. simpl.
  rewrite Hs. destruct (pools b !! InfiniPool.name p); reflexivity.
Qed.

(** The run of [main] on a pool that is there, with [state=present]: the
    three change flags, the calls and the pool afterwards. *)
Lemma pool_updated (p : InfiniPool.Params) (b : InfiniBox) (q : Pool) :
  InfiniPool.state p = present →
  pools b !! InfiniPool.name p = Some q →
  acceptable (InfiniPool.size p) →
  acceptable (InfiniPool.vsize p) →
  let fp := differs (InfiniPool.size p) (physical_capacity q) in
  let fv := differs (InfiniPool.vsize p) (virtual_capacity q) in
  let fs := bool_decide (ssd_enabled q ≠ InfiniPool.ssd_cache p) in
  let r := run (InfiniPool.main p) b in
  r = {| ended := Some (Changed (fp || fv || fs));
         array := apply_calls (pool_updates p (InfiniPool.name p) fp fv fs) b;
         issued := pool_updates p (InfiniPool.name p) fp fv fs |}
  ∧ pools (array r) !! InfiniPool.name p
    = Some {| physical_capacity :=
                if fp then pool_capacity (firmware b)
                             (default 0 (wanted (InfiniPool.size p)))
                else physical_capacity q;
              virtual_capacity :=
                if fv then pool_capacity (firmware b)
                             (default 0 (wanted (InfiniPool.vsize p)))
                else virtual_capacity q;
              ssd_enabled := if fs then InfiniPool.ssd_cache p else ssd_enabled q |}.
Proof.
  intros Hs Hq Hsz Hvz fp fv fs r.
  assert (Hr : r = {| ended := Some (Changed (fp || fv || fs));
                      array := apply_calls (pool_updates p (InfiniPool.name p) fp fv fs) b;
                      issued := pool_updates p (InfiniPool.name p) fp fv fs |}).
  { subst r. unfold run. rewrite pool_main_present by assumption. rewrite Hq.
    rewrite (update_pool_run p (InfiniPool.name p) q) by assumption. reflexivity. }
  split; [exact Hr |].
  rewrite Hr. unfold pool_updates, apply_calls.
  destruct q as [qp qv qs].
  destruct fp, fv, fs; simpl; rewrite ?lookup_alter_eq, Hq; reflexivity.
Qed.

(** C9.  [update_pool] compares and updates the physical capacity, the
    virtual capacity and the SSD cache each on its own: the run reports
    the disjunction of the three change flags, issues the update call of
    each field whose flag is set and of no other, and leaves the other
    fields of the pool as they were.  For a pool at physical = virtual =
    10TB and the invocation [vsize=300TB], the virtual capacity is
    updated, the physical capacity stays at 10TB and the run reports
    [changed=true]. *)
Theorem pool_fields_updated_independently (p : InfiniPool.Params) (b : InfiniBox) (q : Pool) :
  InfiniPool.state p = present →
  pools b !! InfiniPool.name p = Some q →
  acceptable (InfiniPool.size p) →
  acceptable (InfiniPool.vsize p) →
  let fp := differs (InfiniPool.size p) (physical_capacity q) in
  let fv := differs (InfiniPool.vsize p) (virtual_capacity q) in
  let fs := bool_decide (ssd_enabled q ≠ InfiniPool.ssd_cache p) in
  let r := run (InfiniPool.main p) b in
  ended r = Some (Changed (fp || fv || fs))
  ∧ issued r = pool_updates p (InfiniPool.name p) fp fv fs
  ∧ array r = apply_calls (issued r) b
  ∧ pools (array r) !! InfiniPool.name p
    = Some {| physical_capacity :=
                if fp then pool_capacity (firmware b)
                             (default 0 (wanted (InfiniPool.size p)))
                else physical_capacity q;
              virtual_capacity :=
                if fv then pool_capacity (firmware b)
                             (default 0 (wanted (InfiniPool.vsize p)))
                else virtual_capacity q;
              ssd_enabled := if fs then InfiniPool.ssd_cache p else ssd_enabled q |}
  ∧ (InfiniPool.size p = None →
     InfiniPool.vsize p = Some "300TB"%string →
     physical_capacity q = 10 * Capacity.TB →
     virtual_capacity q = 10 * Capacity.TB →
     ended r = Some (Changed true)
     ∧ pool_update_virtual_capacity (InfiniPool.name p)
         (Capacity.roundup (300 * Capacity.TB) InfiniPool.boundary) ∈ issued r
     ∧ (∀ c, pool_update_physical_capacity (InfiniPool.name p) c ∉ issued r)
     ∧ physical_capacity <$> pools (array r) !! InfiniPool.name p
       = Some (10 * Capacity.TB)).
Proof.
  intros Hs Hq Hsz Hvz fp fv fs r.
  destruct (pool_updated p b q Hs Hq Hsz Hvz) as [Hr Hpool].
  fold fp fv fs r in Hr, Hpool.
  rewrite Hr in *. simpl in *.
  split; [reflexivity | split; [reflexivity | split; [reflexivity | split; [exact Hpool |]]]].
  intros Hsize Hvsize Hphys Hvirt.
  assert (Hfp : fp = false).
  { subst fp. unfold differs, wanted. rewrite Hsize. reflexivity. }
  assert (Hfv : fv = true).
  { subst fv. unfold differs, wanted. rewrite Hvsize, Hvirt. vm_compute. reflexivity. }
  rewrite Hpool, Hfp, Hfv. unfold pool_updates, wanted. rewrite Hvsize, Hphys.
  split; [reflexivity | split; [| split; [| reflexivity]]].
  - apply list_elem_of_In. simpl. left. f_equal.
  - intros c Hin. apply list_elem_of_In in Hin. simpl in Hin.
    destruct Hin as [Hin | Hin]; [discriminate Hin |].
    destruct fs; simpl in Hin; [destruct Hin as [Hin | []]; discriminate Hin | exact Hin].
Qed.

Lemma pool_fields_updated_independently_witness :
  let p := vsize_300TB "foo" true in
  let r := run (InfiniPool.main p) (pool_box verbatim) in
  issued r = [ pool_update_virtual_capacity "foo" 300000000344064 ]
  ∧ pools (array r) !! "foo"%string
    = Some {| physical_capacity := 10000000000000;
              virtual_capacity := 300000000344064;
              ssd_enabled := true |}
  ∧ ended r = Some (Changed true)
  ∧ pool_update_virtual_capacity "foo" 300000000344064 ∈ issued r
  ∧ (∀ c, pool_update_physical_capacity "foo" c ∉ issued r)
  ∧ physical_capacity <$> pools (array r) !! "foo"%string = Some 10000000000000.
Proof.
  intros p r.
  destruct (pool_fields_updated_independently p (pool_box verbatim)
              {| physical_capacity := 10 * Capacity.TB;
                 virtual_capacity := 10 * Capacity.TB;
                 ssd_enabled := true |})
    as (_ & Hissued & _ & Hpool & Hexample).
  - reflexivity.
  - vm_compute. reflexivity.
  - intros Hf. discriminate Hf.
  - intros _. vm_compute. eauto.
  - split; [exact Hissued | split; [exact Hpool |]].
    apply Hexample; reflexivity.
Defined.

(** ** Reconciling a pool twice *)

Lemma acceptable_10TB : acceptable (Some "10TB"%string).
Proof. intros _. vm_compute. eauto. Qed.

Lemma acceptable_None : acceptable None.
Proof. intros Hf. discriminate Hf. Qed.

(** C1, as amended.  For a pool that is not on the array, the invocation
    [state=present size=10TB] issues the create call with physical =
    virtual = 10TB (and switches the SSD cache off when asked to) and
    reports [changed=true].  The same invocation against the array so
    obtained issues no call and reports [changed=false] when the array
    recorded the physical capacity as 10TB rounded up to a multiple of
    6 * 64 KiB; when it recorded anything else, 10TB itself included, the
    second run updates the physical capacity and reports
    [changed=true]. *)
Theorem pool_reconciled_twice (n : string) (ssd : bool) (b : InfiniBox) :
  pools b !! n = None →
  let p := size_10TB n ssd in
  let first := run (InfiniPool.main p) b in
  let second := run (InfiniPool.main p) (array first) in
  let recorded := pool_capacity (firmware b) (10 * Capacity.TB) in
  let rounded := Capacity.roundup (10 * Capacity.TB) InfiniPool.boundary in
  ended first = Some (Changed true)
  ∧ issued first = pool_creation p (10 * Capacity.TB) (10 * Capacity.TB)
  ∧ pools (array first) !! n
    = Some {| physical_capacity := recorded; virtual_capacity := recorded;
              ssd_enabled := ssd |}
  ∧ (recorded = rounded → second = noop (array first))
  ∧ (recorded ≠ rounded →
     ended second = Some (Changed true)
     ∧ issued second = [ pool_update_physical_capacity n rounded ]).
Proof.
  intros Hn p first second recorded rounded.
  assert (Hfirst : first
    = {| ended := Some (Changed true);
         array := apply_calls (pool_creation p (10 * Capacity.TB) (10 * Capacity.TB)) b;
         issued := pool_creation p (10 * Capacity.TB) (10 * Capacity.TB) |}).
  { subst first. unfold run.
    rewrite pool_main_present
      by (first [reflexivity | apply acceptable_10TB | apply acceptable_None]).
    change (InfiniPool.name p) with n. rewrite Hn.
    rewrite (create_pool_run p (10 * Capacity.TB) (10 * Capacity.TB))
      by reflexivity.
    reflexivity. }
  assert (Hpool : pools (array first) !! n
    = Some {| physical_capacity := recorded; virtual_capacity := recorded;
              ssd_enabled := ssd |}).
  { rewrite Hfirst. unfold pool_creation, apply_calls. subst p recorded.
    destruct ssd; simpl; rewrite ?lookup_alter_eq, lookup_insert_eq; reflexivity. }
  assert (Hfw : firmware (array first) = firmware b).
  { rewrite Hfirst. unfold pool_creation, apply_calls. subst p.
    destruct ssd; reflexivity. }
  split; [by rewrite Hfirst | split; [by rewrite Hfirst | split; [exact Hpool |]]].
  destruct (pool_updated p (array first) _ eq_refl Hpool
              acceptable_10TB acceptable_None) as [Hsecond _].
  fold second in Hsecond.
  assert (Hfs : bool_decide (ssd ≠ ssd) = false)
    by (apply bool_decide_eq_false; intros Hne; by apply Hne).
  assert (Hended' : ended second
    = Some (Changed (bool_decide (recorded ≠ rounded) || false || bool_decide (ssd ≠ ssd))))
    by (rewrite Hsecond; reflexivity).
  assert (Hissued' : issued second
    = (if bool_decide (recorded ≠ rounded)
       then [pool_update_physical_capacity n rounded] else [])
      ++ [] ++ (if bool_decide (ssd ≠ ssd) then [pool_update_ssd_enabled n ssd] else []))
    by (rewrite Hsecond; reflexivity).
  assert (Harray : array second = apply_calls (issued second) (array first))
    by (rewrite Hsecond; reflexivity).
  clear Hsecond.
  rewrite Hfs in Hended', Hissued'.
  rewrite orb_false_r in Hended'. simpl in Hissued'. rewrite app_nil_r in Hissued'.
  split.
  - intros Heq.
    rewrite bool_decide_eq_false_2 in Hended', Hissued' by (intros Hne; apply Hne, Heq).
    rewrite Hissued' in Harray.
    destruct second as [e a i]. simpl in *. subst e a i. reflexivity.
  - intros Hne.
    rewrite bool_decide_eq_true_2 in Hended', Hissued' by exact Hne.
    split; [exact Hended' | exact Hissued'].
Qed.

Lemma pool_reconciled_twice_witness :
  let p := size_10TB "foo" true in
  let first := run (InfiniPool.main p) (empty_box rounding) in
  let second := run (InfiniPool.main p) (array first) in
  ended first = Some (Changed true)
  ∧ issued first = [ pools_create "foo" 10000000000000 10000000000000 ]
  ∧ pools (array first) !! "foo"%string
    = Some {| physical_capacity := 10000000352256; virtual_capacity := 10000000352256;
              ssd_enabled := true |}
  ∧ second = noop (array first).
Proof.
  intros p first second.
  destruct (pool_reconciled_twice "foo" true (empty_box rounding))
    as (Hended & Hissued & Hpool & Hsame & _).
  - vm_compute. reflexivity.
  - split; [exact Hended | split; [exact Hissued | split; [exact Hpool |]]].
    apply Hsame. vm_compute. reflexivity.
Defined.

(** C1, where it fails: on an array that records the capacities it is
    given, the pool is created with physical = virtual = 10TB, and the
    second run of the same invocation updates the physical capacity and
    reports [changed=true]. *)
Lemma pool_second_run_changes :
  let p := size_10TB "foo" true in
  let first := run (InfiniPool.main p) (empty_box verbatim) in
  let second := run (InfiniPool.main p) (array first) in
  ended first = Some (Changed true)
  ∧ pools (array first) !! "foo"%string
    = Some {| physical_capacity := 10 * Capacity.TB;
              virtual_capacity := 10 * Capacity.TB;
              ssd_enabled := true |}
  ∧ ended second = Some (Changed true)
  ∧ issued second = [ pool_update_physical_capacity "foo" 10000000352256 ].
Proof. vm_compute. repeat split. Qed.

(** ** Sizes of volumes and filesystems *)

Lemma update_volume_run (p : InfiniVol.Params) (volume : string) (d : Dataset)
    (c : Z) (b : InfiniBox) :
  volumes b !! volume = Some d →
  truthy (InfiniVol.size p) = true →
  Capacity.parse (text (InfiniVol.size p)) = Some c →
  let size := Capacity.roundup c (64 * Capacity.KiB) in
  run (InfiniVol.update_volume p volume) b
  = if bool_decide (dataset_size d ≠ size) then
      {| ended := Some (Changed true);
         array := apply_call (volume_update_size volume size) b;
         issued := [volume_update_size volume size] |}
    else noop b.
Proof.
  intros Hd Ht Hc size.
  unfold InfiniVol.update_volume, InfiniVol.get_size, Capacity. unfold_run.
  rewrite Ht, Hc. simpl. rewrite Hd. simpl. fold size.
  destruct (bool_decide (dataset_size d ≠ size)); reflexivity.
Qed.

Lemma update_filesystem_run (p : InfiniFs.Params) (filesystem : string) (d : Dataset)
    (c : Z) (b : InfiniBox) :
  filesystems b !! filesystem = Some d →
  truthy (InfiniFs.size p) = true →
  Capacity.parse (text (InfiniFs.size p)) = Some c →
  let size := Capacity.roundup c (64 * Capacity.KiB) in
  run (InfiniFs.update_filesystem p filesystem) b
  = if bool_decide (dataset_size d ≠ size) then
      {| ended := Some (Changed true);
         array := apply_call (filesystem_update_size filesystem size) b;
         issued := [filesystem_update_size filesystem size] |}
    else noop b.
Proof.
  intros Hd Ht Hc size.
  unfold InfiniFs.update_filesystem, InfiniFs.get_size, Capacity. unfold_run.
  rewrite Ht, Hc. simpl. rewrite Hd. simpl. fold size.
  destruct (bool_decide (dataset_size d ≠ size)); reflexivity.
Qed.

(** The size [update_volume] sends is on a 64 KiB boundary, and a second
    update with the same size finds nothing to do. *)
Lemma update_volume_twice (p : InfiniVol.Params) (volume : string) (d : Dataset)
    (c : Z) (b : InfiniBox) :
  volumes b !! volume = Some d →
  truthy (InfiniVol.size p) = true →
  Capacity.parse (text (InfiniVol.size p)) = Some c →
  let first := run (InfiniVol.update_volume p volume) b in
  (∀ v s, volume_update_size v s ∈ issued first → s mod (64 * Capacity.KiB) = 0)
  ∧ run (InfiniVol.update_volume p volume) (array first) = noop (array first).
Proof.
  intros Hd Ht Hc first. subst first.
  rewrite (update_volume_run p volume d c b Hd Ht Hc).
  destruct (bool_decide (dataset_size d ≠ _)) eqn:Hdiff; simpl.
  - split.
    + intros v s Hin. apply list_elem_of_singleton in Hin. injection Hin as _ ->.
      apply (roundup_divisible c (64 * Capacity.KiB)). reflexivity.
    + erewrite update_volume_run; [| simpl; rewrite lookup_alter_eq, Hd; reflexivity
                                     | exact Ht | exact Hc].
      simpl. rewrite bool_decide_eq_false_2; [reflexivity |].
      intros Hne. by apply Hne.
  - split.
    + intros v s Hin. by apply elem_of_nil in Hin.
    + rewrite (update_volume_run p volume d c b Hd Ht Hc), Hdiff. reflexivity.
Qed.

(** ** Capacity texts *)

Example parse_10TB : Capacity.parse "10TB" = Some 10000000000000.
Proof. reflexivity. Qed.

Example parse_mixed_case : Capacity.parse "3gIb" = Some (3 * 1024 * 1024 * 1024).
Proof. reflexivity. Qed.

Example parse_no_unit : Capacity.parse "10" = None.
Proof. reflexivity. Qed.

Example parse_no_number : Capacity.parse "TB" = None.
Proof. reflexivity. Qed.

Example roundup_64KiB : Capacity.roundup 65537 (64 * Capacity.KiB) = 131072.
Proof. reflexivity. Qed.

Example roundup_pool_10TB :
  Capacity.roundup (10 * Capacity.TB) InfiniPool.boundary = 10000000352256.
Proof. reflexivity. Qed.

(* ===================================================================== *)
(** * Further properties of the modules *)
(* ===================================================================== *)

(** ** infini_pool *)

Lemma apply_calls_app (cs1 cs2 : list call) (b : InfiniBox) :
  apply_calls (cs1 ++ cs2) b = apply_calls cs2 (apply_calls cs1 b).
Proof. unfold apply_calls. apply foldl_app. Qed.

Lemma firmware_apply_call (c : call) (b : InfiniBox) :
  firmware (apply_call c b) = firmware b.
Proof. destruct c; reflexivity. Qed.

Lemma firmware_apply_calls (cs : list call) (b : InfiniBox) :
  firmware (apply_calls cs b) = firmware b.
Proof.
  revert b. induction cs as [| c cs IH]; intros b; [reflexivity |].
  change (apply_calls (c :: cs) b) with (apply_calls cs (apply_call c b)).
  by rewrite IH, firmware_apply_call.
Qed.

Lemma pool_call_frame (n : string) (c : call) (b : InfiniBox) :
  pool_call n c →
  (∀ m, m ≠ n → pools (apply_call c b) !! m = pools b !! m)
  ∧ volumes (apply_call c b) = volumes b
  ∧ filesystems (apply_call c b) = filesystems b
  ∧ exports (apply_call c b) = exports b
  ∧ hosts (apply_call c b) = hosts b.
Proof.
  destruct c; simpl; intros Hc; try contradiction; subst; (split; [| done]); intros m Hm.
  - by rewrite lookup_insert_ne.
  - by rewrite lookup_alter_ne.
  - by rewrite lookup_alter_ne.
  - by rewrite lookup_alter_ne.
  - by rewrite lookup_delete_ne.
Qed.

Lemma pool_calls_frame (n : string) (cs : list call) (b : InfiniBox) :
  Forall (pool_call n) cs →
  (∀ m, m ≠ n → pools (apply_calls cs b) !! m = pools b !! m)
  ∧ volumes (apply_calls cs b) = volumes b
  ∧ filesystems (apply_calls cs b) = filesystems b
  ∧ exports (apply_calls cs b) = exports b
  ∧ hosts (apply_calls cs b) = hosts b.
Proof.
  intros Hall. revert b. induction Hall as [| c cs Hc _ IH]; intros b; [done |].
  change (apply_calls (c :: cs) b) with (apply_calls cs (apply_call c b)).
  destruct (IH (apply_call c b)) as (Hp & -> & -> & -> & ->).
  destruct (pool_call_frame n c b Hc) as (Hp' & -> & -> & -> & ->).
  split; [| done]. intros m Hm. by rewrite Hp, Hp'.
Qed.

Lemma pool_updates_calls (p : InfiniPool.Params) (n : string) (fp fv fs : bool) :
  Forall (pool_call n) (pool_updates p n fp fv fs).
Proof. unfold pool_updates. destruct fp, fv, fs; repeat constructor. Qed.

Lemma pool_creation_calls (p : InfiniPool.Params) (physical virtual : Z) :
  Forall (pool_call (InfiniPool.name p)) (pool_creation p physical virtual).
Proof. unfold pool_creation. destruct (InfiniPool.ssd_cache p); repeat constructor. Qed.

Lemma acceptable_initial (p : InfiniPool.Params) :
  acceptable (InfiniPool.size p) →
  acceptable (InfiniPool.vsize p) →
  ∃ physical virtual,
    initial_physical p = Some physical ∧ initial_virtual p = Some virtual.
Proof.
  unfold acceptable, initial_virtual, initial_physical. intros Hsz Hvz.
  destruct (truthy (InfiniPool.size p)), (truthy (InfiniPool.vsize p)).
  - destruct (Hsz eq_refl) as [c Hc], (Hvz eq_refl) as [v Hv]. rewrite Hc, Hv. eauto.
  - destruct (Hsz eq_refl) as [c Hc]. rewrite Hc. eauto.
  - destruct (Hvz eq_refl) as [v Hv]. rewrite Hv.
    exists Capacity.TB, v. split; reflexivity.
  - exists Capacity.TB, Capacity.TB. split; reflexivity.
Qed.

Lemma pool_created (p : InfiniPool.Params) (b : InfiniBox) (physical virtual : Z) :
  InfiniPool.state p = present →
  pools b !! InfiniPool.name p = None →
  acceptable (InfiniPool.size p) →
  acceptable (InfiniPool.vsize p) →
  initial_physical p = Some physical →
  initial_virtual p = Some virtual →
  run (InfiniPool.main p) b
  = {| ended := Some (Changed true);
       array := apply_calls (pool_creation p physical virtual) b;
       issued := pool_creation p physical virtual |}.
Proof.
  intros Hs Hn Hsz Hvz Hp Hv. unfold run.
  rewrite pool_main_present by assumption. rewrite Hn.
  rewrite (create_pool_run p physical virtual) by assumption. reflexivity.
Qed.

Lemma pool_created_lookup (p : InfiniPool.Params) (b : InfiniBox) (physical virtual : Z) :
  pools (apply_calls (pool_creation p physical virtual) b) !! InfiniPool.name p
  = Some {| physical_capacity := pool_capacity (firmware b) physical;
            virtual_capacity := pool_capacity (firmware b) virtual;
            ssd_enabled := InfiniPool.ssd_cache p |}.
Proof.
  unfold pool_creation, apply_calls.
  destruct (InfiniPool.ssd_cache p); simpl;
    rewrite ?lookup_alter_eq, lookup_insert_eq; reflexivity.
Qed.

(** X1.  A pool that is created gets the capacities that are given; a
    physical capacity that is not given is 1TB, a virtual capacity that
    is not given is the physical one; its SSD cache is as asked. *)
Theorem pool_created_with_defaults (p : InfiniPool.Params) (b : InfiniBox) :
  InfiniPool.state p = present →
  pools b !! InfiniPool.name p = None →
  acceptable (InfiniPool.size p) →
  acceptable (InfiniPool.vsize p) →
  ∃ physical virtual,
    (if truthy (InfiniPool.size p)
     then Capacity.parse (text (InfiniPool.size p)) = Some physical
     else physical = 1000000000000)
    ∧ (if truthy (InfiniPool.vsize p)
       then Capacity.parse (text (InfiniPool.vsize p)) = Some virtual
       else virtual = physical)
    ∧ ended (run (InfiniPool.main p) b) = Some (Changed true)
    ∧ issued (run (InfiniPool.main p) b)
      = pools_create (InfiniPool.name p) physical virtual
        :: (if InfiniPool.ssd_cache p then []
            else [pool_update_ssd_enabled (InfiniPool.name p) false])
    ∧ pools (array (run (InfiniPool.main p) b)) !! InfiniPool.name p
      = Some {| physical_capacity := pool_capacity (firmware b) physical;
                virtual_capacity := pool_capacity (firmware b) virtual;
                ssd_enabled := InfiniPool.ssd_cache p |}.
Proof.
  intros Hs Hn Hsz Hvz.
  destruct (acceptable_initial p Hsz Hvz) as (physical & virtual & Hp & Hv).
  exists physical, virtual.
  rewrite (pool_created p b physical virtual Hs Hn Hsz Hvz Hp Hv).
  cbn [ended issued array]. rewrite pool_created_lookup.
  unfold initial_virtual, initial_physical in Hp, Hv.
  split; [| split; [| done]].
  - destruct (truthy (InfiniPool.size p)); [exact Hp |].
    injection Hp as <-. reflexivity.
  - destruct (truthy (InfiniPool.vsize p)); [exact Hv |]. congruence.
Qed.

Lemma pool_created_with_defaults_witness :
  let p := {| InfiniPool.name := "foo"; InfiniPool.state := present;
              InfiniPool.size := None; InfiniPool.vsize := Some "300TB"%string;
              InfiniPool.ssd_cache := false |} in
  let r := run (InfiniPool.main p) (small_box verbatim) in
  issued r = [ pools_create "foo" 1000000000000 300000000000000;
               pool_update_ssd_enabled "foo" false ]
  ∧ pools (array r) !! "foo"%string
    = Some {| physical_capacity := 1000000000000;
              virtual_capacity := 300000000000000;
              ssd_enabled := false |}.
Proof.
  intros p r.
  destruct (pool_created_with_defaults p (small_box verbatim))
    as (physical & virtual & Hp & Hv & _ & Hissued & Hpool).
  - reflexivity.
  - vm_compute. reflexivity.
  - intros Hf. discriminate Hf.
  - intros _. vm_compute. eauto.
  - simpl in Hp. subst physical.
    assert (virtual = 300000000000000) as -> by (vm_compute in Hv; congruence).
    split; [exact Hissued | exact Hpool].
Defined.

Lemma differs_settled (o : option string) (fw : Firmware) (current : Z) :
  (∀ c, pool_capacity fw (Capacity.roundup c InfiniPool.boundary)
        = Capacity.roundup c InfiniPool.boundary) →
  differs o (if differs o current then pool_capacity fw (default 0 (wanted o))
             else current) = false.
Proof.
  intros Hkeep. destruct (differs o current) eqn:Hd; [| exact Hd].
  unfold differs in *. unfold wanted in *.
  destruct (truthy o); [| done].
  destruct (Capacity.parse (text o)) as [c |]; [| done]. simpl.
  rewrite Hkeep. apply bool_decide_eq_false. intros Hne. by apply Hne.
Qed.

(** X2.  On an array that records a capacity already on the boundary of
    [update_pool] as it is, reconciling a pool that is there a second
    time with the same options finds nothing to do. *)
Theorem pool_update_idempotent (p : InfiniPool.Params) (b : InfiniBox) (q : Pool) :
  InfiniPool.state p = present →
  pools b !! InfiniPool.name p = Some q →
  acceptable (InfiniPool.size p) →
  acceptable (InfiniPool.vsize p) →
  (∀ c, pool_capacity (firmware b) (Capacity.roundup c InfiniPool.boundary)
        = Capacity.roundup c InfiniPool.boundary) →
  let first := run (InfiniPool.main p) b in
  run (InfiniPool.main p) (array first) = noop (array first).
Proof.
  intros Hs Hq Hsz Hvz Hkeep first.
  destruct (pool_updated p b q Hs Hq Hsz Hvz) as [_ Hpool]. fold first in Hpool.
  destruct (pool_updated p (array first) _ Hs Hpool Hsz Hvz) as [Hsecond _].
  rewrite Hsecond. cbn [physical_capacity virtual_capacity ssd_enabled].
  rewrite !differs_settled by exact Hkeep.
  replace (bool_decide (_ ≠ InfiniPool.ssd_cache p)) with false; [reflexivity |].
  symmetry. apply bool_decide_eq_false. intros Hne. apply Hne.
  destruct (bool_decide (ssd_enabled q ≠ InfiniPool.ssd_cache p)) eqn:Hd; [reflexivity |].
  apply bool_decide_eq_false in Hd. by destruct (decide (ssd_enabled q = InfiniPool.ssd_cache p)).
Qed.

Lemma pool_update_idempotent_witness :
  let p := vsize_300TB "foo" false in
  let first := run (InfiniPool.main p) (pool_box verbatim) in
  run (InfiniPool.main p) (array first) = noop (array first).
Proof.
  intros p first.
  apply (pool_update_idempotent p (pool_box verbatim)
           {| physical_capacity := 10 * Capacity.TB;
              virtual_capacity := 10 * Capacity.TB;
              ssd_enabled := true |}).
  - reflexivity.
  - vm_compute. reflexivity.
  - intros Hf. discriminate Hf.
  - intros _. vm_compute. eauto.
  - intros c. reflexivity.
Defined.

Lemma pool_main_calls (p : InfiniPool.Params) (b : InfiniBox) :
  ∃ o cs,
    run (InfiniPool.main p) b
    = {| ended := Some o; array := apply_calls cs b; issued := cs |}
    ∧ Forall (pool_call (InfiniPool.name p)) cs
    ∧ ((∃ changed, o = Changed changed) ∨ (∃ msg, o = Failed msg)).
Proof.
  destruct (check_capacity_cases (InfiniPool.size p)
    "size (Physical Capacity) should be define in MB, GB, TB or PB units"
    {| box := b; calls := [] |}) as [Hc | Hc].
  2:{ exists (Failed "size (Physical Capacity) should be define in MB, GB, TB or PB units"), [].
      split; [| split; [constructor | right; eauto]].
      unfold InfiniPool.main. unfold_run. rewrite Hc. reflexivity. }
  destruct (check_capacity_cases (InfiniPool.vsize p)
    "vsize (Virtual Capacity) should be define in MB, GB, TB or PB units"
    {| box := b; calls := [] |}) as [Hv | Hv].
  2:{ exists (Failed "vsize (Virtual Capacity) should be define in MB, GB, TB or PB units"), [].
      split; [| split; [constructor | right; eauto]].
      unfold InfiniPool.main. unfold_run. rewrite Hc, Hv. reflexivity. }
  apply check_capacity_returns in Hc, Hv.
  destruct (InfiniPool.state p) eqn:Hs.
  - destruct (pools b !! InfiniPool.name p) as [q |] eqn:Hq.
    + destruct (pool_updated p b q Hs Hq Hc Hv) as [Hr _].
      eexists _, _. split; [exact Hr |].
      split; [apply pool_updates_calls | left; eauto].
    + destruct (acceptable_initial p Hc Hv) as (physical & virtual & Hp & Hvi).
      eexists _, _. split; [apply (pool_created p b physical virtual); assumption |].
      split; [apply pool_creation_calls | left; eauto].
  - unfold InfiniPool.main, InfiniPool.get_pool, InfiniPool.delete_pool. unfold_run.
    rewrite !check_capacity_acceptable by assumption. simpl. rewrite Hs.
    destruct (pools b !! InfiniPool.name p) as [q |] eqn:Hq; simpl.
    + exists (Changed true), [pool_delete (InfiniPool.name p)].
      split; [reflexivity | split; [repeat constructor | left; eauto]].
    + exists (Changed false), []. split; [reflexivity | split; [constructor | left; eauto]].
Qed.

(** X3.  Whatever its options and whatever the array holds, a run of
    infini_pool ends with a report, [exit_json] or [fail_json], never
    with an exception nothing catches and never without one; and it
    leaves every other pool and every volume, filesystem, export and
    host of the array as they were. *)
Theorem pool_main_frame (p : InfiniPool.Params) (b : InfiniBox) :
  let r := run (InfiniPool.main p) b in
  ((∃ changed, ended r = Some (Changed changed))
   ∨ (∃ msg, ended r = Some (Failed msg)))
  ∧ (∀ m, m ≠ InfiniPool.name p → pools (array r) !! m = pools b !! m)
  ∧ volumes (array r) = volumes b
  ∧ filesystems (array r) = filesystems b
  ∧ exports (array r) = exports b
  ∧ hosts (array r) = hosts b.
Proof.
  intros r. subst r.
  destruct (pool_main_calls p b) as (o & cs & -> & Hcs & Ho).
  split; [| apply (pool_calls_frame _ _ _ Hcs)].
  cbn [ended]. destruct Ho as [[changed ->] | [msg ->]]; [left | right]; eauto.
Qed.

Lemma pool_main_frame_witness :
  let r := run (InfiniPool.main (size_10TB "foo" false)) (small_box verbatim) in
  ((∃ changed, ended r = Some (Changed changed))
   ∨ (∃ msg, ended r = Some (Failed msg)))
  ∧ pools (array r) !! "bar"%string = pools (small_box verbatim) !! "bar"%string
  ∧ filesystems (array r) = filesystems (small_box verbatim)
  ∧ exports (array r) = exports (small_box verbatim).
Proof.
  intros r.
  destruct (pool_main_frame (size_10TB "foo" false) (small_box verbatim))
    as (Hreport & Hpools & _ & Hfs & Hes & _).
  split; [exact Hreport |].
  split; [apply Hpools; discriminate | split; [exact Hfs | exact Hes]].
Defined.

(** X4.  Creating a pool and then removing it gives the array back as it
    was. *)
Theorem pool_created_then_deleted (p p' : InfiniPool.Params) (b : InfiniBox) :
  InfiniPool.state p = present →
  InfiniPool.state p' = absent →
  InfiniPool.name p' = InfiniPool.name p →
  pools b !! InfiniPool.name p = None →
  acceptable (InfiniPool.size p) → acceptable (InfiniPool.vsize p) →
  acceptable (InfiniPool.size p') → acceptable (InfiniPool.vsize p') →
  let created := run (InfiniPool.main p) b in
  let deleted := run (InfiniPool.main p') (array created) in
  ended created = Some (Changed true)
  ∧ ended deleted = Some (Changed true)
  ∧ issued deleted = [ pool_delete (InfiniPool.name p) ]
  ∧ array deleted = b.
Proof.
  intros Hs Hs' Hname Hn Hsz Hvz Hsz' Hvz' created deleted.
  destruct (acceptable_initial p Hsz Hvz) as (physical & virtual & Hp & Hv).
  assert (Hcreated := pool_created p b physical virtual Hs Hn Hsz Hvz Hp Hv).
  fold created in Hcreated.
  assert (Hpool : is_Some (pools (array created) !! InfiniPool.name p')).
  { rewrite Hcreated, Hname. cbn [array]. rewrite pool_created_lookup. by eexists. }
  assert (Hdeleted : deleted
    = {| ended := Some (Changed true);
         array := apply_call (pool_delete (InfiniPool.name p)) (array created);
         issued := [pool_delete (InfiniPool.name p)] |}).
  { subst deleted. destruct Hpool as [q Hq].
    unfold InfiniPool.main, InfiniPool.get_pool, InfiniPool.delete_pool. unfold_run.
    rewrite !check_capacity_acceptable by assumption. simpl.
    rewrite Hq, Hs', Hname. reflexivity. }
  rewrite Hdeleted, Hcreated. cbn [ended issued array].
  split; [reflexivity | split; [reflexivity | split; [reflexivity |]]].
  destruct b as [fw ps vs fss es hs]. simpl in Hn.
  unfold pool_creation, apply_calls.
  destruct (InfiniPool.ssd_cache p); simpl; f_equal; apply map_eq; intros m;
    destruct (decide (m = InfiniPool.name p)) as [-> | Hm];
    rewrite ?lookup_delete_eq, ?lookup_delete_ne, ?lookup_alter_ne,
      ?lookup_insert_ne by done; done.
Qed.

Lemma pool_created_then_deleted_witness :
  let p := size_10TB "foo" false in
  let p' := {| InfiniPool.name := "foo"; InfiniPool.state := absent;
               InfiniPool.size := None; InfiniPool.vsize := None;
               InfiniPool.ssd_cache := true |} in
  let created := run (InfiniPool.main p) (small_box verbatim) in
  let deleted := run (InfiniPool.main p') (array created) in
  ended created = Some (Changed true)
  ∧ ended deleted = Some (Changed true)
  ∧ issued deleted = [ pool_delete "foo" ]
  ∧ array deleted = small_box verbatim.
Proof.
  intros p p'.
  apply (pool_created_then_deleted p p' (small_box verbatim)).
  - reflexivity.
  - reflexivity.
  - reflexivity.
  - vm_compute. reflexivity.
  - intros _. vm_compute. eauto.
  - intros Hf. discriminate Hf.
  - intros Hf. discriminate Hf.
  - intros Hf. discriminate Hf.
Defined.

(** X5.  A size that is no capacity stops infini_pool before it looks at
    the array, with the message of the size, whatever the state asked
    for; a virtual size that is no capacity does the same once the size
    has passed. *)
Theorem pool_malformed_capacity_fatal (p : InfiniPool.Params) (b : InfiniBox) :
  (truthy (InfiniPool.size p) = true →
   Capacity.parse (text (InfiniPool.size p)) = None →
   run (InfiniPool.main p) b
   = failure b "size (Physical Capacity) should be define in MB, GB, TB or PB units")
  ∧ (acceptable (InfiniPool.size p) →
     truthy (InfiniPool.vsize p) = true →
     Capacity.parse (text (InfiniPool.vsize p)) = None →
     run (InfiniPool.main p) b
     = failure b "vsize (Virtual Capacity) should be define in MB, GB, TB or PB units").
Proof.
  split.
  - intros Ht Hp. unfold InfiniPool.main, check_capacity. unfold_run.
    rewrite Ht, Hp. reflexivity.
  - intros Hsz Ht Hp. unfold InfiniPool.main. unfold_run.
    rewrite check_capacity_acceptable by exact Hsz.
    unfold check_capacity. rewrite Ht, Hp. reflexivity.
Qed.

Lemma pool_malformed_capacity_fatal_witness :
  let b := small_box verbatim in
  run (InfiniPool.main
         {| InfiniPool.name := "bar"; InfiniPool.state := absent;
            InfiniPool.size := Some "ten"%string; InfiniPool.vsize := Some "x"%string;
            InfiniPool.ssd_cache := true |}) b
  = failure b "size (Physical Capacity) should be define in MB, GB, TB or PB units"
  ∧ run (InfiniPool.main
         {| InfiniPool.name := "bar"; InfiniPool.state := present;
            InfiniPool.size := Some "10TB"%string; InfiniPool.vsize := Some "x"%string;
            InfiniPool.ssd_cache := true |}) b
  = failure b "vsize (Virtual Capacity) should be define in MB, GB, TB or PB units".
Proof.
  intros b. split.
  - apply (pool_malformed_capacity_fatal _ b); reflexivity.
  - apply (pool_malformed_capacity_fatal _ b);
      [intros _; vm_compute; eauto | reflexivity | reflexivity].
Defined.

(** ** infini_vol *)

Lemma wanted_size_aligned (o : option string) (s : Z) :
  wanted_size o = Some s → s mod (64 * Capacity.KiB) = 0.
Proof.
  unfold wanted_size. destruct (truthy o); [| done].
  destruct (Capacity.parse (text o)) as [c |]; [| done].
  intros [= <-]. by apply roundup_divisible.
Qed.

Lemma vol_created (p : InfiniVol.Params) (b : InfiniBox) :
  InfiniVol.state p = present →
  volumes b !! InfiniVol.name p = None →
  is_Some (pools b !! InfiniVol.pool p) →
  acceptable (InfiniVol.size p) →
  run (InfiniVol.main p) b
  = {| ended := Some (Changed true);
       array := apply_calls (volume_creation p) b;
       issued := volume_creation p |}.
Proof.
  intros Hs Hn [q Hq] Hsz.
  unfold InfiniVol.main, InfiniVol.create_volume, InfiniVol.get_pool,
    InfiniVol.get_volume, volume_creation, wanted_size, Capacity.
  unfold_run. rewrite check_capacity_acceptable by exact Hsz. simpl.
  rewrite Hq. simpl. rewrite Hn, Hs. simpl. rewrite Hq. simpl.
  unfold acceptable in Hsz. destruct (truthy (InfiniVol.size p)); [| reflexivity].
  destruct (Hsz eq_refl) as [c Hc]. rewrite Hc. reflexivity.
Qed.

Lemma vol_updated (p : InfiniVol.Params) (b : InfiniBox) (d : Dataset) :
  InfiniVol.state p = present →
  volumes b !! InfiniVol.name p = Some d →
  is_Some (pools b !! InfiniVol.pool p) →
  acceptable (InfiniVol.size p) →
  run (InfiniVol.main p) b
  = {| ended := Some (Changed (bool_decide (volume_update p (dataset_size d) ≠ [])));
       array := apply_calls (volume_update p (dataset_size d)) b;
       issued := volume_update p (dataset_size d) |}.
Proof.
  intros Hs Hd [q Hq] Hsz.
  unfold InfiniVol.main, InfiniVol.get_pool, InfiniVol.get_volume,
    InfiniVol.update_volume, InfiniVol.get_size, volume_update, wanted_size, Capacity.
  unfold_run. rewrite check_capacity_acceptable by exact Hsz. simpl.
  rewrite Hq. simpl. rewrite Hd, Hs. simpl.
  unfold acceptable in Hsz. destruct (truthy (InfiniVol.size p)); [| reflexivity].
  destruct (Hsz eq_refl) as [c Hc]. rewrite Hc. simpl. rewrite Hd. simpl.
  destruct (bool_decide (dataset_size d ≠ _)); reflexivity.
Qed.

Lemma vol_created_lookup (p : InfiniVol.Params) (b : InfiniBox) :
  volumes (apply_calls (volume_creation p) b) !! InfiniVol.name p
  = Some {| dataset_pool := InfiniVol.pool p;
            dataset_size := default (new_dataset_size (firmware b))
                              (wanted_size (InfiniVol.size p)) |}.
Proof.
  unfold volume_creation, apply_calls.
  destruct (wanted_size (InfiniVol.size p)); simpl;
    rewrite ?lookup_alter_eq, lookup_insert_eq; reflexivity.
Qed.

Lemma vol_updated_lookup (p : InfiniVol.Params) (b : InfiniBox) (d : Dataset) :
  volumes b !! InfiniVol.name p = Some d →
  volumes (apply_calls (volume_update p (dataset_size d)) b) !! InfiniVol.name p
  = Some {| dataset_pool := dataset_pool d;
            dataset_size := default (dataset_size d) (wanted_size (InfiniVol.size p)) |}.
Proof.
  intros Hd. unfold volume_update, apply_calls. destruct d as [dp ds].
  destruct (wanted_size (InfiniVol.size p)) as [s |]; simpl; [| exact Hd].
  destruct (decide (ds = s)) as [-> | Hne].
  - rewrite bool_decide_eq_false_2 by (intros Hne; by apply Hne). exact Hd.
  - rewrite bool_decide_eq_true_2 by exact Hne. simpl.
    rewrite lookup_alter_eq, Hd. reflexivity.
Qed.

Lemma volume_update_settled (p : InfiniVol.Params) (current : Z) :
  volume_update p (default current (wanted_size (InfiniVol.size p))) = [].
Proof.
  unfold volume_update. destruct (wanted_size (InfiniVol.size p)) as [s |]; [| done].
  simpl. rewrite bool_decide_eq_false_2; [done |]. intros Hne. by apply Hne.
Qed.

Lemma volume_calls_pools (n : string) (cs : list call) (b : InfiniBox) :
  Forall (volume_call n) cs →
  pools (apply_calls cs b) = pools b
  ∧ (∀ m, m ≠ n → volumes (apply_calls cs b) !! m = volumes b !! m)
  ∧ filesystems (apply_calls cs b) = filesystems b
  ∧ exports (apply_calls cs b) = exports b
  ∧ hosts (apply_calls cs b) = hosts b.
Proof.
  intros Hall. revert b. induction Hall as [| c cs Hc _ IH]; intros b; [done |].
  change (apply_calls (c :: cs) b) with (apply_calls cs (apply_call c b)).
  destruct (IH (apply_call c b)) as (-> & Hv & -> & -> & ->).
  destruct c; simpl in Hc; try contradiction; simpl;
    (split; [done |]); (split; [| done]); intros m Hm; rewrite Hv by done; simpl.
  - subst. by rewrite lookup_insert_ne.
  - destruct Hc as [-> _]. by rewrite lookup_alter_ne.
  - subst. by rewrite lookup_delete_ne.
Qed.

Lemma volume_creation_calls (p : InfiniVol.Params) :
  Forall (volume_call (InfiniVol.name p)) (volume_creation p).
Proof.
  unfold volume_creation.
  destruct (wanted_size (InfiniVol.size p)) as [s |] eqn:Hw; repeat constructor.
  by apply (wanted_size_aligned _ _ Hw).
Qed.

Lemma volume_update_calls (p : InfiniVol.Params) (current : Z) :
  Forall (volume_call (InfiniVol.name p)) (volume_update p current).
Proof.
  unfold volume_update.
  destruct (wanted_size (InfiniVol.size p)) as [s |] eqn:Hw; [| constructor].
  destruct (bool_decide (current ≠ s)); repeat constructor.
  by apply (wanted_size_aligned _ _ Hw).
Qed.

(** X6.  A volume that is created lies in the pool of the invocation; its
    size is the given one rounded up to 64 KiB, set by a call of its own
    after the create call, or the size the array gives a new volume when
    none is given. *)
Theorem volume_created (p : InfiniVol.Params) (b : InfiniBox) :
  InfiniVol.state p = present →
  volumes b !! InfiniVol.name p = None →
  is_Some (pools b !! InfiniVol.pool p) →
  acceptable (InfiniVol.size p) →
  let r := run (InfiniVol.main p) b in
  ended r = Some (Changed true)
  ∧ issued r
    = volumes_create (InfiniVol.name p) (InfiniVol.pool p)
      :: (if truthy (InfiniVol.size p)
          then [volume_update_size (InfiniVol.name p)
                  (Capacity.roundup (default 0 (Capacity.parse (text (InfiniVol.size p))))
                     (64 * Capacity.KiB))]
          else [])
  ∧ volumes (array r) !! InfiniVol.name p
    = Some {| dataset_pool := InfiniVol.pool p;
              dataset_size :=
                if truthy (InfiniVol.size p)
                then Capacity.roundup
                       (default 0 (Capacity.parse (text (InfiniVol.size p))))
                       (64 * Capacity.KiB)
                else new_dataset_size (firmware b) |}.
Proof.
  intros Hs Hn Hq Hsz r. subst r.
  rewrite (vol_created p b Hs Hn Hq Hsz). cbn [ended issued array].
  rewrite vol_created_lookup. unfold volume_creation, wanted_size.
  unfold acceptable in Hsz. destruct (truthy (InfiniVol.size p)); [| done].
  destruct (Hsz eq_refl) as [c Hc]. rewrite Hc. done.
Qed.

Lemma volume_created_witness :
  let p := {| InfiniVol.name := "foo"; InfiniVol.state := present;
              InfiniVol.pool := "bar"; InfiniVol.size := Some "1GB"%string |} in
  let r := run (InfiniVol.main p) (small_box verbatim) in
  ended r = Some (Changed true)
  ∧ issued r = [ volumes_create "foo" "bar"; volume_update_size "foo" 1000013824 ]
  ∧ volumes (array r) !! "foo"%string
    = Some {| dataset_pool := "bar"; dataset_size := 1000013824 |}.
Proof.
  intros p.
  apply (volume_created p (small_box verbatim)).
  - reflexivity.
  - vm_compute. reflexivity.
  - vm_compute. eauto.
  - intros _. vm_compute. eauto.
Defined.

Lemma vol_present_twice (p : InfiniVol.Params) (b : InfiniBox) :
  InfiniVol.state p = present →
  is_Some (pools b !! InfiniVol.pool p) →
  acceptable (InfiniVol.size p) →
  let first := run (InfiniVol.main p) b in
  run (InfiniVol.main p) (array first) = noop (array first).
Proof.
  intros Hs Hq Hsz first.
  assert (Hsecond : ∀ cs d,
    first = {| ended := ended first; array := apply_calls cs b; issued := cs |} →
    Forall (volume_call (InfiniVol.name p)) cs →
    volumes (apply_calls cs b) !! InfiniVol.name p = Some d →
    volume_update p (dataset_size d) = [] →
    run (InfiniVol.main p) (array first) = noop (array first)).
  { intros cs d Hfirst Hcs Hd Hnil. rewrite Hfirst. cbn [array].
    rewrite (vol_updated p (apply_calls cs b) d Hs Hd); [| | exact Hsz].
    - rewrite Hnil. reflexivity.
    - destruct (volume_calls_pools _ cs b Hcs) as [-> _]. exact Hq. }
  destruct (volumes b !! InfiniVol.name p) as [d |] eqn:Hd.
  - eapply (Hsecond (volume_update p (dataset_size d))).
    + subst first. by rewrite (vol_updated p b d Hs Hd Hq Hsz).
    + apply volume_update_calls.
    + apply (vol_updated_lookup p b d Hd).
    + apply volume_update_settled.
  - eapply (Hsecond (volume_creation p)).
    + subst first. by rewrite (vol_created p b Hs Hd Hq Hsz).
    + apply volume_creation_calls.
    + apply vol_created_lookup.
    + apply volume_update_settled.
Qed.

(** X7.  Reconciling a volume with [state=present] twice with the same
    options: the second run finds nothing to do, whether the first one
    created the volume, resized it or left it, and on any array. *)
Theorem volume_present_idempotent (p : InfiniVol.Params) (b : InfiniBox) :
  InfiniVol.state p = present →
  is_Some (pools b !! InfiniVol.pool p) →
  acceptable (InfiniVol.size p) →
  let first := run (InfiniVol.main p) b in
  run (InfiniVol.main p) (array first) = noop (array first).
Proof. exact (vol_present_twice p b). Qed.

Lemma volume_present_idempotent_witness :
  let p := {| InfiniVol.name := "foo"; InfiniVol.state := present;
              InfiniVol.pool := "bar"; InfiniVol.size := Some "1GB"%string |} in
  let first := run (InfiniVol.main p) (small_box verbatim) in
  run (InfiniVol.main p) (array first) = noop (array first).
Proof.
  intros p.
  apply (volume_present_idempotent p (small_box verbatim)).
  - reflexivity.
  - vm_compute. eauto.
  - intros _. vm_compute. eauto.
Defined.

(** X8.  A volume that is there stays in the pool it is in: with
    [state=present], infini_vol issues at most a change of size, also
    when the invocation names another pool. *)
Theorem volume_never_moved (p : InfiniVol.Params) (b : InfiniBox) (d : Dataset) :
  InfiniVol.state p = present →
  volumes b !! InfiniVol.name p = Some d →
  is_Some (pools b !! InfiniVol.pool p) →
  acceptable (InfiniVol.size p) →
  let r := run (InfiniVol.main p) b in
  dataset_pool <$> volumes (array r) !! InfiniVol.name p = Some (dataset_pool d)
  ∧ ∀ c, c ∈ issued r → ∃ s, c = volume_update_size (InfiniVol.name p) s.
Proof.
  intros Hs Hd Hq Hsz r. subst r.
  rewrite (vol_updated p b d Hs Hd Hq Hsz). cbn [issued array].
  rewrite (vol_updated_lookup p b d Hd). split; [reflexivity |].
  intros c Hc. unfold volume_update in Hc.
  destruct (wanted_size (InfiniVol.size p)) as [s |]; [| by apply elem_of_nil in Hc].
  destruct (bool_decide (dataset_size d ≠ s)); [| by apply elem_of_nil in Hc].
  apply list_elem_of_singleton in Hc. eauto.
Qed.

Lemma volume_never_moved_witness :
  let b := {| firmware := verbatim;
              pools := {[ "bar"%string := {| physical_capacity := Capacity.TB;
                                            virtual_capacity := Capacity.TB;
                                            ssd_enabled := true |};
                          "baz"%string := {| physical_capacity := Capacity.TB;
                                            virtual_capacity := Capacity.TB;
                                            ssd_enabled := true |} ]};
              volumes := {[ "foo"%string := {| dataset_pool := "bar";
                                              dataset_size := Capacity.GiB |} ]};
              filesystems := ∅; exports := []; hosts := [] |} in
  let p := {| InfiniVol.name := "foo"; InfiniVol.state := present;
              InfiniVol.pool := "baz"; InfiniVol.size := Some "2GiB"%string |} in
  let r := run (InfiniVol.main p) b in
  dataset_pool <$> volumes (array r) !! "foo"%string = Some "bar"%string
  ∧ ∀ c, c ∈ issued r → ∃ s, c = volume_update_size "foo" s.
Proof.
  intros b p.
  apply (volume_never_moved p b {| dataset_pool := "bar"; dataset_size := Capacity.GiB |}).
  - reflexivity.
  - vm_compute. reflexivity.
  - vm_compute. eauto.
  - intros _. vm_compute. eauto.
Defined.

Lemma vol_main_calls (p : InfiniVol.Params) (b : InfiniBox) :
  ∃ o cs,
    run (InfiniVol.main p) b
    = {| ended := Some o; array := apply_calls cs b; issued := cs |}
    ∧ Forall (volume_call (InfiniVol.name p)) cs.
Proof.
  destruct (pools b !! InfiniVol.pool p) as [q |] eqn:Hq.
  2:{ destruct (vol_missing_pool p b Hq) as [[msg Hmsg] _].
      exists (Failed msg), []. split; [exact Hmsg | constructor]. }
  destruct (check_capacity_cases (InfiniVol.size p)
    "size (Physical Capacity) should be defined in MB, GB, TB or PB units"
    {| box := b; calls := [] |}) as [Hc | Hc].
  2:{ eexists _, []. split; [| constructor].
      unfold InfiniVol.main. unfold_run. rewrite Hc. reflexivity. }
  apply check_capacity_returns in Hc.
  destruct (InfiniVol.state p) eqn:Hs.
  - destruct (volumes b !! InfiniVol.name p) as [d |] eqn:Hd.
    + eexists _, _. split; [apply (vol_updated p b d Hs Hd); eauto |].
      apply volume_update_calls.
    + eexists _, _. split; [apply (vol_created p b Hs Hd); eauto |].
      apply volume_creation_calls.
  - unfold InfiniVol.main, InfiniVol.get_pool, InfiniVol.get_volume,
      InfiniVol.delete_volume. unfold_run.
    rewrite check_capacity_acceptable by exact Hc. simpl.
    rewrite Hq. simpl. rewrite Hs.
    destruct (volumes b !! InfiniVol.name p) as [d |] eqn:Hd; simpl.
    + exists (Changed true), [volume_delete (InfiniVol.name p)].
      split; [reflexivity | repeat constructor].
    + exists (Changed false), []. split; [reflexivity | constructor].
Qed.

(** X9.  Whatever its options and whatever the array holds, a run of
    infini_vol sets only sizes that are multiples of 64 KiB, and it
    leaves the pools, every other volume and every filesystem, export
    and host of the array as they were. *)
Theorem vol_main_frame (p : InfiniVol.Params) (b : InfiniBox) :
  let r := run (InfiniVol.main p) b in
  (∀ n s, volume_update_size n s ∈ issued r → s mod (64 * Capacity.KiB) = 0)
  ∧ pools (array r) = pools b
  ∧ (∀ m, m ≠ InfiniVol.name p → volumes (array r) !! m = volumes b !! m)
  ∧ filesystems (array r) = filesystems b
  ∧ exports (array r) = exports b
  ∧ hosts (array r) = hosts b.
Proof.
  intros r. subst r.
  destruct (vol_main_calls p b) as (o & cs & -> & Hcs). cbn [issued array].
  split; [| apply (volume_calls_pools _ _ _ Hcs)].
  intros n s Hin. rewrite Forall_forall in Hcs.
  destruct (Hcs _ Hin) as [_ Hs]. exact Hs.
Qed.

Lemma vol_main_frame_witness :
  let p := {| InfiniVol.name := "foo"; InfiniVol.state := present;
              InfiniVol.pool := "bar"; InfiniVol.size := Some "1GB"%string |} in
  let r := run (InfiniVol.main p) (small_box verbatim) in
  pools (array r) = pools (small_box verbatim)
  ∧ exports (array r) = exports (small_box verbatim).
Proof.
  intros p r.
  destruct (vol_main_frame p (small_box verbatim)) as (_ & Hpools & _ & _ & Hes & _).
  split; [exact Hpools | exact Hes].
Defined.

(** X30.  Creating a volume, with or without a size, and then removing
    it gives the array back as it was. *)
Theorem volume_created_then_deleted (p p' : InfiniVol.Params) (b : InfiniBox) :
  InfiniVol.state p = present →
  InfiniVol.state p' = absent →
  InfiniVol.name p' = InfiniVol.name p →
  volumes b !! InfiniVol.name p = None →
  is_Some (pools b !! InfiniVol.pool p) →
  is_Some (pools b !! InfiniVol.pool p') →
  acceptable (InfiniVol.size p) →
  acceptable (InfiniVol.size p') →
  let created := run (InfiniVol.main p) b in
  let deleted := run (InfiniVol.main p') (array created) in
  ended created = Some (Changed true)
  ∧ ended deleted = Some (Changed true)
  ∧ issued deleted = [ volume_delete (InfiniVol.name p) ]
  ∧ array deleted = b.
Proof.
  intros Hs Hs' Hname Hn Hq [q' Hq'] Hsz Hsz' created deleted. subst deleted created.
  rewrite (vol_created p b Hs Hn Hq Hsz). cbn [ended array].
  set (b1 := apply_calls (volume_creation p) b).
  assert (Hpools : pools b1 = pools b).
  { apply (volume_calls_pools (InfiniVol.name p)), volume_creation_calls. }
  assert (Hvol : is_Some (volumes b1 !! InfiniVol.name p')).
  { rewrite Hname. unfold b1. rewrite vol_created_lookup. by eexists. }
  assert (Hdeleted : run (InfiniVol.main p') b1
    = {| ended := Some (Changed true);
         array := apply_call (volume_delete (InfiniVol.name p)) b1;
         issued := [volume_delete (InfiniVol.name p)] |}).
  { destruct Hvol as [d Hd].
    assert (Hq'' : pools b1 !! InfiniVol.pool p' = Some q') by (by rewrite Hpools).
    unfold InfiniVol.main, InfiniVol.get_pool, InfiniVol.get_volume,
      InfiniVol.delete_volume.
    unfold_run. rewrite check_capacity_acceptable by exact Hsz'. simpl.
    rewrite Hq''. simpl. rewrite Hd, Hs', Hname. reflexivity. }
  rewrite Hdeleted. split; [done | split; [done | split; [done |]]].
  subst b1. unfold volume_creation, apply_calls.
  destruct b as [fw ps vs fss es hs]. simpl in Hn.
  destruct (wanted_size (InfiniVol.size p)); simpl; f_equal; apply map_eq; intros m;
    destruct (decide (m = InfiniVol.name p)) as [-> | Hm];
    rewrite ?lookup_delete_eq, ?lookup_delete_ne, ?lookup_alter_ne,
      ?lookup_insert_ne by done; done.
Qed.

Lemma volume_created_then_deleted_witness :
  let p := {| InfiniVol.name := "foo"; InfiniVol.state := present;
              InfiniVol.pool := "bar"; InfiniVol.size := Some "1GB"%string |} in
  let p' := {| InfiniVol.name := "foo"; InfiniVol.state := absent;
               InfiniVol.pool := "bar"; InfiniVol.size := None |} in
  let b := small_box verbatim in
  let created := run (InfiniVol.main p) b in
  let deleted := run (InfiniVol.main p') (array created) in
  ended created = Some (Changed true)
  ∧ ended deleted = Some (Changed true)
  ∧ issued deleted = [ volume_delete "foo" ]
  ∧ array deleted = b.
Proof.
  intros p p' b.
  apply (volume_created_then_deleted p p' b).
  - reflexivity.
  - reflexivity.
  - reflexivity.
  - vm_compute. reflexivity.
  - vm_compute. eauto.
  - vm_compute. eauto.
  - intros _. vm_compute. eauto.
  - intros Hf. discriminate Hf.
Defined.

(** ** infini_fs *)

Lemma fs_main_mirror (p : InfiniVol.Params) (b : InfiniBox) :
  run (InfiniFs.main (as_filesystem p)) (mirror_box b)
  = mirror_run (run (InfiniVol.main p) b).
Proof.
  unfold InfiniFs.main, InfiniVol.main,
    InfiniFs.create_filesystem, InfiniVol.create_volume,
    InfiniFs.update_filesystem, InfiniVol.update_volume,
    InfiniFs.delete_filesystem, InfiniVol.delete_volume,
    InfiniFs.get_size, InfiniVol.get_size,
    InfiniFs.get_pool, InfiniVol.get_pool,
    InfiniFs.get_filesystem, InfiniVol.get_volume, check_capacity, Capacity.
  unfold_run. unfold mirror_run. destruct p as [n st pl sz]. simpl.
  destruct (truthy sz); simpl;
    [destruct (Capacity.parse (text sz)) as [c |]; simpl; [| reflexivity] |];
    (destruct (pools b !! pl) eqn:Hq; simpl;
     [| destruct (volumes b !! n); reflexivity]);
    destruct (volumes b !! n) as [d |] eqn:Hd; simpl; destruct st; simpl;
    rewrite ?Hd, ?Hq; simpl; try reflexivity.
  all: repeat match goal with
    | |- context [bool_decide ?P] => destruct (bool_decide P); simpl
    end; reflexivity.
Qed.

(** X10.  infini_fs does on the filesystems of the array what infini_vol
    does on its volumes: on the array with the two exchanged, and for the
    same options, it ends the same way and issues the filesystem call
    for every volume call, in the same order. *)
Theorem fs_mirrors_vol (p : InfiniFs.Params) (b : InfiniBox) :
  run (InfiniFs.main p) b = mirror_run (run (InfiniVol.main (as_volume p)) (mirror_box b)).
Proof.
  rewrite <- fs_main_mirror. destruct p, b. reflexivity.
Qed.

(** X11.  Reconciling a filesystem with [state=present] twice with the
    same options: the second run finds nothing to do, on any array. *)
Theorem filesystem_present_idempotent (p : InfiniFs.Params) (b : InfiniBox) :
  InfiniFs.state p = present →
  is_Some (pools b !! InfiniFs.pool p) →
  acceptable (InfiniFs.size p) →
  let first := run (InfiniFs.main p) b in
  run (InfiniFs.main p) (array first) = noop (array first).
Proof.
  intros Hs Hq Hsz first.
  assert (Hp : p = as_filesystem (as_volume p)) by (by destruct p).
  assert (Hb : b = mirror_box (mirror_box b)) by (by destruct b).
  assert (Hfirst : first = mirror_run (run (InfiniVol.main (as_volume p)) (mirror_box b))).
  { subst first. rewrite Hp at 1. rewrite Hb at 1. apply fs_main_mirror. }
  rewrite Hfirst. cbn [mirror_run array]. rewrite Hp at 1. rewrite fs_main_mirror.
  rewrite (vol_present_twice (as_volume p) (mirror_box b) Hs Hq Hsz). reflexivity.
Qed.

Lemma filesystem_present_idempotent_witness :
  let p := {| InfiniFs.name := "fs02"; InfiniFs.state := present;
              InfiniFs.pool := "bar"; InfiniFs.size := Some "1GB"%string |} in
  let first := run (InfiniFs.main p) (small_box verbatim) in
  run (InfiniFs.main p) (array first) = noop (array first).
Proof.
  intros p.
  apply (filesystem_present_idempotent p (small_box verbatim)).
  - reflexivity.
  - vm_compute. eauto.
  - intros _. vm_compute. eauto.
Defined.

(** ** infini_export *)

Lemma update_export_existing (p : InfiniExport.Params) (i : nat) (e : Export)
    (filesystem : string) (b : InfiniBox) :
  exports b !! i = Some e →
  run (InfiniExport.update_export p (Some i) filesystem) b
  = if truthy_list (InfiniExport.client_list p)
       && bool_decide (InfiniExport.permission_set (permissions e)
                       ≠ InfiniExport.permission_set
                           (default [] (InfiniExport.client_list p)))
    then
      let c := export_update_permissions i (default [] (InfiniExport.client_list p)) in
      {| ended := Some (Changed true); array := apply_call c b; issued := [c] |}
    else noop b.
Proof.
  intros He.
  unfold InfiniExport.update_export, InfiniExport.get_permissions. unfold_run.
  destruct (truthy_list (InfiniExport.client_list p)); [| reflexivity].
  simpl. rewrite He. simpl.
  destruct (bool_decide (_ ≠ _)); reflexivity.
Qed.

Lemma update_export_missing (p : InfiniExport.Params) (b : InfiniBox) :
  run (InfiniExport.update_export p None (InfiniExport.filesystem p)) b
  = {| ended := Some (Changed true);
       array := apply_calls (export_creation p b) b;
       issued := export_creation p b |}.
Proof.
  unfold InfiniExport.update_export, InfiniExport.create, export_creation. unfold_run.
  simpl. destruct (truthy_list (InfiniExport.client_list p)); reflexivity.
Qed.

Lemma export_main_present (p : InfiniExport.Params) (b : InfiniBox) :
  InfiniExport.state p = present →
  is_Some (filesystems b !! InfiniExport.filesystem p) →
  run (InfiniExport.main p) b
  = run (InfiniExport.update_export p
           (fst <$> list_find (λ e, export_path e = InfiniExport.name p) (exports b))
           (InfiniExport.filesystem p)) b.
Proof.
  intros Hs [f Hf].
  unfold InfiniExport.main, InfiniExport.get_filesystem, InfiniExport.get_export.
  unfold_run. simpl. rewrite Hf. simpl. rewrite Hs. reflexivity.
Qed.

Lemma bool_decide_not_same (l1 l2 : list Permission) :
  bool_decide (InfiniExport.permission_set l1 ≠ InfiniExport.permission_set l2) = false
  ↔ same_entries l1 l2.
Proof.
  rewrite bool_decide_eq_false. unfold same_entries.
  rewrite <- permission_set_eq_iff.
  split; [| tauto]. intros Hnn.
  by destruct (decide (InfiniExport.permission_set l1 = InfiniExport.permission_set l2)).
Qed.

(** X12.  For an export that is there and a client list that is not
    empty, [update_export] reports [changed=false] exactly when the list
    of the export and the client list have the same entries; when they
    have not, the list of the export is replaced by the client list as a
    whole, and no other export is touched. *)
Theorem export_permissions_replaced (p : InfiniExport.Params) (b : InfiniBox)
    (i : nat) (e : Export) (filesystem : string) (l : list Permission) :
  InfiniExport.client_list p = Some l →
  l ≠ [] →
  exports b !! i = Some e →
  let r := run (InfiniExport.update_export p (Some i) filesystem) b in
  (ended r = Some (Changed false) ↔ same_entries (permissions e) l)
  ∧ (¬ same_entries (permissions e) l →
     ended r = Some (Changed true)
     ∧ issued r = [ export_update_permissions i l ]
     ∧ exports (array r) !! i
       = Some {| export_path := export_path e;
                 export_filesystem := export_filesystem e;
                 permissions := l |}
     ∧ ∀ j, j ≠ i → exports (array r) !! j = exports b !! j).
Proof.
  intros Hl Hne He r. subst r.
  rewrite (update_export_existing p i e filesystem b He), Hl.
  assert (Ht : truthy_list (Some l) = true) by (by destruct l).
  rewrite Ht. simpl.
  destruct (bool_decide (_ ≠ _)) eqn:Hd.
  - assert (Hdiff : ¬ same_entries (permissions e) l).
    { intros Hsame. apply bool_decide_not_same in Hsame. congruence. }
    split; [split; [discriminate | tauto] |].
    intros _. simpl. split; [done | split; [done | split]].
    + by rewrite list_lookup_alter_eq, He.
    + intros j Hj. by rewrite list_lookup_alter_ne.
  - apply bool_decide_not_same in Hd. split; [tauto | tauto].
Qed.

Lemma export_permissions_replaced_witness :
  let l := [ entry "10.0.0.1" "RW" true; entry "10.0.0.2" "RO" false ] in
  let p := {| InfiniExport.name := "/data"; InfiniExport.state := present;
              InfiniExport.filesystem := "fs01"; InfiniExport.client_list := Some l |} in
  let r := run (InfiniExport.update_export p (Some 0%nat) "fs01")
             (export_box [ entry "10.0.0.1" "RW" true ]) in
  ended r = Some (Changed true)
  ∧ issued r = [ export_update_permissions 0 l ]
  ∧ exports (array r) !! 0%nat
    = Some {| export_path := "/data"; export_filesystem := "fs01"; permissions := l |}.
Proof.
  intros l p.
  destruct (export_permissions_replaced p (export_box [ entry "10.0.0.1" "RW" true ]) 0
              {| export_path := "/data"; export_filesystem := "fs01";
                 permissions := [ entry "10.0.0.1" "RW" true ] |} "fs01" l)
    as [_ Hreplaced].
  - reflexivity.
  - discriminate.
  - reflexivity.
  - destruct Hreplaced as (H1 & H2 & H3 & _).
    + intros Hsame. destruct (Hsame (entry "10.0.0.2" "RO" false)) as [_ Hin].
      simpl in Hin. rewrite list_elem_of_singleton in Hin.
      assert (Hd : entry "10.0.0.2" "RO" false = entry "10.0.0.1" "RW" true).
      { apply Hin. apply list_elem_of_In. simpl. right. left. reflexivity. }
      discriminate Hd.
    + split; [exact H1 | split; [exact H2 | exact H3]].
Defined.

(** X13.  A client list that is not given or is empty changes nothing on
    an export that is there: the entries the export has stay. *)
Theorem export_empty_client_list_noop (p : InfiniExport.Params) (b : InfiniBox) :
  InfiniExport.state p = present →
  truthy_list (InfiniExport.client_list p) = false →
  is_Some (filesystems b !! InfiniExport.filesystem p) →
  Exists (λ e, export_path e = InfiniExport.name p) (exports b) →
  run (InfiniExport.main p) b = noop b.
Proof.
  intros Hs Hl Hf Hex.
  rewrite (export_main_present p b Hs Hf).
  apply Exists_exists in Hex as (e & Hin & Hp).
  destruct (list_find_elem_of (λ e, export_path e = InfiniExport.name p)
              (exports b) e Hin Hp) as [[i e'] Hfind].
  rewrite Hfind. simpl.
  apply list_find_Some in Hfind as (He' & _ & _).
  rewrite (update_export_existing p i e' _ b He'), Hl. reflexivity.
Qed.

Lemma export_empty_client_list_noop_witness :
  let b := export_box [ entry "10.0.0.1" "RW" true ] in
  run (InfiniExport.main
         {| InfiniExport.name := "/data"; InfiniExport.state := present;
            InfiniExport.filesystem := "fs01"; InfiniExport.client_list := Some [] |}) b
  = noop b.
Proof.
  intros b.
  apply (export_empty_client_list_noop _ b).
  - reflexivity.
  - reflexivity.
  - vm_compute. eauto.
  - apply Exists_cons_hd. reflexivity.
Defined.

(** X14.  An export invocation whose filesystem is not on the array
    fails with [Filesystem <name> not found] and issues no call,
    whatever the state asked for and whether the export is there or
    not. *)
Theorem export_missing_filesystem_fatal (p : InfiniExport.Params) (b : InfiniBox) :
  filesystems b !! InfiniExport.filesystem p = None →
  run (InfiniExport.main p) b
  = failure b ("Filesystem " +:+ InfiniExport.filesystem p +:+ " not found").
Proof.
  intros Hf.
  unfold InfiniExport.main, InfiniExport.get_filesystem, InfiniExport.get_export.
  unfold_run. simpl. rewrite Hf. reflexivity.
Qed.

Lemma export_missing_filesystem_fatal_witness :
  let b := export_box [ entry "10.0.0.1" "RW" true ] in
  run (InfiniExport.main
         {| InfiniExport.name := "/data"; InfiniExport.state := absent;
            InfiniExport.filesystem := "fs09"; InfiniExport.client_list := None |}) b
  = failure b "Filesystem fs09 not found".
Proof.
  intros b.
  apply (export_missing_filesystem_fatal
           {| InfiniExport.name := "/data"; InfiniExport.state := absent;
              InfiniExport.filesystem := "fs09"; InfiniExport.client_list := None |} b).
  vm_compute. reflexivity.
Defined.

Lemma list_find_alter_keeps {A} (P : A → Prop) `{!∀ x, Decision (P x)}
    (f : A → A) (l : list A) (i j : nat) (x : A) :
  (∀ y, P (f y) ↔ P y) →
  list_find P l = Some (j, x) →
  list_find P (alter f i l) = Some (j, if decide (i = j) then f x else x).
Proof.
  intros Hf (Hj & HP & Hleast)%list_find_Some. apply list_find_Some.
  split; [| split].
  - rewrite list_lookup_alter. destruct (decide (i = j)) as [-> |]; [| done].
    by rewrite Hj.
  - destruct (decide (i = j)); [by apply Hf | done].
  - intros k y Hk Hlt. rewrite list_lookup_alter in Hk.
    destruct (decide (i = k)) as [-> |]; [| by eapply Hleast].
    apply fmap_Some in Hk as (z & Hz & ->). rewrite Hf. by eapply Hleast.
Qed.

Lemma list_find_appended {A} (P : A → Prop) `{!∀ x, Decision (P x)}
    (l : list A) (x : A) :
  ¬ Exists P l → P x → list_find P (l ++ [x]) = Some (length l, x).
Proof.
  intros Hn HP. rewrite list_find_app_r by (by apply list_find_absent).
  simpl. rewrite decide_True by exact HP. reflexivity.
Qed.

(** X15.  Reconciling an export with [state=present] twice with the same
    options: the second run finds nothing to do, whether the first one
    created the export, replaced its client list or left it, and on any
    array. *)
Theorem export_present_idempotent (p : InfiniExport.Params) (b : InfiniBox) :
  InfiniExport.state p = present →
  is_Some (filesystems b !! InfiniExport.filesystem p) →
  let first := run (InfiniExport.main p) b in
  run (InfiniExport.main p) (array first) = noop (array first).
Proof.
  intros Hs Hf first.
  assert (Hfirst := export_main_present p b Hs Hf). fold first in Hfirst.
  set (P := λ e, export_path e = InfiniExport.name p) in *.
  set (l := default [] (InfiniExport.client_list p)).
  set (g := λ e, {| export_path := export_path e;
                    export_filesystem := export_filesystem e;
                    permissions := l |}).
  assert (Hg : ∀ y, P (g y) ↔ P y) by done.
  assert (Hsettled : ∀ i e b',
    filesystems b' = filesystems b →
    list_find P (exports b') = Some (i, e) →
    (truthy_list (InfiniExport.client_list p) = true →
     InfiniExport.permission_set (permissions e) = InfiniExport.permission_set l) →
    run (InfiniExport.main p) b' = noop b').
  { intros i e b' Hfs Hfind Hperm.
    rewrite (export_main_present p b' Hs) by (by rewrite Hfs).
    fold P. rewrite Hfind. simpl.
    apply list_find_Some in Hfind as (He & _ & _).
    rewrite (update_export_existing p i e _ b' He).
    destruct (truthy_list (InfiniExport.client_list p)); [| reflexivity].
    fold l. rewrite bool_decide_eq_false_2; [reflexivity |].
    intros Hne. by apply Hne, Hperm. }
  destruct (list_find P (exports b)) as [[i e] |] eqn:Hfind; simpl in Hfirst.
  - pose proof Hfind as (He & _ & _)%list_find_Some.
    rewrite (update_export_existing p i e _ b He) in Hfirst. fold l in Hfirst.
    destruct (truthy_list (InfiniExport.client_list p)
              && bool_decide (InfiniExport.permission_set (permissions e)
                              ≠ InfiniExport.permission_set l)) eqn:Hcond.
    + rewrite Hfirst. cbn [array]. eapply Hsettled; [reflexivity | |].
      * simpl. apply (list_find_alter_keeps P g _ i i e Hg Hfind).
      * intros _. rewrite decide_True by reflexivity. reflexivity.
    + rewrite Hfirst. cbn [noop array]. eapply Hsettled; [reflexivity | exact Hfind |].
      intros Ht. rewrite Ht in Hcond. simpl in Hcond.
      apply bool_decide_eq_false in Hcond.
      by destruct (decide (InfiniExport.permission_set (permissions e)
                           = InfiniExport.permission_set l)).
  - rewrite update_export_missing in Hfirst. rewrite Hfirst. cbn [array].
    assert (Hnone : ¬ Exists P (exports b)).
    { apply list_find_None in Hfind. intros Hex.
      apply Exists_exists in Hex as (e & Hin & HP).
      rewrite Forall_forall in Hfind. by apply (Hfind e). }
    pose proof (list_find_appended P (exports b)
      {| export_path := InfiniExport.name p;
         export_filesystem := InfiniExport.filesystem p;
         permissions := new_export_permissions (firmware b) |} Hnone eq_refl) as Hnew.
    unfold export_creation.
    destruct (truthy_list (InfiniExport.client_list p)) eqn:Ht.
    + eapply Hsettled; [reflexivity | |].
      * simpl. apply (list_find_alter_keeps P g _ _ _ _ Hg Hnew).
      * intros _. rewrite decide_True by reflexivity. reflexivity.
    + eapply Hsettled; [reflexivity | exact Hnew | intros Hf'; discriminate Hf'].
Qed.

Lemma export_present_idempotent_witness :
  let p := {| InfiniExport.name := "/data02"; InfiniExport.state := present;
              InfiniExport.filesystem := "fs01";
              InfiniExport.client_list :=
                Some [ entry "10.0.0.1" "RW" true; entry "10.0.0.1" "RW" true ] |} in
  let first := run (InfiniExport.main p) (export_box []) in
  run (InfiniExport.main p) (array first) = noop (array first).
Proof.
  intros p.
  apply (export_present_idempotent p (export_box [])).
  - reflexivity.
  - vm_compute. eauto.
Defined.

(** X16.  Creating an export and then removing it gives the array back
    as it was, whatever client list the export was created with. *)
Theorem export_created_then_deleted (p p' : InfiniExport.Params) (b : InfiniBox) :
  InfiniExport.state p = present →
  InfiniExport.state p' = absent →
  InfiniExport.name p' = InfiniExport.name p →
  is_Some (filesystems b !! InfiniExport.filesystem p) →
  is_Some (filesystems b !! InfiniExport.filesystem p') →
  ¬ Exists (λ e, export_path e = InfiniExport.name p) (exports b) →
  let created := run (InfiniExport.main p) b in
  let deleted := run (InfiniExport.main p') (array created) in
  ended created = Some (Changed true)
  ∧ ended deleted = Some (Changed true)
  ∧ issued deleted = [ export_delete (length (exports b)) ]
  ∧ array deleted = b.
Proof.
  intros Hs Hs' Hname Hf [f' Hf'] Hnone created deleted.
  set (P := λ e, export_path e = InfiniExport.name p) in *.
  assert (Hcreated : created
    = {| ended := Some (Changed true);
         array := apply_calls (export_creation p b) b;
         issued := export_creation p b |}).
  { subst created. rewrite (export_main_present p b Hs Hf).
    fold P. rewrite list_find_absent by exact Hnone. apply update_export_missing. }
  set (l := default [] (InfiniExport.client_list p)).
  set (g := λ e, {| export_path := export_path e;
                    export_filesystem := export_filesystem e;
                    permissions := l |}).
  assert (Hg : ∀ y, P (g y) ↔ P y) by done.
  pose proof (list_find_appended P (exports b)
    {| export_path := InfiniExport.name p;
       export_filesystem := InfiniExport.filesystem p;
       permissions := new_export_permissions (firmware b) |} Hnone eq_refl) as Hnew.
  assert (Hfound : ∃ e, list_find P (exports (array created))
                        = Some (length (exports b), e)).
  { rewrite Hcreated. unfold export_creation. cbn [array].
    destruct (truthy_list (InfiniExport.client_list p)); simpl.
    - eexists. apply (list_find_alter_keeps P g _ _ _ _ Hg Hnew).
    - eexists. exact Hnew. }
  assert (Hfs : filesystems (array created) = filesystems b).
  { rewrite Hcreated. unfold export_creation.
    destruct (truthy_list (InfiniExport.client_list p)); reflexivity. }
  destruct Hfound as [e Hfound].
  assert (Hdeleted : deleted
    = {| ended := Some (Changed true);
         array := apply_call (export_delete (length (exports b))) (array created);
         issued := [export_delete (length (exports b))] |}).
  { subst deleted.
    unfold InfiniExport.main, InfiniExport.get_filesystem, InfiniExport.get_export,
      InfiniExport.delete_export.
    assert (Hf'' : filesystems (array created) !! InfiniExport.filesystem p' = Some f')
      by (by rewrite Hfs).
    unfold_run. simpl. rewrite Hf''. simpl. rewrite Hname. fold P.
    rewrite Hfound. simpl. rewrite Hs'. reflexivity. }
  rewrite Hdeleted. split; [by rewrite Hcreated | split; [done | split; [done |]]].
  rewrite Hcreated. cbn [array]. unfold export_creation.
  destruct b as [fw ps vs fss es hs].
  destruct (truthy_list (InfiniExport.client_list p)); simpl; f_equal.
  - replace (alter g (length es)
               (es ++ [ {| export_path := InfiniExport.name p;
                           export_filesystem := InfiniExport.filesystem p;
                           permissions := new_export_permissions fw |} ]))
      with (es ++ [g {| export_path := InfiniExport.name p;
                        export_filesystem := InfiniExport.filesystem p;
                        permissions := new_export_permissions fw |}]).
    + rewrite delete_middle. apply app_nil_r.
    + clear. induction es; simpl; [reflexivity | by f_equal].
  - rewrite delete_middle. apply app_nil_r.
Qed.

Lemma export_created_then_deleted_witness :
  let p := {| InfiniExport.name := "/data02"; InfiniExport.state := present;
              InfiniExport.filesystem := "fs01";
              InfiniExport.client_list := Some [ entry "10.0.0.1" "RW" true ] |} in
  let p' := {| InfiniExport.name := "/data02"; InfiniExport.state := absent;
               InfiniExport.filesystem := "fs01"; InfiniExport.client_list := None |} in
  let b := export_box [ entry "*" "RW" true ] in
  let created := run (InfiniExport.main p) b in
  let deleted := run (InfiniExport.main p') (array created) in
  ended created = Some (Changed true)
  ∧ ended deleted = Some (Changed true)
  ∧ issued deleted = [ export_delete 1 ]
  ∧ array deleted = b.
Proof.
  intros p p' b.
  apply (export_created_then_deleted p p' b).
  - reflexivity.
  - reflexivity.
  - reflexivity.
  - vm_compute. eauto.
  - vm_compute. eauto.
  - intros Hex. apply Exists_exists in Hex as (e & He & Hp).
    apply list_elem_of_singleton in He. subst e. discriminate Hp.
Defined.

(** ** infini_export_client *)

Lemma update_client_whole (p : InfiniExportClient.Params) (i : nat) (e : Export)
    (b : InfiniBox) :
  exports b !! i = Some e →
  run (InfiniExportClient.update_client p i) b
  = if existsb (stale p) (permissions e)
       || negb (has_client (InfiniExportClient.client p) (permissions e))
    then
      let c := export_update_permissions i (upserted p (permissions e)) in
      {| ended := Some (Changed true); array := apply_call c b; issued := [c] |}
    else noop b.
Proof.
  intros He.
  unfold InfiniExportClient.update_client, InfiniExportClient.get_permissions, upserted.
  unfold_run. simpl. rewrite He.
  rewrite update_items_upsert. simpl.
  destruct (has_client _ _); simpl.
  - rewrite orb_false_r, app_nil_r. destruct (existsb _ _); reflexivity.
  - rewrite orb_true_r. reflexivity.
Qed.

Lemma stale_upsert (p : InfiniExportClient.Params) (item : Permission) :
  stale p (upsert p item) = false.
Proof.
  unfold stale, upsert.
  destruct (bool_decide (Munch.client item = InfiniExportClient.client p)) eqn:Hc.
  - simpl. rewrite Hc. simpl.
    rewrite !bool_decide_eq_false_2; [reflexivity | |]; intros Hne; by apply Hne.
  - rewrite Hc. reflexivity.
Qed.

Lemma stale_new_entry (p : InfiniExportClient.Params) : stale p (new_entry p) = false.
Proof.
  unfold stale, new_entry. simpl.
  rewrite (bool_decide_eq_false_2 (_ ≠ InfiniExportClient.access_mode p))
    by (intros Hne; by apply Hne).
  rewrite (bool_decide_eq_false_2 (_ ≠ InfiniExportClient.no_root_squash p))
    by (intros Hne; by apply Hne).
  apply andb_false_r.
Qed.

Lemma client_upsert (p : InfiniExportClient.Params) (item : Permission) :
  Munch.client (upsert p item) = Munch.client item.
Proof. unfold upsert. by destruct (bool_decide _). Qed.

Lemma upserted_settled (p : InfiniExportClient.Params) (l : list Permission) :
  existsb (stale p) (upserted p l) = false
  ∧ has_client (InfiniExportClient.client p) (upserted p l) = true.
Proof.
  unfold upserted, has_client. rewrite !existsb_app. split.
  - apply orb_false_iff. split.
    + induction l as [| item l IH]; [reflexivity |].
      rewrite fmap_cons. cbn [existsb]. by rewrite stale_upsert, IH.
    + destruct (existsb _ l); [reflexivity |]. simpl.
      by rewrite stale_new_entry.
  - destruct (existsb _ l) eqn:Hhas.
    + rewrite orb_false_r. revert Hhas.
      induction l as [| item l IH]; [done |].
      rewrite fmap_cons. cbn [existsb].
      rewrite client_upsert. intros [Hx | Hx]%orb_true_iff.
      * by rewrite Hx.
      * rewrite (IH Hx). apply orb_true_r.
    + simpl. rewrite bool_decide_eq_true_2 by reflexivity. apply orb_true_r.
Qed.

Lemma upsert_other (p : InfiniExportClient.Params) (l : list Permission) :
  has_client (InfiniExportClient.client p) l = false → upsert p <$> l = l.
Proof.
  unfold has_client. induction l as [| item l IH]; [done |].
  rewrite fmap_cons. cbn [existsb].
  intros [Hx Hl]%orb_false_iff. rewrite (IH Hl). f_equal.
  unfold upsert. by rewrite Hx.
Qed.

(** X17.  An export client invocation whose export is not on the array
    fails with [Export with export path <path> not found] and issues no
    call, for [state=present] as for [state=absent]: the module does not
    create exports. *)
Theorem export_client_missing_export_fatal (p : InfiniExportClient.Params)
    (b : InfiniBox) :
  ¬ Exists (λ e, export_path e = InfiniExportClient.export p) (exports b) →
  run (InfiniExportClient.main p) b
  = failure b ("Export with export path " +:+ InfiniExportClient.export p +:+ " not found").
Proof.
  intros Hn.
  unfold InfiniExportClient.main, InfiniExportClient.get_export. unfold_run. simpl.
  rewrite list_find_absent by exact Hn. reflexivity.
Qed.

Lemma export_client_missing_export_fatal_witness :
  let b := export_box [ entry "10.0.0.1" "RW" true ] in
  run (InfiniExportClient.main
         {| InfiniExportClient.client := "10.0.0.1";
            InfiniExportClient.access_mode := "RW";
            InfiniExportClient.no_root_squash := false;
            InfiniExportClient.state := present;
            InfiniExportClient.export := "/data09" |}) b
  = failure b "Export with export path /data09 not found".
Proof.
  intros b.
  apply (export_client_missing_export_fatal
           {| InfiniExportClient.client := "10.0.0.1";
              InfiniExportClient.access_mode := "RW";
              InfiniExportClient.no_root_squash := false;
              InfiniExportClient.state := present;
              InfiniExportClient.export := "/data09" |} b).
  intros Hex. apply Exists_exists in Hex as (e & He & Hp).
  apply list_elem_of_singleton in He. subst e. discriminate Hp.
Defined.

(** X18.  For a client the export does not list, [update_client] appends
    one entry with the client, the access mode and the squash flag of
    the invocation after the entries that are there, which stay as they
    are, and reports [changed=true]. *)
Theorem update_client_appends (p : InfiniExportClient.Params) (i : nat) (e : Export)
    (b : InfiniBox) :
  exports b !! i = Some e →
  has_client (InfiniExportClient.client p) (permissions e) = false →
  let r := run (InfiniExportClient.update_client p i) b in
  ended r = Some (Changed true)
  ∧ issued r = [ export_update_permissions i (permissions e ++ [new_entry p]) ]
  ∧ permissions <$> exports (array r) !! i = Some (permissions e ++ [new_entry p]).
Proof.
  intros He Hhas r. subst r.
  rewrite (update_client_whole p i e b He), Hhas, orb_true_r.
  unfold upserted. rewrite Hhas, (upsert_other p _ Hhas). simpl.
  split; [done | split; [done |]].
  by rewrite list_lookup_alter_eq, He.
Qed.

Lemma update_client_appends_witness :
  let p := {| InfiniExportClient.client := "10.0.0.3";
              InfiniExportClient.access_mode := "RO";
              InfiniExportClient.no_root_squash := false;
              InfiniExportClient.state := present;
              InfiniExportClient.export := "/data" |} in
  let l := [ entry "10.0.0.1" "RW" true; entry "10.0.0.2" "RW" false ] in
  let r := run (InfiniExportClient.update_client p 0) (export_box l) in
  ended r = Some (Changed true)
  ∧ issued r = [ export_update_permissions 0 (l ++ [ entry "10.0.0.3" "RO" false ]) ]
  ∧ permissions <$> exports (array r) !! 0%nat
    = Some (l ++ [ entry "10.0.0.3" "RO" false ]).
Proof.
  intros p l.
  apply (update_client_appends p 0
           {| export_path := "/data"; export_filesystem := "fs01"; permissions := l |}
           (export_box l)).
  - reflexivity.
  - reflexivity.
Defined.

(** X19.  [update_client] twice with the same options: the second run
    finds nothing to do, whether the first one added the client, changed
    its entries or left them. *)
Theorem update_client_idempotent (p : InfiniExportClient.Params) (i : nat) (e : Export)
    (b : InfiniBox) :
  exports b !! i = Some e →
  let first := run (InfiniExportClient.update_client p i) b in
  run (InfiniExportClient.update_client p i) (array first) = noop (array first).
Proof.
  intros He first. subst first.
  rewrite (update_client_whole p i e b He).
  destruct (existsb (stale p) (permissions e)
            || negb (has_client (InfiniExportClient.client p) (permissions e))) eqn:Hc.
  - cbn [array].
    erewrite update_client_whole
      by (simpl; rewrite list_lookup_alter_eq, He; reflexivity).
    cbn [permissions].
    destruct (upserted_settled p (permissions e)) as [-> ->]. reflexivity.
  - cbn [noop array]. by rewrite (update_client_whole p i e b He), Hc.
Qed.

Lemma update_client_idempotent_witness :
  let p := {| InfiniExportClient.client := "10.0.0.1";
              InfiniExportClient.access_mode := "RO";
              InfiniExportClient.no_root_squash := false;
              InfiniExportClient.state := present;
              InfiniExportClient.export := "/data" |} in
  let l := [ entry "10.0.0.1" "RW" true; entry "10.0.0.2" "RW" false ] in
  let first := run (InfiniExportClient.update_client p 0) (export_box l) in
  run (InfiniExportClient.update_client p 0) (array first) = noop (array first).
Proof.
  intros p l.
  apply (update_client_idempotent p 0
           {| export_path := "/data"; export_filesystem := "fs01"; permissions := l |}
           (export_box l)).
  reflexivity.
Defined.

(** X20.  [update_client] reports [changed=false], and then issues no
    call, exactly when the export lists the client and every entry it
    lists for the client has the access mode and the squash flag of the
    invocation. *)
Theorem update_client_unchanged_iff (p : InfiniExportClient.Params) (i : nat)
    (e : Export) (b : InfiniBox) :
  exports b !! i = Some e →
  let r := run (InfiniExportClient.update_client p i) b in
  (ended r = Some (Changed false)
   ↔ (∃ item, item ∈ permissions e
              ∧ Munch.client item = InfiniExportClient.client p)
     ∧ ∀ item, item ∈ permissions e →
         Munch.client item = InfiniExportClient.client p →
         Munch.access item = InfiniExportClient.access_mode p
         ∧ Munch.no_root_squash item = InfiniExportClient.no_root_squash p)
  ∧ (ended r = Some (Changed false) → r = noop b).
Proof.
  intros He r. subst r.
  rewrite (update_client_whole p i e b He).
  assert (Hhas : has_client (InfiniExportClient.client p) (permissions e) = true
                 ↔ ∃ item, item ∈ permissions e
                           ∧ Munch.client item = InfiniExportClient.client p).
  { unfold has_client. rewrite existsb_exists. split.
    - intros (x & Hin & Hx). exists x. split; [by apply list_elem_of_In |].
      by apply bool_decide_eq_true in Hx.
    - intros (x & Hin & Hx). exists x. split; [by apply list_elem_of_In |].
      by apply bool_decide_eq_true. }
  assert (Hstale : existsb (stale p) (permissions e) = false
                   ↔ ∀ item, item ∈ permissions e →
                       Munch.client item = InfiniExportClient.client p →
                       Munch.access item = InfiniExportClient.access_mode p
                       ∧ Munch.no_root_squash item = InfiniExportClient.no_root_squash p).
  { rewrite <- not_true_iff_false, existsb_exists. split.
    - intros Hnone x Hin Hx.
      destruct (decide (Munch.access x = InfiniExportClient.access_mode p)) as [Ha | Ha];
        destruct (decide (Munch.no_root_squash x = InfiniExportClient.no_root_squash p))
          as [Hq | Hq]; [done | | |];
        exfalso; apply Hnone; exists x; (split; [by apply list_elem_of_In |]);
        unfold stale; rewrite (bool_decide_eq_true_2 _ Hx); simpl;
        apply orb_true_iff; [right | left | left]; by apply bool_decide_eq_true.
    - intros Hall (x & Hin & Hx). apply list_elem_of_In in Hin.
      unfold stale in Hx. apply andb_true_iff in Hx as [Hc Hd].
      apply bool_decide_eq_true in Hc. destruct (Hall x Hin Hc) as [Ha Hq].
      apply orb_true_iff in Hd as [Hd | Hd]; apply bool_decide_eq_true in Hd; by apply Hd. }
  destruct (existsb (stale p) (permissions e)) eqn:Hs;
    destruct (has_client (InfiniExportClient.client p) (permissions e)) eqn:Hh; simpl.
  - split; [| discriminate]. split; [discriminate |].
    intros [_ Hall]. apply Hstale in Hall. discriminate Hall.
  - split; [| discriminate]. split; [discriminate |].
    intros [Hex _]. apply Hhas in Hex. discriminate Hex.
  - split; [| done]. split; [| done]. intros _. split; [by apply Hhas | by apply Hstale].
  - split; [| discriminate]. split; [discriminate |].
    intros [Hex _]. apply Hhas in Hex. discriminate Hex.
Qed.

Lemma update_client_unchanged_iff_witness :
  let p := {| InfiniExportClient.client := "10.0.0.1";
              InfiniExportClient.access_mode := "RW";
              InfiniExportClient.no_root_squash := true;
              InfiniExportClient.state := present;
              InfiniExportClient.export := "/data" |} in
  let l := [ entry "10.0.0.1" "RW" true; entry "10.0.0.2" "RO" false ] in
  run (InfiniExportClient.update_client p 0) (export_box l) = noop (export_box l).
Proof.
  intros p l.
  destruct (update_client_unchanged_iff p 0
              {| export_path := "/data"; export_filesystem := "fs01"; permissions := l |}
              (export_box l) eq_refl) as [_ Hnoop].
  apply Hnoop. reflexivity.
Defined.

Lemma delete_skipping_others (c : string) (l : list Permission) :
  filter (λ item, Munch.client item ≠ c) (delete_skipping c l)
  = filter (λ item, Munch.client item ≠ c) l.
Proof.
  remember (length l) as n eqn:Hn.
  assert (Hle : (length l ≤ n)%nat) by lia. clear Hn.
  revert l Hle. induction n as [| n IH]; intros l Hle.
  - destruct l; [done | simpl in Hle; lia].
  - destruct l as [| item rest]; [done |]. cbn [delete_skipping].
    destruct (decide (Munch.client item = c)) as [Heq | Hne].
    + rewrite bool_decide_eq_true_2 by exact Heq.
      rewrite (filter_cons_False _ item) by (intros Hc; by apply Hc).
      destruct rest as [| next rest']; [done |].
      destruct (decide (Munch.client next = c)) as [Hnext | Hnext].
      * rewrite !(filter_cons_False _ next) by (intros Hc; by apply Hc).
        apply IH. simpl in Hle. lia.
      * rewrite !(filter_cons_True _ next) by exact Hnext.
        f_equal. apply IH. simpl in Hle. lia.
    + rewrite bool_decide_eq_false_2 by exact Hne.
      rewrite !(filter_cons_True _ item) by exact Hne.
      f_equal. apply IH. simpl in Hle. lia.
Qed.

Lemma delete_skipping_shorter (c : string) (l : list Permission) :
  (length (delete_skipping c l) ≤ length l)%nat
  ∧ (has_client c l = true → (length (delete_skipping c l) < length l)%nat).
Proof.
  assert (Hall : ∀ n l, (length l ≤ n)%nat →
    (length (delete_skipping c l) ≤ length l)%nat
    ∧ (has_client c l = true → (length (delete_skipping c l) < length l)%nat)).
  { clear l. induction n as [| n IH]; intros l Hle.
    - destruct l; [split; [done | discriminate] | simpl in Hle; lia].
    - destruct l as [| item rest]; [split; [done | discriminate] |].
      cbn [delete_skipping has_client existsb].
      destruct (bool_decide (Munch.client item = c)).
      + destruct rest as [| next rest'].
        * cbn [length]. split; [lia | intros _; lia].
        * destruct (IH rest' ltac:(simpl in Hle; lia)) as [Hr _].
          cbv iota. cbn [length] in *. split; [lia | intros _; lia].
      + destruct (IH rest ltac:(simpl in Hle; lia)) as [Hr Hs].
        cbn [length orb]. split; [lia |]. intros Hh. specialize (Hs Hh). lia. }
  apply (Hall (length l)). lia.
Qed.

(** X21.  [delete_client] never removes an entry of another client: the
    entries of the other clients are sent back all, in their order.  It
    reports [changed=true] exactly when the list has an entry for the
    client, and the list it sends back is then shorter; when the list has
    none it issues no call. *)
Theorem delete_client_keeps_others (p : InfiniExportClient.Params) (i : nat)
    (e : Export) (b : InfiniBox) :
  exports b !! i = Some e →
  let c := InfiniExportClient.client p in
  let r := run (InfiniExportClient.delete_client p i) b in
  ended r = Some (Changed (has_client c (permissions e)))
  ∧ (has_client c (permissions e) = false → r = noop b)
  ∧ ∃ l, permissions <$> exports (array r) !! i = Some l
         ∧ filter (λ item, Munch.client item ≠ c) l
           = filter (λ item, Munch.client item ≠ c) (permissions e)
         ∧ (has_client c (permissions e) = true →
            issued r = [ export_update_permissions i l ]
            ∧ (length l < length (permissions e))%nat).
Proof.
  intros He c r. subst r.
  rewrite (delete_client_run p i e b He). fold c.
  destruct (has_client c (permissions e)) eqn:Hh.
  - split; [done | split; [discriminate |]].
    exists (delete_skipping c (permissions e)). cbn [array issued]. simpl.
    rewrite list_lookup_alter_eq, He. split; [done |].
    split; [apply delete_skipping_others |]. intros _. split; [done |].
    by apply delete_skipping_shorter.
  - split; [done | split; [done |]].
    exists (permissions e). cbn [noop array]. rewrite He.
    split; [done | split; [done | discriminate]].
Qed.

Lemma delete_client_keeps_others_witness :
  let p := {| InfiniExportClient.client := "10.0.0.1";
              InfiniExportClient.access_mode := "RW";
              InfiniExportClient.no_root_squash := false;
              InfiniExportClient.state := absent;
              InfiniExportClient.export := "/data" |} in
  let l := [ entry "10.0.0.2" "RW" true; entry "10.0.0.1" "RW" false;
             entry "10.0.0.1" "RO" false; entry "10.0.0.3" "RO" false ] in
  let r := run (InfiniExportClient.delete_client p 0) (export_box l) in
  ended r = Some (Changed true)
  ∧ ∃ l', permissions <$> exports (array r) !! 0%nat = Some l'
          ∧ filter (λ item, Munch.client item ≠ "10.0.0.1"%string) l'
            = [ entry "10.0.0.2" "RW" true; entry "10.0.0.3" "RO" false ].
Proof.
  intros p l.
  destruct (delete_client_keeps_others p 0
              {| export_path := "/data"; export_filesystem := "fs01"; permissions := l |}
              (export_box l) eq_refl) as (Hended & _ & l' & Hl' & Hothers & _).
  split; [exact Hended |]. exists l'. split; [exact Hl' | exact Hothers].
Defined.

(** X22.  Where no two entries for the client are neighbours in the
    list, [delete_client] removes every entry for the client and nothing
    else. *)
Theorem delete_client_removes_all_apart (p : InfiniExportClient.Params) (i : nat)
    (e : Export) (b : InfiniBox) :
  exports b !! i = Some e →
  let c := InfiniExportClient.client p in
  has_client c (permissions e) = true →
  neighbours c (permissions e) = false →
  let r := run (InfiniExportClient.delete_client p i) b in
  issued r = [ export_update_permissions i
                 (filter (λ item, Munch.client item ≠ c) (permissions e)) ]
  ∧ permissions <$> exports (array r) !! i
    = Some (filter (λ item, Munch.client item ≠ c) (permissions e))
  ∧ ∀ j, j ≠ i → exports (array r) !! j = exports b !! j.
Proof.
  intros He c Hh Hn r. subst r.
  rewrite (delete_client_run p i e b He). fold c. rewrite Hh.
  rewrite (delete_skipping_filter c _ Hn). simpl.
  split; [done | split].
  - by rewrite list_lookup_alter_eq, He.
  - intros j Hj. by rewrite list_lookup_alter_ne.
Qed.

Lemma delete_client_removes_all_apart_witness :
  let p := {| InfiniExportClient.client := "10.0.0.1";
              InfiniExportClient.access_mode := "RW";
              InfiniExportClient.no_root_squash := false;
              InfiniExportClient.state := absent;
              InfiniExportClient.export := "/data" |} in
  let l := [ entry "10.0.0.1" "RW" true; entry "10.0.0.2" "RW" false;
             entry "10.0.0.1" "RO" false ] in
  let r := run (InfiniExportClient.delete_client p 0) (export_box l) in
  issued r = [ export_update_permissions 0 [ entry "10.0.0.2" "RW" false ] ]
  ∧ permissions <$> exports (array r) !! 0%nat = Some [ entry "10.0.0.2" "RW" false ].
Proof.
  intros p l.
  destruct (delete_client_removes_all_apart p 0
              {| export_path := "/data"; export_filesystem := "fs01"; permissions := l |}
              (export_box l) eq_refl eq_refl eq_refl) as (Hissued & Hperm & _).
  split; [exact Hissued | exact Hperm].
Defined.

Lemma delete_skipping_last (c : string) (l : list Permission) (x : Permission) :
  has_client c l = false →
  Munch.client x = c →
  delete_skipping c (l ++ [x]) = l ∧ has_client c (l ++ [x]) = true.
Proof.
  intros Hh Hx. unfold has_client in *.
  induction l as [| item l IH]; simpl.
  - by rewrite bool_decide_eq_true_2.
  - simpl in Hh. apply orb_false_iff in Hh as [Hi Hl].
    rewrite Hi. destruct (IH Hl) as [-> ->]. done.
Qed.

(** X23.  Adding a client the export does not list and then removing it
    gives the array back as it was. *)
Theorem client_added_then_removed (p p' : InfiniExportClient.Params) (i : nat)
    (e : Export) (b : InfiniBox) :
  exports b !! i = Some e →
  InfiniExportClient.client p' = InfiniExportClient.client p →
  has_client (InfiniExportClient.client p) (permissions e) = false →
  let added := run (InfiniExportClient.update_client p i) b in
  let removed := run (InfiniExportClient.delete_client p' i) (array added) in
  ended added = Some (Changed true)
  ∧ ended removed = Some (Changed true)
  ∧ array removed = b.
Proof.
  intros He Hc Hh added removed.
  assert (Hadded : added
    = {| ended := Some (Changed true);
         array := apply_call (export_update_permissions i
                                (permissions e ++ [new_entry p])) b;
         issued := [export_update_permissions i (permissions e ++ [new_entry p])] |}).
  { subst added. rewrite (update_client_whole p i e b He), Hh, orb_true_r.
    unfold upserted. by rewrite Hh, (upsert_other p _ Hh). }
  destruct (delete_skipping_last (InfiniExportClient.client p) (permissions e)
              (new_entry p) Hh eq_refl) as [Hskip Hhas].
  assert (Hremoved : removed
    = {| ended := Some (Changed true);
         array := apply_call (export_update_permissions i (permissions e)) (array added);
         issued := [export_update_permissions i (permissions e)] |}).
  { subst removed. rewrite Hadded. cbn [array].
    erewrite delete_client_run
      by (simpl; rewrite list_lookup_alter_eq, He; reflexivity).
    cbn [permissions]. by rewrite Hc, Hhas, Hskip. }
  rewrite Hremoved, Hadded. split; [done | split; [done |]].
  destruct b as [fw ps vs fss es hs]. simpl in *. f_equal.
  rewrite list_alter_alter_eq. apply list_eq. intros j.
  destruct (decide (i = j)) as [<- | Hj].
  - rewrite list_lookup_alter_eq, He. by destruct e.
  - by rewrite list_lookup_alter_ne.
Qed.

Lemma client_added_then_removed_witness :
  let p := {| InfiniExportClient.client := "10.0.0.3";
              InfiniExportClient.access_mode := "RO";
              InfiniExportClient.no_root_squash := false;
              InfiniExportClient.state := present;
              InfiniExportClient.export := "/data" |} in
  let p' := {| InfiniExportClient.client := "10.0.0.3";
               InfiniExportClient.access_mode := "RW";
               InfiniExportClient.no_root_squash := false;
               InfiniExportClient.state := absent;
               InfiniExportClient.export := "/data" |} in
  let b := export_box [ entry "10.0.0.1" "RW" true; entry "10.0.0.2" "RW" false ] in
  let added := run (InfiniExportClient.update_client p 0) b in
  let removed := run (InfiniExportClient.delete_client p' 0) (array added) in
  ended added = Some (Changed true)
  ∧ ended removed = Some (Changed true)
  ∧ array removed = b.
Proof.
  intros p p' b.
  apply (client_added_then_removed p p' 0
           {| export_path := "/data"; export_filesystem := "fs01";
              permissions := [ entry "10.0.0.1" "RW" true; entry "10.0.0.2" "RW" false ] |}
           b).
  - reflexivity.
  - reflexivity.
  - reflexivity.
Defined.

(** ** infini_host *)

Lemma for_each_ports (h : nat) (ports : list string) (w : World) :
  for_each ports (λ port, remote (host_add_fc_port h port)) w
  = (Return (),
     {| box := apply_calls (host_add_fc_port h <$> ports) (box w);
        calls := calls w ++ (host_add_fc_port h <$> ports) |}).
Proof.
  revert w. induction ports as [| port ports IH]; intros w.
  - simpl. unfold_run. rewrite app_nil_r. by destruct w.
  - cbn [for_each]. unfold mbind, M_bind. unfold remote at 1. rewrite IH. simpl.
    by rewrite <- app_assoc.
Qed.

Lemma host_calls_last (hs : list Host) (h : Host) (cs : list call) (b : InfiniBox) :
  hosts b = hs ++ [h] →
  Forall (port_or_map_call (length hs)) cs →
  ∃ h', hosts (apply_calls cs b) = hs ++ [h']
        ∧ host_name h' = host_name h
        ∧ firmware (apply_calls cs b) = firmware b
        ∧ pools (apply_calls cs b) = pools b
        ∧ volumes (apply_calls cs b) = volumes b
        ∧ filesystems (apply_calls cs b) = filesystems b
        ∧ exports (apply_calls cs b) = exports b.
Proof.
  intros Hb Hall. revert b h Hb.
  induction Hall as [| c cs Hc _ IH]; intros b h Hb.
  - exists h. done.
  - change (apply_calls (c :: cs) b) with (apply_calls cs (apply_call c b)).
    destruct c; simpl in Hc; try contradiction; subst index.
    + edestruct (IH (apply_call (host_add_fc_port (length hs) port) b))
        as (h' & -> & Hn & -> & -> & -> & -> & ->).
      { simpl. rewrite Hb. rewrite <- (Nat.add_0_r (length hs)).
        rewrite alter_app_r. reflexivity. }
      exists h'. done.
    + edestruct (IH (apply_call (host_map_volume (length hs) volume) b))
        as (h' & -> & Hn & -> & -> & -> & -> & ->).
      { simpl. rewrite Hb. rewrite <- (Nat.add_0_r (length hs)).
        rewrite alter_app_r. reflexivity. }
      exists h'. done.
Qed.

Lemma ports_added (hs : list Host) (h : Host) (ports : list string) (b : InfiniBox) :
  hosts b = hs ++ [h] →
  hosts (apply_calls (host_add_fc_port (length hs) <$> ports) b)
  = hs ++ [ {| host_name := host_name h; fc_ports := fc_ports h ++ ports;
               mapped_volumes := mapped_volumes h |} ].
Proof.
  revert b h. induction ports as [| port ports IH]; intros b h Hb.
  - simpl. rewrite Hb, app_nil_r. by destruct h.
  - rewrite fmap_cons.
    change (apply_calls (?c :: ?cs) b) with (apply_calls cs (apply_call c b)).
    erewrite IH.
    2:{ simpl. rewrite Hb. rewrite <- (Nat.add_0_r (length hs)).
        rewrite alter_app_r. reflexivity. }
    simpl. by rewrite <- app_assoc.
Qed.

Lemma host_creation_calls (p : InfiniHost.Params) (n : nat) :
  Forall (port_or_map_call n)
    ((host_add_fc_port n <$> default [] (InfiniHost.wwns p))
     ++ (if truthy (InfiniHost.volume p)
         then [host_map_volume n (text (InfiniHost.volume p))] else [])).
Proof.
  apply Forall_app. split.
  - apply Forall_fmap, Forall_forall. intros port _. reflexivity.
  - destruct (truthy (InfiniHost.volume p)); repeat constructor.
Qed.

Lemma host_main_missing (p : InfiniHost.Params) (b : InfiniBox) :
  InfiniHost.state p = present →
  ¬ Exists (λ h, host_name h = InfiniHost.name p) (hosts b) →
  volume_known p b →
  run (InfiniHost.main p) b
  = {| ended := Some (Changed true);
       array := apply_calls (host_creation p (length (hosts b))) b;
       issued := host_creation p (length (hosts b)) |}.
Proof.
  intros Hs Hn Hv. unfold volume_known in Hv.
  unfold InfiniHost.main, InfiniHost.create_host, InfiniHost.create,
    InfiniHost.get_host, InfiniHost.volumes_get, host_creation.
  unfold_run. simpl. rewrite list_find_absent by exact Hn. simpl. rewrite Hs.
  assert (Hports : ∀ w,
    (if truthy_list (InfiniHost.wwns p)
     then for_each (default [] (InfiniHost.wwns p))
            (λ port, remote (host_add_fc_port (length (hosts b)) port))
     else λ w, (Return (), w)) w
    = (Return (),
       {| box := apply_calls
                   (host_add_fc_port (length (hosts b)) <$> default [] (InfiniHost.wwns p))
                   (box w);
          calls := calls w
                   ++ (host_add_fc_port (length (hosts b))
                       <$> default [] (InfiniHost.wwns p)) |})).
  { intros w. destruct (InfiniHost.wwns p) as [[| port ports] |]; simpl.
    - rewrite app_nil_r. by destruct w.
    - apply (for_each_ports _ (port :: ports)).
    - rewrite app_nil_r. by destruct w. }
  destruct (truthy (InfiniHost.volume p)) eqn:Ht.
  - destruct (Hv eq_refl) as [d Hd]. simpl. rewrite Hd. simpl.
    unfold remote in Hports. unfold_run. rewrite Hports. simpl.
    set (cs := host_add_fc_port (length (hosts b)) <$> default [] (InfiniHost.wwns p)).
    assert (Hvol : volumes (apply_calls cs
                     (apply_call (hosts_create (InfiniHost.name p)) b))
                   = volumes b).
    { destruct (host_calls_last (hosts b)
                  {| host_name := InfiniHost.name p; fc_ports := []; mapped_volumes := [] |}
                  cs (apply_call (hosts_create (InfiniHost.name p)) b) eq_refl)
        as (h' & _ & _ & _ & _ & Hvs & _).
      - subst cs. apply Forall_fmap, Forall_forall. intros port _. reflexivity.
      - exact Hvs. }
    simpl in Hvol. rewrite Hvol, Hd. simpl.
    unfold apply_calls. rewrite foldl_app. reflexivity.
  - simpl. unfold remote in Hports. unfold_run. rewrite Hports. simpl.
    rewrite !app_nil_r. reflexivity.
Qed.

Lemma host_created_hosts (p : InfiniHost.Params) (b : InfiniBox) :
  apply_calls (host_creation p (length (hosts b))) b
  = {| firmware := firmware b; pools := pools b; volumes := volumes b;
       filesystems := filesystems b; exports := exports b;
       hosts := hosts b ++ [created_host p] |}.
Proof.
  unfold host_creation.
  change (apply_calls (?c :: ?cs) b) with (apply_calls cs (apply_call c b)).
  rewrite apply_calls_app.
  set (b1 := apply_call (hosts_create (InfiniHost.name p)) b).
  set (new := {| host_name := InfiniHost.name p; fc_ports := []; mapped_volumes := [] |}).
  assert (Hb1 : hosts b1 = hosts b ++ [new]) by reflexivity.
  pose proof (ports_added (hosts b) new (default [] (InfiniHost.wwns p)) b1 Hb1) as Hports.
  destruct (host_calls_last (hosts b) new
              (host_add_fc_port (length (hosts b)) <$> default [] (InfiniHost.wwns p))
              b1 Hb1) as (h' & _ & _ & Hfw & Hps & Hvs & Hfs & Hes).
  { apply Forall_fmap, Forall_forall. intros port _. reflexivity. }
  set (b2 := apply_calls _ b1) in *.
  unfold created_host.
  destruct (truthy (InfiniHost.volume p)).
  - unfold apply_calls. simpl. fold (apply_calls []). rewrite Hfw, Hps, Hvs, Hfs, Hes, Hports.
    simpl. f_equal. rewrite <- (Nat.add_0_r (length (hosts b))).
    rewrite alter_app_r. reflexivity.
  - unfold apply_calls at 1. simpl.
    destruct b2 as [fw2 ps2 vs2 fss2 es2 hs2]. simpl in *. by subst.
Qed.

(** X24.  A host that is created gets its ports in the order of [wwns]
    and, when a volume is named, that volume mapped; the calls are the
    create call, one call for each port and the mapping, in this order,
    and nothing else of the array changes. *)
Theorem host_created (p : InfiniHost.Params) (b : InfiniBox) :
  InfiniHost.state p = present →
  ¬ Exists (λ h, host_name h = InfiniHost.name p) (hosts b) →
  volume_known p b →
  let r := run (InfiniHost.main p) b in
  let n := length (hosts b) in
  ended r = Some (Changed true)
  ∧ issued r
    = hosts_create (InfiniHost.name p)
      :: (host_add_fc_port n <$> default [] (InfiniHost.wwns p))
      ++ (if truthy (InfiniHost.volume p)
          then [host_map_volume n (text (InfiniHost.volume p))] else [])
  ∧ array r
    = {| firmware := firmware b; pools := pools b; volumes := volumes b;
         filesystems := filesystems b; exports := exports b;
         hosts := hosts b
                  ++ [ {| host_name := InfiniHost.name p;
                          fc_ports := default [] (InfiniHost.wwns p);
                          mapped_volumes :=
                            if truthy (InfiniHost.volume p)
                            then [text (InfiniHost.volume p)] else [] |} ] |}.
Proof.
  intros Hs Hn Hv r n. subst r n.
  rewrite (host_main_missing p b Hs Hn Hv). cbn [ended issued array].
  split; [done | split; [done |]]. apply host_created_hosts.
Qed.

Lemma host_created_witness :
  let p := {| InfiniHost.name := "bar.example.com"; InfiniHost.state := present;
              InfiniHost.wwns := Some [ "00:00:00:00:00:00:00"; "11:11:11:11:11:11:11" ]%string;
              InfiniHost.volume := None |} in
  let r := run (InfiniHost.main p) (small_box verbatim) in
  ended r = Some (Changed true)
  ∧ issued r = [ hosts_create "bar.example.com";
                 host_add_fc_port 0 "00:00:00:00:00:00:00";
                 host_add_fc_port 0 "11:11:11:11:11:11:11" ]
  ∧ hosts (array r)
    = [ {| host_name := "bar.example.com";
           fc_ports := [ "00:00:00:00:00:00:00"; "11:11:11:11:11:11:11" ]%string;
           mapped_volumes := [] |} ].
Proof.
  intros p.
  destruct (host_created p (small_box verbatim)) as (Hended & Hissued & Harray).
  - reflexivity.
  - intros Hex. by apply Exists_nil in Hex.
  - intros Hf. discriminate Hf.
  - split; [exact Hended | split; [exact Hissued |]]. by rewrite Harray.
Defined.

Lemma host_main_found (p : InfiniHost.Params) (b : InfiniBox) (i : nat) (h : Host) :
  list_find (λ h, host_name h = InfiniHost.name p) (hosts b) = Some (i, h) →
  volume_known p b →
  run (InfiniHost.main p) b
  = match InfiniHost.state p with
    | present => noop b
    | absent => {| ended := Some (Changed true);
                   array := apply_call (host_delete i) b;
                   issued := [host_delete i] |}
    end.
Proof.
  intros Hfind Hv. unfold volume_known in Hv.
  unfold InfiniHost.main, InfiniHost.get_host, InfiniHost.update_host,
    InfiniHost.delete_host.
  unfold_run. simpl. rewrite Hfind. simpl.
  destruct (truthy (InfiniHost.volume p)).
  - destruct (Hv eq_refl) as [d Hd]. simpl. rewrite Hd.
    destruct (InfiniHost.state p); reflexivity.
  - destruct (InfiniHost.state p); reflexivity.
Qed.

(** X25.  A host that is there is never changed by [state=present]:
    whatever ports and volume the invocation gives, the module reports
    [changed=false] and issues no call. *)
Theorem host_present_never_updated (p : InfiniHost.Params) (b : InfiniBox) :
  InfiniHost.state p = present →
  Exists (λ h, host_name h = InfiniHost.name p) (hosts b) →
  volume_known p b →
  run (InfiniHost.main p) b = noop b.
Proof.
  intros Hs Hex Hv.
  apply Exists_exists in Hex as (h & Hin & Hname).
  destruct (list_find_elem_of (λ h, host_name h = InfiniHost.name p)
              (hosts b) h Hin Hname) as [[i h'] Hfind].
  by rewrite (host_main_found p b i h' Hfind Hv), Hs.
Qed.

Lemma host_present_never_updated_witness :
  let b := {| firmware := verbatim; pools := ∅; volumes := ∅; filesystems := ∅;
              exports := [];
              hosts := [ {| host_name := "foo.example.com"; fc_ports := [];
                            mapped_volumes := [] |} ] |} in
  run (InfiniHost.main
         {| InfiniHost.name := "foo.example.com"; InfiniHost.state := present;
            InfiniHost.wwns := Some [ "00:00:00:00:00:00:00" ]%string;
            InfiniHost.volume := None |}) b
  = noop b.
Proof.
  intros b.
  apply (host_present_never_updated
           {| InfiniHost.name := "foo.example.com"; InfiniHost.state := present;
              InfiniHost.wwns := Some [ "00:00:00:00:00:00:00" ]%string;
              InfiniHost.volume := None |} b).
  - reflexivity.
  - apply Exists_cons_hd. reflexivity.
  - intros Hf. discriminate Hf.
Defined.

(** X26.  Reconciling a host with [state=present] twice with the same
    options: the second run finds nothing to do. *)
Theorem host_present_idempotent (p : InfiniHost.Params) (b : InfiniBox) :
  InfiniHost.state p = present →
  volume_known p b →
  let first := run (InfiniHost.main p) b in
  run (InfiniHost.main p) (array first) = noop (array first).
Proof.
  intros Hs Hv first. subst first.
  destruct (list_find (λ h, host_name h = InfiniHost.name p) (hosts b))
    as [[i h] |] eqn:Hfind.
  - rewrite (host_main_found p b i h Hfind Hv), Hs. cbn [noop array].
    by rewrite (host_main_found p b i h Hfind Hv), Hs.
  - assert (Hn : ¬ Exists (λ h, host_name h = InfiniHost.name p) (hosts b)).
    { apply list_find_None in Hfind. intros Hex.
      apply Exists_exists in Hex as (h & Hin & Hname).
      rewrite Forall_forall in Hfind. by apply (Hfind h). }
    rewrite (host_main_missing p b Hs Hn Hv). cbn [array].
    rewrite host_created_hosts.
    erewrite host_main_found; [by rewrite Hs | | exact Hv].
    simpl. apply (list_find_appended _ (hosts b) (created_host p) Hn). reflexivity.
Qed.

Lemma host_present_idempotent_witness :
  let p := {| InfiniHost.name := "foo.example.com"; InfiniHost.state := present;
              InfiniHost.wwns := Some [ "00:00:00:00:00:00:00" ]%string;
              InfiniHost.volume := None |} in
  let first := run (InfiniHost.main p) (small_box verbatim) in
  run (InfiniHost.main p) (array first) = noop (array first).
Proof.
  intros p.
  apply (host_present_idempotent p (small_box verbatim)).
  - reflexivity.
  - intros Hf. discriminate Hf.
Defined.

(** X27.  Creating a host, with whatever ports and mapping, and then
    removing it gives the array back as it was. *)
Theorem host_created_then_deleted (p p' : InfiniHost.Params) (b : InfiniBox) :
  InfiniHost.state p = present →
  InfiniHost.state p' = absent →
  InfiniHost.name p' = InfiniHost.name p →
  ¬ Exists (λ h, host_name h = InfiniHost.name p) (hosts b) →
  volume_known p b →
  volume_known p' b →
  let created := run (InfiniHost.main p) b in
  let deleted := run (InfiniHost.main p') (array created) in
  ended created = Some (Changed true)
  ∧ ended deleted = Some (Changed true)
  ∧ issued deleted = [ host_delete (length (hosts b)) ]
  ∧ array deleted = b.
Proof.
  intros Hs Hs' Hname Hn Hv Hv' created deleted. subst deleted created.
  rewrite (host_main_missing p b Hs Hn Hv). cbn [ended array].
  rewrite host_created_hosts.
  erewrite (host_main_found p' _ (length (hosts b)) (created_host p));
    [| | exact Hv'].
  - rewrite Hs'. simpl. split; [done | split; [done | split; [done |]]].
    rewrite <- (app_nil_r (hosts b)) at 2.
    rewrite app_nil_r at 1. rewrite delete_middle, app_nil_r. by destruct b.
  - simpl. rewrite Hname.
    apply (list_find_appended _ (hosts b) (created_host p) Hn). reflexivity.
Qed.

Lemma host_created_then_deleted_witness :
  let p := {| InfiniHost.name := "foo.example.com"; InfiniHost.state := present;
              InfiniHost.wwns := Some [ "00:00:00:00:00:00:00" ]%string;
              InfiniHost.volume := None |} in
  let p' := {| InfiniHost.name := "foo.example.com"; InfiniHost.state := absent;
               InfiniHost.wwns := None; InfiniHost.volume := None |} in
  let b := small_box verbatim in
  let created := run (InfiniHost.main p) b in
  let deleted := run (InfiniHost.main p') (array created) in
  ended created = Some (Changed true)
  ∧ ended deleted = Some (Changed true)
  ∧ issued deleted = [ host_delete 0 ]
  ∧ array deleted = b.
Proof.
  intros p p' b.
  apply (host_created_then_deleted p p' b).
  - reflexivity.
  - reflexivity.
  - reflexivity.
  - intros Hex. by apply Exists_nil in Hex.
  - intros Hf. discriminate Hf.
  - intros Hf. discriminate Hf.
Defined.

(** ** get_system *)

(** X28.  The credentials of a session come from one place.  With a user
    and a password among the options the environment does not matter;
    with only one of the two, the one that is given is ignored and
    [get_system] does what it does with neither; and it never logs in
    with a user from one place and a password from another. *)
Theorem get_system_one_source (user password : option string) (env : Environment)
    (login : credentials → bool) :
  (truthy user = true → truthy password = true →
   ∀ env', get_system user password env login = get_system user password env' login)
  ∧ (truthy user && truthy password = false →
     get_system user password env login = get_system None None env login)
  ∧ ∀ u w, get_system user password env login = inr (auth u w) →
      (user = Some u ∧ password = Some w)
      ∨ (INFINIBOX_USER env = Some u ∧ INFINIBOX_PASSWORD env = Some w).
Proof.
  unfold get_system, chosen_credentials. split; [| split].
  - intros -> -> env'. reflexivity.
  - intros ->. reflexivity.
  - intros u w.
    destruct (truthy user && truthy password) eqn:Hp.
    + apply andb_true_iff in Hp as [Hu Hw].
      destruct user as [u' |], password as [w' |]; try discriminate.
      simpl. destruct (login _); [| discriminate]. intros [= <- <-]. by left.
    + destruct (truthy (INFINIBOX_USER env) && truthy (INFINIBOX_PASSWORD env)) eqn:He.
      * apply andb_true_iff in He as [Hu Hw].
        destruct (INFINIBOX_USER env) as [u' |], (INFINIBOX_PASSWORD env) as [w' |];
          try discriminate.
        simpl. destruct (login _); [| discriminate]. intros [= <- <-]. by right.
      * destruct (infinisdk_ini env); [| discriminate].
        destruct (login _); discriminate.
Qed.

Lemma get_system_one_source_witness :
  let env := {| INFINIBOX_USER := Some "admin"%string;
                INFINIBOX_PASSWORD := Some "secret"%string;
                infinisdk_ini := false |} in
  get_system (Some "operator"%string) None env (λ _, true)
  = get_system None None env (λ _, true)
  ∧ get_system (Some "operator"%string) None env (λ _, true)
    = inr (auth "admin" "secret").
Proof.
  intros env.
  destruct (get_system_one_source (Some "operator"%string) None env (λ _, true))
    as (_ & Hpartial & _).
  split; [apply Hpartial; reflexivity |].
  rewrite Hpartial by reflexivity. reflexivity.
Defined.

(** X29.  [get_system] fails with the request for credentials exactly
    when neither the options nor the environment give both a user and a
    password and the configuration file is not there; in every other
    case it tries to log in, and fails with the authentication message
    when the login is refused. *)
Theorem get_system_failures (user password : option string) (env : Environment)
    (login : credentials → bool) :
  (get_system user password env login
   = inl (Failed "You must set INFINIBOX_USER and INFINIBOX_PASSWORD environment variables or set username/password module arguments")
   ↔ truthy user && truthy password = false
     ∧ truthy (INFINIBOX_USER env) && truthy (INFINIBOX_PASSWORD env) = false
     ∧ infinisdk_ini env = false)
  ∧ (get_system user password env login
     = inl (Failed "Infinibox authentication failed. Check your credentials")
     ↔ ∃ c, chosen_credentials user password env = Some c ∧ login c = false).
Proof.
  unfold get_system, chosen_credentials.
  destruct (truthy user && truthy password).
  { split; [split; [destruct (login _); discriminate | intros (Hf & _); discriminate Hf] |].
    destruct (login _) eqn:Hl; split; [discriminate | | eauto | done].
    intros (c & [= <-] & Hc). congruence. }
  destruct (truthy (INFINIBOX_USER env) && truthy (INFINIBOX_PASSWORD env)).
  { split; [split; [destruct (login _); discriminate
                   | intros (_ & Hf & _); discriminate Hf] |].
    destruct (login _) eqn:Hl; split; [discriminate | | eauto | done].
    intros (c & [= <-] & Hc). congruence. }
  destruct (infinisdk_ini env).
  { split; [split; [destruct (login _); discriminate
                   | intros (_ & _ & Hf); discriminate Hf] |].
    destruct (login _) eqn:Hl; split; [discriminate | | eauto | done].
    intros (c & [= <-] & Hc). congruence. }
  split; [done |]. split; [discriminate |].
  intros (c & Hc & _). discriminate Hc.
Qed.

Lemma get_system_failures_witness :
  get_system None (Some "secret"%string)
    {| INFINIBOX_USER := Some "admin"%string; INFINIBOX_PASSWORD := None;
       infinisdk_ini := false |} (λ _, true)
  = inl (Failed "You must set INFINIBOX_USER and INFINIBOX_PASSWORD environment variables or set username/password module arguments").
Proof.
  apply (get_system_failures None (Some "secret"%string)
           {| INFINIBOX_USER := Some "admin"%string; INFINIBOX_PASSWORD := None;
              infinisdk_ini := false |} (λ _, true)).
  split; [reflexivity | split; reflexivity].
Defined.
